(** * A shallow embedding of the chess rules engine (chess-logic) and of the
      board component: its notation helpers, click handlers and status line.

    Conventions of the embedding.
    - Coordinates are integers ([Z]): the generators compute off-board
      candidates such as [row - 2] and reject them with [isValidPosition].
    - A board is the array of arrays the code has: a list of rows, a row being
      a list of cells, a cell being [None] (null / undefined) or a piece.
    - Indexing a missing row ([board[r]] undefined, then [[c]]) raises a
      TypeError in the source: every operation that indexes the board returns
      an [option], [None] standing for that exception.  Indexing a row at a
      missing column gives undefined, which the code only tests for truth, so
      it reads as an empty cell.
    - A row is the list of its elements.  A write past the end makes the
      row longer.  A write at a negative column adds no element: the source
      keeps the value as a property of the row object, which the copies made
      by [cloneBoard] and [cleanBoard] leave behind and which only an
      unchecked read at that very key of that very object returns.  Rows
      carry no such property here: the write leaves the elements as they
      are, and a read at a negative column gives an empty cell.
    - The two clocks of the game state hold integers.  Numbers are doubles:
      [n++] is [n + 1] rounded to the nearest double ([increment]), which is
      [n + 1] itself from [-2^53] up to [2^53 - 1].
    - Loops that [return] from inside are rendered by short-circuiting
      monadic iterators that stop at the first hit, as the code does. *)

From Stdlib Require Import ZArith Bool Lia Sorted.
From stdpp Require Import base option list strings.

Local Open Scope Z_scope.

(** ** Data model *)

Inductive PieceType := pawn | rook | knight | bishop | queen | king.
Inductive Color := white | black.

Record ChessPiece := mkPiece {
  type : PieceType;
  color : Color;
  hasMoved : option bool   (* optional field: [None] is "absent" *)
}.

Record Position := mkPos { row : Z; col : Z }.

Record GameState := mkState {
  whiteCanCastleKingside : bool;
  whiteCanCastleQueenside : bool;
  blackCanCastleKingside : bool;
  blackCanCastleQueenside : bool;
  enPassantTarget : option Position;
  halfMoveClock : Z;
  fullMoveNumber : Z
}.

Abbreviation Cell := (option ChessPiece).
Abbreviation Board := (list (list (option ChessPiece))).

Record MoveResult := mkResult {
  newBoard : Board;
  newGameState : GameState;
  capturedPiece : option ChessPiece
}.

Definition PieceType_eqb (a b : PieceType) : bool :=
  match a, b with
  | pawn, pawn | rook, rook | knight, knight
  | bishop, bishop | queen, queen | king, king => true
  | _, _ => false
  end.

Definition Color_eqb (a b : Color) : bool :=
  match a, b with
  | white, white | black, black => true
  | _, _ => false
  end.

Definition Position_eqb (p q : Position) : bool :=
  (row p =? row q) && (col p =? col q).

(** [!piece.hasMoved]: absent and false are both falsy. *)
Definition notMoved (p : ChessPiece) : bool :=
  match hasMoved p with Some true => false | _ => true end.

Definition opponent (c : Color) : Color :=
  match c with white => black | black => white end.

(** Truthiness of a cell. *)
Definition isOccupied (x : option ChessPiece) : bool :=
  match x with Some _ => true | None => false end.

(** ** Board primitives *)

(** [board[r]]: [None] when the row does not exist. *)
Definition rowAt (b : Board) (r : Z) : option (list Cell) :=
  if 0 <=? r then b !! Z.to_nat r else None.

(** [rowArray[c]]: undefined outside the row reads as an empty cell. *)
Definition colAt (l : list Cell) (c : Z) : Cell :=
  if 0 <=? c then default None (l !! Z.to_nat c) else None.

(** [board[r][c]]; [None] is the TypeError of indexing a missing row. *)
Definition getCell (b : Board) (p : Position) : option Cell :=
  l ← rowAt b (row p); Some (colAt l (col p)).

(** [rowArray[c] = v].  Inside the row the element is replaced; past its end
    the array grows (the gap is filled with holes, which read as empty); a
    negative index sets a property of the array object, which is no element
    of the array: the row's elements stay as they are. *)
Definition storeCol (l : list Cell) (c : Z) (v : Cell) : list Cell :=
  if c <? 0 then l
  else if (Z.to_nat c <? length l)%nat then <[Z.to_nat c := v]> l
  else l ++ replicate (Z.to_nat c - length l)%nat None ++ [v].

(** [board[r][c] = v]; [None] is the TypeError of a missing row. *)
Definition setCell (b : Board) (p : Position) (v : Cell) : option Board :=
  l ← rowAt b (row p); Some (<[Z.to_nat (row p) := storeCol l (col p) v]> b).

(** [piece ? { ...piece } : null]: a copy field by field. *)
Definition copyPiece (p : ChessPiece) : ChessPiece :=
  {| type := type p; color := color p; hasMoved := hasMoved p |}.

Definition cloneBoard (b : Board) : Board :=
  map (fun r => map (fun c => match c with Some p => Some (copyPiece p) | None => None end) r) b.

Definition cleanBoard (b : Board) : Board :=
  map (fun r => map (fun c => match c with Some p => Some (copyPiece p) | None => None end) r) b.

Definition isValidPosition (p : Position) : bool :=
  (0 <=? row p) && (row p <? 8) && (0 <=? col p) && (col p <? 8).

Definition emptyRow : list Cell := replicate 8 None.

Definition backRank (c : Color) : list Cell :=
  map (fun t => Some (mkPiece t c None))
      [rook; knight; bishop; queen; king; bishop; knight; rook].

Definition initialBoard : Board :=
  [ backRank black;
    replicate 8 (Some (mkPiece pawn black None));
    emptyRow; emptyRow; emptyRow; emptyRow;
    replicate 8 (Some (mkPiece pawn white None));
    backRank white ].

(** ** Iterators for loops with an early [return] *)

(** [for (x of l) { if (f x) return true }; false], stopping at the first
    exception or hit. *)
Fixpoint anyM {A} (f : A → option bool) (l : list A) : option bool :=
  match l with
  | [] => Some false
  | x :: xs => r ← f x; if r : bool then Some true else anyM f xs
  end.

(** First element satisfying [f], scanning in order. *)
Fixpoint findM {A} (f : A → option bool) (l : list A) : option (option A) :=
  match l with
  | [] => Some None
  | x :: xs => r ← f x; if r : bool then Some (Some x) else findM f xs
  end.

(** [l.filter(f)] for a callback that may raise. *)
Fixpoint filterM {A} (f : A → option bool) (l : list A) : option (list A) :=
  match l with
  | [] => Some []
  | x :: xs => r ← f x; rest ← filterM f xs; Some (if r : bool then x :: rest else rest)
  end.

(** [for (x of l) moves.push(...f x)]. *)
Fixpoint collectM {A B} (f : A → option (list B)) (l : list A) : option (list B) :=
  match l with
  | [] => Some []
  | x :: xs => ys ← f x; rest ← collectM f xs; Some (ys ++ rest)
  end.

(** The 64 squares in the order of [for row 0..7 { for col 0..7 }]. *)
Definition allSquares : list Position :=
  r ← [0; 1; 2; 3; 4; 5; 6; 7]; c ← [0; 1; 2; 3; 4; 5; 6; 7]; [mkPos r c].

(** ** Attack detector *)

Definition knightOffsets (p : Position) : list Position :=
  [ mkPos (row p - 2) (col p - 1); mkPos (row p - 2) (col p + 1);
    mkPos (row p - 1) (col p - 2); mkPos (row p - 1) (col p + 2);
    mkPos (row p + 1) (col p - 2); mkPos (row p + 1) (col p + 2);
    mkPos (row p + 2) (col p - 1); mkPos (row p + 2) (col p + 1) ].

Definition kingOffsets (p : Position) : list Position :=
  [ mkPos (row p - 1) (col p - 1); mkPos (row p - 1) (col p);
    mkPos (row p - 1) (col p + 1); mkPos (row p) (col p - 1);
    mkPos (row p) (col p + 1);     mkPos (row p + 1) (col p - 1);
    mkPos (row p + 1) (col p);     mkPos (row p + 1) (col p + 1) ].

(** The squares the detector inspects for pawns, by defending colour. *)
Definition pawnDirections (p : Position) (c : Color) : list Position :=
  match c with
  | white => [ mkPos (row p + 1) (col p - 1); mkPos (row p + 1) (col p + 1) ]
  | black => [ mkPos (row p - 1) (col p - 1); mkPos (row p - 1) (col p + 1) ]
  end.

Definition straightDirs : list (Z * Z) := [(-1, 0); (1, 0); (0, -1); (0, 1)].
Definition diagonalDirs : list (Z * Z) := [(-1, -1); (-1, 1); (1, -1); (1, 1)].
Definition slidingDirs : list (Z * Z) := straightDirs ++ diagonalDirs.

(** Is the cell a piece of kind [t] and colour [c]? *)
Definition isPieceOf (t : PieceType) (c : Color) (x : Cell) : bool :=
  match x with
  | Some q => PieceType_eqb (type q) t && Color_eqb (color q) c
  | None => false
  end.

(** Body of the pawn loop, en-passant special case included: the inner [if]
    returns true, and so does the statement after it. *)
Definition pawnHit (b : Board) (opp : Color) (gs : GameState) (dir : Position)
  : option bool :=
  if isValidPosition dir then
    x ← getCell b dir;
    if isPieceOf pawn opp x then
      match enPassantTarget gs with
      | Some ep =>
          if (row dir =? row ep) && (col dir =? col ep) then Some true else Some true
      | None => Some true
      end
    else Some false
  else Some false.

(** Body of the knight and king loops. *)
Definition stepHit (t : PieceType) (b : Board) (opp : Color) (sq : Position)
  : option bool :=
  if isValidPosition sq then x ← getCell b sq; Some (isPieceOf t opp x)
  else Some false.

(** Does the first piece met on a ray attack along this ray? *)
Definition rayCovers (opp : Color) (d : Z * Z) (q : ChessPiece) : bool :=
  if Color_eqb (color q) opp then
    let isDiagonal := negb (d.1 =? 0) && negb (d.2 =? 0) in
    let isStraight := (d.1 =? 0) || (d.2 =? 0) in
    (isDiagonal && (PieceType_eqb (type q) bishop || PieceType_eqb (type q) queen))
    || (isStraight && (PieceType_eqb (type q) rook || PieceType_eqb (type q) queen))
  else false.

(** The [while (isValidPosition(current))] walk along one ray, [cur] being the
    square under inspection.  [fuel] bounds the iterations; [rayHit_fuel]
    below shows that 8 is never exhausted before the walk leaves the board. *)
Fixpoint rayHit (fuel : nat) (b : Board) (opp : Color) (d : Z * Z) (cur : Position)
  : option bool :=
  match fuel with
  | O => Some false
  | S f =>
      if isValidPosition cur then
        x ← getCell b cur;
        match x with
        | Some q => Some (rayCovers opp d q)
        | None => rayHit f b opp d (mkPos (row cur + d.1) (col cur + d.2))
        end
      else Some false
  end.

Definition isPositionUnderAttack (b : Board) (position : Position) (c : Color)
    (gs : GameState) : option bool :=
  let opponentColor := opponent c in
  byPawn ← anyM (pawnHit b opponentColor gs) (pawnDirections position c);
  if byPawn : bool then Some true else
  byKnight ← anyM (stepHit knight b opponentColor) (knightOffsets position);
  if byKnight : bool then Some true else
  byKing ← anyM (stepHit king b opponentColor) (kingOffsets position);
  if byKing : bool then Some true else
  anyM (fun d => rayHit 8 b opponentColor d
                   (mkPos (row position + d.1) (col position + d.2)))
       slidingDirs.

(** ** Locating the king, check *)

Definition findKing (b : Board) (c : Color) : option (option Position) :=
  findM (fun sq => x ← getCell b sq; Some (isPieceOf king c x)) allSquares.

Definition isKingInCheck (b : Board) (c : Color) (gs : GameState) : option bool :=
  k ← findKing b c;
  match k with
  | None => Some false
  | Some kingPosition => isPositionUnderAttack b kingPosition c gs
  end.

(** ** Pseudo-legal move generators *)

(** The [while] walk of the rook and bishop generators along one direction. *)
Fixpoint slide (fuel : nat) (b : Board) (piece : ChessPiece) (d : Z * Z)
    (cur : Position) : option (list Position) :=
  match fuel with
  | O => Some []
  | S f =>
      if isValidPosition cur then
        x ← getCell b cur;
        match x with
        | None =>
            rest ← slide f b piece d (mkPos (row cur + d.1) (col cur + d.2));
            Some (cur :: rest)
        | Some targetPiece =>
            if negb (Color_eqb (color targetPiece) (color piece))
            then Some [cur] else Some []
        end
      else Some []
  end.

Definition slideMoves (dirs : list (Z * Z)) (b : Board) (position : Position)
  : option (list Position) :=
  x ← getCell b position;
  match x with
  | None => Some []
  | Some piece =>
      collectM (fun d => slide 8 b piece d
                           (mkPos (row position + d.1) (col position + d.2)))
               dirs
  end.

Definition getRookMoves := slideMoves straightDirs.
Definition getBishopMoves := slideMoves diagonalDirs.

Definition getQueenMoves (b : Board) (position : Position) : option (list Position) :=
  rs ← getRookMoves b position; bs ← getBishopMoves b position; Some (rs ++ bs).

(** [!targetPiece || targetPiece.color !== piece.color] *)
Definition emptyOrEnemy (piece : ChessPiece) (x : Cell) : bool :=
  match x with
  | None => true
  | Some targetPiece => negb (Color_eqb (color targetPiece) (color piece))
  end.

(** Body of the knight and king candidate loops. *)
Definition stepMove (b : Board) (piece : ChessPiece) (move : Position)
  : option (list Position) :=
  if isValidPosition move then
    x ← getCell b move; Some (if emptyOrEnemy piece x then [move] else [])
  else Some [].

Definition getKnightMoves (b : Board) (position : Position) : option (list Position) :=
  x ← getCell b position;
  match x with
  | None => Some []
  | Some piece => collectM (stepMove b piece) (knightOffsets position)
  end.

Definition pawnDirection (c : Color) : Z := match c with white => -1 | black => 1 end.
Definition pawnStartingRow (c : Color) : Z := match c with white => 6 | black => 1 end.

(** Body of the loop over the two capture squares. *)
Definition pawnCapture (b : Board) (piece : ChessPiece) (gs : GameState)
    (capturePos : Position) : option (list Position) :=
  if isValidPosition capturePos then
    x ← getCell b capturePos;
    match x with
    | Some targetPiece =>
        Some (if negb (Color_eqb (color targetPiece) (color piece))
              then [capturePos] else [])
    | None =>
        match enPassantTarget gs with
        | Some ep =>
            Some (if (row capturePos =? row ep) && (col capturePos =? col ep)
                  then [capturePos] else [])
        | None => Some []
        end
    end
  else Some [].

Definition getPawnMoves (b : Board) (position : Position) (gs : GameState)
  : option (list Position) :=
  x ← getCell b position;
  match x with
  | None => Some []
  | Some piece =>
      if negb (PieceType_eqb (type piece) pawn) then Some [] else
      let direction := pawnDirection (color piece) in
      let startingRow := pawnStartingRow (color piece) in
      let oneForward := mkPos (row position + direction) (col position) in
      forward ←
        (if isValidPosition oneForward then
           x1 ← getCell b oneForward;
           match x1 with
           | Some _ => Some []
           | None =>
               if row position =? startingRow then
                 let twoForward := mkPos (row position + 2 * direction) (col position) in
                 x2 ← getCell b twoForward;
                 Some (oneForward :: match x2 with None => [twoForward] | Some _ => [] end)
               else Some [oneForward]
           end
         else Some []);
      captures ←
        collectM (pawnCapture b piece gs)
          [ mkPos (row position + direction) (col position - 1);
            mkPos (row position + direction) (col position + 1) ];
      Some (forward ++ captures)
  end.

Definition canCastleKingside (c : Color) (gs : GameState) : bool :=
  match c with
  | white => whiteCanCastleKingside gs
  | black => blackCanCastleKingside gs
  end.

Definition canCastleQueenside (c : Color) (gs : GameState) : bool :=
  match c with
  | white => whiteCanCastleQueenside gs
  | black => blackCanCastleQueenside gs
  end.

(** [rook && rook.type === "rook" && rook.color === piece.color && !rook.hasMoved] *)
Definition isCastlingRook (piece : ChessPiece) (x : Cell) : bool :=
  match x with
  | Some rk => PieceType_eqb (type rk) rook && Color_eqb (color rk) (color piece)
               && notMoved rk
  | None => false
  end.

(** [path.every(pos => !board[pos.row][pos.col])] *)
Fixpoint pathClear (b : Board) (path : list Position) : option bool :=
  match path with
  | [] => Some true
  | pos :: rest =>
      x ← getCell b pos;
      match x with Some _ => Some false | None => pathClear b rest end
  end.

(** [!isKingInCheck(...) && !isPositionUnderAttack(..., passed square, ...)] *)
Definition kingNotInCheck (b : Board) (c : Color) (gs : GameState)
    (passed : Position) : option bool :=
  chk ← isKingInCheck b c gs;
  if chk : bool then Some false
  else att ← isPositionUnderAttack b passed c gs; Some (negb att).

(** One castling side: [rookCol] is the rook's column, [path] the squares that
    must be empty, [passed] the square next to the king, [dest] = [path[1]]. *)
Definition castleSide (b : Board) (position : Position) (piece : ChessPiece)
    (gs : GameState) (rookCol : Z) (path : list Position) (passed dest : Position)
  : option (list Position) :=
  rk ← getCell b (mkPos (row position) rookCol);
  if isCastlingRook piece rk then
    clear ← pathClear b path;
    safe ← kingNotInCheck b (color piece) gs passed;
    Some (if clear && safe then [dest] else [])
  else Some [].

Definition getKingMoves (b : Board) (position : Position) (gs : GameState)
  : option (list Position) :=
  x ← getCell b position;
  match x with
  | None => Some []
  | Some piece =>
      if negb (PieceType_eqb (type piece) king) then Some [] else
      let r := row position in
      let c := col position in
      steps ← collectM (stepMove b piece) (kingOffsets position);
      if notMoved piece then
        kingside ←
          (if canCastleKingside (color piece) gs then
             castleSide b position piece gs 7
               [mkPos r (c + 1); mkPos r (c + 2)]
               (mkPos r (c + 1)) (mkPos r (c + 2))
           else Some []);
        queenside ←
          (if canCastleQueenside (color piece) gs then
             castleSide b position piece gs 0
               [mkPos r (c - 1); mkPos r (c - 2); mkPos r (c - 3)]
               (mkPos r (c - 1)) (mkPos r (c - 2))
           else Some []);
        Some (steps ++ kingside ++ queenside)
      else Some steps
  end.

(** ** Move executor *)

Definition setHalfMoveClock (gs : GameState) (v : Z) : GameState :=
  mkState (whiteCanCastleKingside gs) (whiteCanCastleQueenside gs)
          (blackCanCastleKingside gs) (blackCanCastleQueenside gs)
          (enPassantTarget gs) v (fullMoveNumber gs).

Definition setFullMoveNumber (gs : GameState) (v : Z) : GameState :=
  mkState (whiteCanCastleKingside gs) (whiteCanCastleQueenside gs)
          (blackCanCastleKingside gs) (blackCanCastleQueenside gs)
          (enPassantTarget gs) (halfMoveClock gs) v.

Definition setEnPassantTarget (gs : GameState) (v : option Position) : GameState :=
  mkState (whiteCanCastleKingside gs) (whiteCanCastleQueenside gs)
          (blackCanCastleKingside gs) (blackCanCastleQueenside gs)
          v (halfMoveClock gs) (fullMoveNumber gs).

(** [newGameState.<color>CanCastleKingside = false] *)
Definition clearKingside (c : Color) (gs : GameState) : GameState :=
  match c with
  | white => mkState false (whiteCanCastleQueenside gs)
               (blackCanCastleKingside gs) (blackCanCastleQueenside gs)
               (enPassantTarget gs) (halfMoveClock gs) (fullMoveNumber gs)
  | black => mkState (whiteCanCastleKingside gs) (whiteCanCastleQueenside gs)
               false (blackCanCastleQueenside gs)
               (enPassantTarget gs) (halfMoveClock gs) (fullMoveNumber gs)
  end.

Definition clearQueenside (c : Color) (gs : GameState) : GameState :=
  match c with
  | white => mkState (whiteCanCastleKingside gs) false
               (blackCanCastleKingside gs) (blackCanCastleQueenside gs)
               (enPassantTarget gs) (halfMoveClock gs) (fullMoveNumber gs)
  | black => mkState (whiteCanCastleKingside gs) (whiteCanCastleQueenside gs)
               (blackCanCastleKingside gs) false
               (enPassantTarget gs) (halfMoveClock gs) (fullMoveNumber gs)
  end.

Definition homeRow (c : Color) : Z := match c with white => 7 | black => 0 end.

(** The rook blocks of the executor: a rook of colour [c] leaving, or being
    captured on, square [sq] forfeits the matching right. *)
Definition rookSquareForfeit (c : Color) (sq : Position) (gs : GameState) : GameState :=
  if (row sq =? homeRow c) && (col sq =? 0) then clearQueenside c gs
  else if (row sq =? homeRow c) && (col sq =? 7) then clearKingside c gs
  else gs.

Definition setType (p : ChessPiece) (t : PieceType) : ChessPiece :=
  {| type := t; color := color p; hasMoved := hasMoved p |}.

Definition setHasMoved (p : ChessPiece) : ChessPiece :=
  {| type := type p; color := color p; hasMoved := Some true |}.

(** Does the pawn move land on the current en-passant target? *)
Definition hitsEnPassant (gs : GameState) (to : Position) : bool :=
  match enPassantTarget gs with
  | Some ep => (row to =? row ep) && (col to =? col ep)
  | None => false
  end.

(** The pawn block: en-passant removal, new target, promotion. *)
Definition pawnStep (nb : Board) (piece : ChessPiece) (from to : Position)
    (gs0 gs : GameState) (promotionPiece : option PieceType)
  : option (Board * GameState * ChessPiece) :=
  nb1 ←
    (if hitsEnPassant gs0 to then
       let captureRow :=
         match color piece with white => row to + 1 | black => row to - 1 end in
       setCell nb (mkPos captureRow (col to)) None
     else Some nb);
  let gs1 :=
    if Z.abs (row from - row to) =? 2 then
      let enPassantRow :=
        match color piece with white => row from - 1 | black => row from + 1 end in
      setEnPassantTarget gs (Some (mkPos enPassantRow (col from)))
    else setEnPassantTarget gs None in
  let piece1 :=
    if (Color_eqb (color piece) white && (row to =? 0))
       || (Color_eqb (color piece) black && (row to =? 7))
    then setType piece (default queen promotionPiece)
    else piece in
  Some (nb1, gs1, piece1).

(** The king block.  [moved] is the moving piece as it will be once
    [hasMoved] is set: when the rook's home square is the origin itself the
    relocated object is the moving piece, and the later assignment to its
    [hasMoved] shows through that second reference. *)
Definition kingStep (nb : Board) (piece moved : ChessPiece) (from to : Position)
    (gs : GameState) : option (Board * GameState) :=
  let gs1 := clearQueenside (color piece) (clearKingside (color piece) gs) in
  if Z.abs (col from - col to) =? 2 then
    let rookCol := if col from <? col to then 7 else 0 in
    let rookToCol := if col from <? col to then 5 else 3 in
    rk ← getCell nb (mkPos (row from) rookCol);
    let rk' := if col from =? rookCol then Some moved else rk in
    nb1 ← setCell nb (mkPos (row from) rookToCol) rk';
    nb2 ← setCell nb1 (mkPos (row from) rookCol) None;
    Some (nb2, gs1)
  else Some (nb, gs1).

(** The double nearest to an integer: the integers of magnitude below 2^53
    are doubles; a larger one is rounded to 53 significant bits, to the
    nearest, a tie going to the even significand. *)
Definition roundToDouble (z : Z) : Z :=
  let a := Z.abs z in
  if a <? 2 ^ 53 then z
  else
    let e := Z.log2 a - 52 in
    let q := a / 2 ^ e in
    let r := a mod 2 ^ e in
    let half := 2 ^ (e - 1) in
    let q' := if r <? half then q
              else if half <? r then q + 1
              else if Z.even q then q else q + 1 in
    Z.sgn z * (q' * 2 ^ e).

(** [n++] on a number holding an integer. *)
Definition increment (n : Z) : Z := roundToDouble (n + 1).

Definition movePiece (b : Board) (from to : Position) (gs : GameState)
    (promotionPiece : option PieceType) : option MoveResult :=
  let nb := cloneBoard b in
  x ← getCell nb from;
  match x with
  | None => Some (mkResult nb gs None)
  | Some piece =>
      target ← getCell nb to;
      let captured := copyPiece <$> target in
      let gsA :=
        if PieceType_eqb (type piece) pawn || isOccupied captured
        then setHalfMoveClock gs 0
        else setHalfMoveClock gs (increment (halfMoveClock gs)) in
      let gsB :=
        if Color_eqb (color piece) black
        then setFullMoveNumber gsA (increment (fullMoveNumber gsA)) else gsA in
      '(nb1, gsC, piece1) ←
        (if PieceType_eqb (type piece) pawn
         then pawnStep nb piece from to gs gsB promotionPiece
         else Some (nb, setEnPassantTarget gsB None, piece));
      let moved := setHasMoved piece1 in
      '(nb2, gsD) ←
        (if PieceType_eqb (type piece1) king
         then kingStep nb1 piece1 moved from to gsC
         else Some (nb1, gsC));
      let gsE :=
        if PieceType_eqb (type piece1) rook
        then rookSquareForfeit (color piece1) from gsD else gsD in
      let gsF :=
        match captured with
        | Some cp => if PieceType_eqb (type cp) rook
                     then rookSquareForfeit (color cp) to gsE else gsE
        | None => gsE
        end in
      nb3 ← setCell nb2 to (Some moved);
      nb4 ← setCell nb3 from None;
      Some (mkResult nb4 gsF captured)
  end.

(** ** Legal moves and terminal detection *)

Definition pseudoMoves (b : Board) (position : Position) (gs : GameState)
    (piece : ChessPiece) : option (list Position) :=
  match type piece with
  | pawn => getPawnMoves b position gs
  | rook => getRookMoves b position
  | knight => getKnightMoves b position
  | bishop => getBishopMoves b position
  | queen => getQueenMoves b position
  | king => getKingMoves b position gs
  end.

(** The callback of the final [moves.filter]. *)
Definition keepsKingSafe (b : Board) (position : Position) (gs : GameState)
    (piece : ChessPiece) (move : Position) : option bool :=
  r ← movePiece b position move gs None;
  let cleanNewBoard := cleanBoard (newBoard r) in
  chk ← isKingInCheck cleanNewBoard (color piece) gs;
  Some (negb chk).

Definition getPossibleMoves (b : Board) (position : Position) (gs : GameState)
  : option (list Position) :=
  x ← getCell b position;
  match x with
  | None => Some []
  | Some piece =>
      moves ← pseudoMoves b position gs piece;
      filterM (keepsKingSafe b position gs piece) moves
  end.

(** Body of the double loop shared by [isCheckmate] and [isStalemate]: does
    the piece on [sq], if of colour [c], have a move? *)
Definition hasMoveAt (b : Board) (c : Color) (gs : GameState) (sq : Position)
  : option bool :=
  x ← getCell b sq;
  match x with
  | Some piece =>
      if Color_eqb (color piece) c then
        moves ← getPossibleMoves b sq gs;
        Some (match moves with [] => false | _ => true end)
      else Some false
  | None => Some false
  end.

Definition isCheckmate (b : Board) (c : Color) (gs : GameState) : option bool :=
  chk ← isKingInCheck b c gs;
  if negb chk then Some false
  else any ← anyM (hasMoveAt b c gs) allSquares; Some (negb any).

Definition isStalemate (b : Board) (c : Color) (gs : GameState) : option bool :=
  chk ← isKingInCheck b c gs;
  if chk : bool then Some false
  else any ← anyM (hasMoveAt b c gs) allSquares; Some (negb any).

(** ** Notation generator (board component)

    [generateNotation] and [findAmbiguousPieces] are closures of the board
    component: the [board] they search for rival pieces is the component's
    current board, passed here as the explicit first argument [live]. *)

Definition files : list string := ["a"; "b"; "c"; "d"; "e"; "f"; "g"; "h"]%string.
Definition ranks : list string := ["8"; "7"; "6"; "5"; "4"; "3"; "2"; "1"]%string.

(** [arr[i]]: [None] is undefined. *)
Definition arrayAt (arr : list string) (i : Z) : option string :=
  if 0 <=? i then arr !! Z.to_nat i else None.

(** String conversion of a possibly undefined operand of [+=]. *)
Definition jsString (x : option string) : string :=
  match x with Some s => s | None => "undefined"%string end.

(** [x + y] on possibly undefined strings, then converted to a string:
    undefined + undefined is NaN. *)
Definition jsPlus (x y : option string) : string :=
  match x, y with
  | None, None => "NaN"%string
  | _, _ => jsString x +:+ jsString y
  end.

(** [t === "knight" ? "N" : t.charAt(0).toUpperCase()] *)
Definition pieceLetter (t : PieceType) : string :=
  match t with
  | knight => "N" | pawn => "P" | rook => "R"
  | bishop => "B" | queen => "Q" | king => "K"
  end%string.

Definition findAmbiguousPieces (live : Board) (piece : ChessPiece)
    (from to : Position) (gs : GameState) : option (list Position) :=
  filterM (fun sq =>
      if Position_eqb sq from then Some false else
      x ← getCell live sq;
      match x with
      | Some currentPiece =>
          if PieceType_eqb (type currentPiece) (type piece)
             && Color_eqb (color currentPiece) (color piece)
          then moves ← getPossibleMoves live sq gs;
               Some (existsb (fun move => Position_eqb move to) moves)
          else Some false
      | None => Some false
      end)
    allSquares.

(** The text inserted by the [if (ambiguousPieces.length > 0)] block. *)
Definition disambiguation (ambiguousPieces : list Position) (from : Position) : string :=
  match ambiguousPieces with
  | [] => ""%string
  | _ =>
      if forallb (fun p => negb (col p =? col from)) ambiguousPieces
      then jsString (arrayAt files (col from))
      else if forallb (fun p => negb (row p =? row from)) ambiguousPieces
      then jsString (arrayAt ranks (row from))
      else jsPlus (arrayAt files (col from)) (arrayAt ranks (row from))
  end.

(** The parts of the notation written before and after the disambiguator. *)
Definition notationHead (piece : ChessPiece) (from : Position)
    (captured : option ChessPiece) : string :=
  (if negb (PieceType_eqb (type piece) pawn) then pieceLetter (type piece) else "")
  +:+ (if PieceType_eqb (type piece) pawn && isOccupied captured
       then jsString (arrayAt files (col from)) else "").

Definition notationMove (to : Position) (captured : option ChessPiece)
    (promotionPiece : option PieceType) : string :=
  (if isOccupied captured then "x" else "")
  +:+ jsPlus (arrayAt files (col to)) (arrayAt ranks (row to))
  +:+ match promotionPiece with
      | Some t => "=" +:+ pieceLetter t
      | None => ""
      end.

Definition checkSuffix (nb : Board) (nextPlayer : Color) (gs : GameState)
  : option string :=
  mate ← isCheckmate nb nextPlayer gs;
  if mate : bool then Some "#"%string
  else chk ← isKingInCheck nb nextPlayer gs;
       Some (if chk : bool then "+" else "")%string.

Definition generateNotation (live : Board) (piece : ChessPiece)
    (from to : Position) (captured : option ChessPiece) (nb : Board)
    (gs : GameState) (promotionPiece : option PieceType) : option string :=
  if PieceType_eqb (type piece) king && (Z.abs (col from - col to) =? 2) then
    Some (if col from <? col to then "O-O"%string else "O-O-O"%string)
  else
    ambiguousPieces ← findAmbiguousPieces live piece from to gs;
    suffix ← checkSuffix nb (opponent (color piece)) gs;
    Some (notationHead piece from captured
          +:+ disambiguation ambiguousPieces from
          +:+ notationMove to captured promotionPiece
          +:+ suffix).

(** ** The board component: state, click handlers, status line

    The component keeps its state in hooks.  A handler reads the values of
    the render it belongs to and schedules the new ones; it is rendered as a
    function from the state it reads to the state after its updates, [None]
    standing for an exception raised before any update.  The fields of a
    history entry carry the prefix [h]. *)

Record MoveHistory := mkMoveHistory {
  hPiece : ChessPiece;
  hFrom : Position;
  hTo : Position;
  hCapturedPiece : option ChessPiece;
  hPromotion : option PieceType;
  hNotation : string
}.

Record ChessBoardState := mkChessBoardState {
  board : Board;
  selectedPiece : option Position;
  possibleMoves : list Position;
  currentPlayer : Color;
  gameStatus : string;
  showPromotionModal : bool;
  promotionPosition : option Position;
  moveHistory : list MoveHistory;
  gameState : GameState
}.

(** The state of the first render. *)
Definition initialComponent : ChessBoardState :=
  mkChessBoardState initialBoard None [] white "" false None []
    (mkState true true true true None 0 1).

(** [setSelectedPiece(sel); setPossibleMoves(moves)] *)
Definition withSelection (s : ChessBoardState) (sel : option Position)
    (moves : list Position) : ChessBoardState :=
  mkChessBoardState (board s) sel moves (currentPlayer s) (gameStatus s)
    (showPromotionModal s) (promotionPosition s) (moveHistory s) (gameState s).

(** [setPromotionPosition(pos); setShowPromotionModal(true)] *)
Definition withPromotionPending (s : ChessBoardState) (pos : Position)
  : ChessBoardState :=
  mkChessBoardState (board s) (selectedPiece s) (possibleMoves s) (currentPlayer s)
    (gameStatus s) true (Some pos) (moveHistory s) (gameState s).

(** [isCheckmate(...) || isStalemate(...)] on the component's state. *)
Definition gameOver (s : ChessBoardState) : option bool :=
  mate ← isCheckmate (board s) (currentPlayer s) (gameState s);
  if mate : bool then Some true
  else isStalemate (board s) (currentPlayer s) (gameState s).

(** [possibleMoves.some(move => move.row === row && move.col === col)] *)
Definition isValidMove (s : ChessBoardState) (r c : Z) : bool :=
  existsb (fun move => (row move =? r) && (col move =? c)) (possibleMoves s).

Definition handleSquareClick (s : ChessBoardState) (r c : Z)
  : option ChessBoardState :=
  over ← gameOver s;
  if over : bool then Some s else
  match selectedPiece s with
  | Some sel =>
      if isValidMove s r c then
        x ← getCell (board s) sel;
        match x with
        | None => Some s
        | Some pieceToMove =>
            let isPawnPromotion :=
              PieceType_eqb (type pieceToMove) pawn
              && ((Color_eqb (color pieceToMove) white && (r =? 0))
                  || (Color_eqb (color pieceToMove) black && (r =? 7))) in
            if isPawnPromotion then Some (withPromotionPending s (mkPos r c))
            else
              let from := mkPos (row sel) (col sel) in
              let to := mkPos r c in
              res ← movePiece (board s) from to (gameState s) None;
              notation ← generateNotation (board s) pieceToMove from to
                           (capturedPiece res) (newBoard res) (newGameState res) None;
              Some (mkChessBoardState (newBoard res) None []
                      (opponent (currentPlayer s)) (gameStatus s)
                      (showPromotionModal s) (promotionPosition s)
                      (moveHistory s
                       ++ [mkMoveHistory pieceToMove from to (capturedPiece res)
                             None notation])
                      (newGameState res))
        end
      else
        clicked ← getCell (board s) (mkPos r c);
        match clicked with
        | Some clickedPiece =>
            if Color_eqb (color clickedPiece) (currentPlayer s) then
              moves ← getPossibleMoves (board s) (mkPos r c) (gameState s);
              Some (withSelection s (Some (mkPos r c)) moves)
            else Some (withSelection s None [])
        | None => Some (withSelection s None [])
        end
  | None =>
      clicked ← getCell (board s) (mkPos r c);
      match clicked with
      | Some clickedPiece =>
          if Color_eqb (color clickedPiece) (currentPlayer s) then
            moves ← getPossibleMoves (board s) (mkPos r c) (gameState s);
            Some (withSelection s (Some (mkPos r c)) moves)
          else Some s
      | None => Some s
      end
  end.

Definition handlePromotion (s : ChessBoardState) (pieceType : PieceType)
  : option ChessBoardState :=
  match selectedPiece s, promotionPosition s with
  | Some sel, Some promotionPos =>
      x ← getCell (board s) sel;
      match x with
      | None => Some s
      | Some pieceToPromote =>
          let from := mkPos (row sel) (col sel) in
          res ← movePiece (board s) from promotionPos (gameState s) (Some pieceType);
          notation ← generateNotation (board s) pieceToPromote from promotionPos
                       (capturedPiece res) (newBoard res) (newGameState res)
                       (Some pieceType);
          Some (mkChessBoardState (newBoard res) None []
                  (opponent (currentPlayer s)) (gameStatus s) false None
                  (moveHistory s
                   ++ [mkMoveHistory pieceToPromote from promotionPos
                         (capturedPiece res) (Some pieceType) notation])
                  (newGameState res))
      end
  | _, _ => Some s
  end.

(** The promotion dialog does not take part in a reset. *)
Definition resetGame (s : ChessBoardState) : ChessBoardState :=
  mkChessBoardState initialBoard None [] white "White's turn"
    (showPromotionModal s) (promotionPosition s) []
    (mkState true true true true None 0 1).

(** [c.charAt(0).toUpperCase() + c.slice(1)] on the name of a colour. *)
Definition capitalized (c : Color) : string :=
  match c with white => "White" | black => "Black" end.

(** The text computed by the effect that runs after a render in which the
    board, the player to move or the game state changed. *)
Definition statusText (b : Board) (player : Color) (gs : GameState) : option string :=
  mate ← isCheckmate b player gs;
  if mate : bool then
    Some ("Checkmate! " +:+ match player with white => "Black" | black => "White" end
          +:+ " wins!")
  else
    stale ← isStalemate b player gs;
    if stale : bool then Some "Stalemate! The game is a draw."%string
    else
      chk ← isKingInCheck b player gs;
      if chk : bool then Some (capitalized player +:+ " is in check!")
      else Some (capitalized player +:+ "'s turn").

Definition statusEffect (s : ChessBoardState) : option ChessBoardState :=
  text ← statusText (board s) (currentPlayer s) (gameState s);
  Some (mkChessBoardState (board s) (selectedPiece s) (possibleMoves s)
          (currentPlayer s) text (showPromotionModal s) (promotionPosition s)
          (moveHistory s) (gameState s)).

(** The kinds the promotion dialog offers, in the order of its buttons. *)
Definition promotionChoices : list PieceType := [queen; rook; bishop; knight].

(** ** Piece glyphs (piece component and promotion dialog) *)

(** [getPieceSymbol] of the piece component. *)
Definition getPieceSymbol (piece : ChessPiece) : string :=
  match type piece with
  | pawn => if Color_eqb (color piece) white then "♙" else "♟"
  | rook => if Color_eqb (color piece) white then "♖" else "♜"
  | knight => if Color_eqb (color piece) white then "♘" else "♞"
  | bishop => if Color_eqb (color piece) white then "♗" else "♝"
  | queen => if Color_eqb (color piece) white then "♕" else "♛"
  | king => if Color_eqb (color piece) white then "♔" else "♚"
  end.

(** [getPieceSymbol] of the promotion dialog, whose colour is a property of
    the dialog: kinds it does not offer fall to the default case. *)
Definition dialogPieceSymbol (c : Color) (t : PieceType) : string :=
  match t with
  | queen => if Color_eqb c white then "♕" else "♛"
  | rook => if Color_eqb c white then "♖" else "♜"
  | bishop => if Color_eqb c white then "♗" else "♝"
  | knight => if Color_eqb c white then "♘" else "♞"
  | _ => ""
  end.

(** ** Vocabulary of the statements *)

(** The attack detector with the en-passant comparison of its pawn loop
    removed: plain diagonal pawn detection, everything else as in
    [isPositionUnderAttack]. *)
Definition pawnHitPlain (b : Board) (opp : Color) (dir : Position) : option bool :=
  if isValidPosition dir then x ← getCell b dir; Some (isPieceOf pawn opp x)
  else Some false.

Definition isPositionUnderAttackPlain (b : Board) (position : Position) (c : Color)
  : option bool :=
  let opponentColor := opponent c in
  byPawn ← anyM (pawnHitPlain b opponentColor) (pawnDirections position c);
  if byPawn : bool then Some true else
  byKnight ← anyM (stepHit knight b opponentColor) (knightOffsets position);
  if byKnight : bool then Some true else
  byKing ← anyM (stepHit king b opponentColor) (kingOffsets position);
  if byKing : bool then Some true else
  anyM (fun d => rayHit 8 b opponentColor d
                   (mkPos (row position + d.1) (col position + d.2)))
       slidingDirs.

(** A board of eight rows: every bounds-checked read finds its row. *)
Definition eightRows (b : Board) : Prop := length b = 8%nat.

(** The four castling rights of [g'] are among those of [g]. *)
Definition rightsWithin (g' g : GameState) : Prop :=
  (whiteCanCastleKingside g' = true → whiteCanCastleKingside g = true) ∧
  (whiteCanCastleQueenside g' = true → whiteCanCastleQueenside g = true) ∧
  (blackCanCastleKingside g' = true → blackCanCastleKingside g = true) ∧
  (blackCanCastleQueenside g' = true → blackCanCastleQueenside g = true).

(** A pawn of colour [c] advancing two squares along its file. *)
Definition isTwoSquareAdvance (c : Color) (from to : Position) : bool :=
  (row to =? row from + 2 * pawnDirection c) && (col to =? col from).

(** The square such an advance passes over. *)
Definition squarePassedOver (c : Color) (from : Position) : Position :=
  mkPos (row from + pawnDirection c) (col from).

(** The square directly behind [to] for a pawn of colour [c]: where the pawn
    taken en passant stands. *)
Definition squareBehind (c : Color) (to : Position) : Position :=
  mkPos (row to - pawnDirection c) (col to).

(** An en-passant capture, as the pawn generator offers it: a pawn steps
    diagonally forward onto the empty en-passant target. *)
Definition isEnPassantCapture (b : Board) (gs : GameState) (piece : ChessPiece)
    (from to : Position) : Prop :=
  getCell b from = Some (Some piece) ∧ type piece = pawn ∧
  enPassantTarget gs = Some to ∧ getCell b to = Some None ∧
  row to = row from + pawnDirection (color piece) ∧
  Z.abs (col to - col from) = 1.

(** [k] is the first square, in scanning order, holding a king of colour [c]. *)
Definition firstKingAt (b : Board) (c : Color) (k : Position) : Prop :=
  ∃ before after x,
    allSquares = before ++ k :: after ∧
    getCell b k = Some x ∧ isPieceOf king c x = true ∧
    ∀ q, In q before → ∃ y, getCell b q = Some y ∧ isPieceOf king c y = false.

(** Rank of a square in the row-by-row scan. *)
Definition scanIndex (p : Position) : Z := 8 * row p + col p.

(** No square of the board holds a king of colour [c]. *)
Definition noKing (b : Board) (c : Color) : Prop :=
  ∀ q, In q allSquares → ∃ y, getCell b q = Some y ∧ isPieceOf king c y = false.

(** File letter and rank digit of a square: files a..h from column 0, ranks
    8 minus the row. *)
Definition fileLetter (p : Position) : string :=
  String (Ascii.ascii_of_nat (97 + Z.to_nat (col p))) EmptyString.

Definition rankDigit (p : Position) : string :=
  String (Ascii.ascii_of_nat (48 + Z.to_nat (8 - row p))) EmptyString.

(** The king on [position] may castle kingside, attack conditions apart: it
    is the king of its colour, on a square of the board, and has not moved;
    the right is held; the unmoved rook of its colour stands on the h-file of
    the king's row; all squares strictly between king and rook are empty. *)
Definition kingsideEligible (b : Board) (gs : GameState) (position : Position)
    (piece : ChessPiece) : Prop :=
  getCell b position = Some (Some piece) ∧ type piece = king ∧
  notMoved piece = true ∧ isValidPosition position = true ∧
  findKing b (color piece) = Some (Some position) ∧
  canCastleKingside (color piece) gs = true ∧
  (∃ rk, getCell b (mkPos (row position) 7) = Some rk ∧ isCastlingRook piece rk = true) ∧
  (∀ c', col position < c' < 7 → getCell b (mkPos (row position) c') = Some None).

(** A cell that is empty or holds a piece of colour [c]. *)
Definition emptyOrOwn (c : Color) (x : option ChessPiece) : Prop :=
  x = None ∨ ∃ p, x = Some p ∧ color p = c.

(** Two cells that the detector cannot tell apart when [c] defends: the same
    content, or two pieces of colour [c] neither of which is a king. *)
Definition sameForDefender (c : Color) (x y : option ChessPiece) : Prop :=
  x = y ∨
  ∃ p q, x = Some p ∧ y = Some q ∧ color p = c ∧ color q = c ∧
         type p ≠ king ∧ type q ≠ king.

(** Two boards with the same rows whose cells are pairwise such. *)
Definition boardsAgreeFor (c : Color) (b1 b2 : Board) : Prop :=
  ∀ q, match getCell b1 q, getCell b2 q with
       | Some x, Some y => sameForDefender c x y
       | None, None => True
       | _, _ => False
       end.

(** A unit step of a ray: each component is -1, 0 or 1, not both 0. *)
Definition isDirection (d : Z * Z) : Prop :=
  (d.1 = 1 ∨ d.1 = -1 ∨ d.1 = 0) ∧ (d.2 = 1 ∨ d.2 = -1 ∨ d.2 = 0) ∧
  ¬ (d.1 = 0 ∧ d.2 = 0).

(** Squares left before the edge of the board, counted along the coordinate
    in which the ray moves: the measure that bounds the ray walks. *)
Definition edgeDistance (d : Z * Z) (cur : Position) : Z :=
  if d.1 =? 1 then 8 - row cur
  else if d.1 =? -1 then row cur + 1
  else if d.2 =? 1 then 8 - col cur
  else col cur + 1.

(** The square [k] steps from [p] along [d]. *)
Definition stepFrom (p : Position) (d : Z * Z) (k : Z) : Position :=
  mkPos (row p + k * d.1) (col p + k * d.2).

(** The squares strictly between [p] and its [k]-th step along [d] are empty. *)
Definition clearBetween (b : Board) (p : Position) (d : Z * Z) (k : Z) : Prop :=
  ∀ j, 1 ≤ j < k → getCell b (stepFrom p d j) = Some None.

(** The piece on [p] slides to [m] along one of [dirs]: [m] is a square of
    the board some steps away, nothing stands in between, and [m] is empty
    or holds a piece of the other colour. *)
Definition slidesTo (dirs : list (Z * Z)) (b : Board) (piece : ChessPiece)
    (p m : Position) : Prop :=
  ∃ d k, In d dirs ∧ 1 ≤ k ∧ m = stepFrom p d k ∧ isValidPosition m = true ∧
         clearBetween b p d k ∧
         ∃ x, getCell b m = Some x ∧ emptyOrEnemy piece x = true.

(** A knight's jump: one row and two columns away, or two rows and one
    column. *)
Definition knightJump (p m : Position) : Prop :=
  (Z.abs (row m - row p) = 1 ∧ Z.abs (col m - col p) = 2) ∨
  (Z.abs (row m - row p) = 2 ∧ Z.abs (col m - col p) = 1).

(** A neighbouring square, in any of the eight directions. *)
Definition kingNeighbour (p m : Position) : Prop :=
  Z.abs (row m - row p) ≤ 1 ∧ Z.abs (col m - col p) ≤ 1 ∧ m ≠ p.

(** The square [m] is on the board and is empty or holds a piece of the
    other colour than [piece]. *)
Definition landsOn (b : Board) (piece : ChessPiece) (m : Position) : Prop :=
  isValidPosition m = true ∧ ∃ x, getCell b m = Some x ∧ emptyOrEnemy piece x = true.

(** The three kinds of pawn move: one square straight ahead onto an empty
    square; two squares straight ahead from the starting row over and onto
    empty squares; one square diagonally ahead onto a piece of the other
    colour, or onto the empty en-passant target. *)
Definition pawnAdvance (b : Board) (piece : ChessPiece) (p m : Position) : Prop :=
  m = mkPos (row p + pawnDirection (color piece)) (col p) ∧
  isValidPosition m = true ∧ getCell b m = Some None.

Definition pawnDouble (b : Board) (piece : ChessPiece) (p m : Position) : Prop :=
  m = mkPos (row p + 2 * pawnDirection (color piece)) (col p) ∧
  row p = pawnStartingRow (color piece) ∧ 0 ≤ col p < 8 ∧
  getCell b (mkPos (row p + pawnDirection (color piece)) (col p)) = Some None ∧
  getCell b m = Some None.

Definition pawnTakes (b : Board) (piece : ChessPiece) (gs : GameState)
    (p m : Position) : Prop :=
  row m = row p + pawnDirection (color piece) ∧ Z.abs (col m - col p) = 1 ∧
  isValidPosition m = true ∧
  ((∃ t, getCell b m = Some (Some t) ∧ color t ≠ color piece) ∨
   (getCell b m = Some None ∧ enPassantTarget gs = Some m)).

(** The conditions under which the king generator offers a castling square:
    [side] is 1 for the kingside (rook on column 7) and -1 for the queenside
    (rook on column 0, one more square to keep empty). *)
Definition castlesTo (b : Board) (piece : ChessPiece) (gs : GameState)
    (p : Position) (side : Z) (m : Position) : Prop :=
  m = mkPos (row p) (col p + 2 * side) ∧
  notMoved piece = true ∧
  (if side =? 1 then canCastleKingside (color piece) gs
   else canCastleQueenside (color piece) gs) = true ∧
  (∃ rk, getCell b (mkPos (row p) (if side =? 1 then 7 else 0)) = Some rk ∧
         isCastlingRook piece rk = true) ∧
  getCell b (mkPos (row p) (col p + side)) = Some None ∧
  getCell b (mkPos (row p) (col p + 2 * side)) = Some None ∧
  (side = -1 → getCell b (mkPos (row p) (col p - 3)) = Some None) ∧
  isKingInCheck b (color piece) gs = Some false ∧
  isPositionUnderAttack b (mkPos (row p) (col p + side)) (color piece) gs = Some false.

(** A piece of kind [t] and colour [c] stands on the square [q] of the board. *)
Definition pieceOn (b : Board) (t : PieceType) (c : Color) (q : Position) : Prop :=
  isValidPosition q = true ∧
  ∃ x, getCell b q = Some (Some x) ∧ type x = t ∧ color x = c.

(** The two squares the detector inspects for pawns when [c] defends [p]:
    diagonally adjacent, one row against the direction in which the pawns
    of [c] advance. *)
Definition pawnWatch (c : Color) (p q : Position) : Prop :=
  row q = row p - pawnDirection c ∧ Z.abs (col q - col p) = 1.

(** A queen, rook or bishop of colour [opp] bears on [p] along a ray: it is
    the first piece met from [p] in a direction in which it moves. *)
Definition rayAttack (b : Board) (opp : Color) (p : Position) : Prop :=
  ∃ d k x, In d slidingDirs ∧ 1 ≤ k ∧ isValidPosition (stepFrom p d k) = true ∧
           clearBetween b p d k ∧
           getCell b (stepFrom p d k) = Some (Some x) ∧ color x = opp ∧
           (type x = queen ∨ (type x = rook ∧ In d straightDirs)
            ∨ (type x = bishop ∧ In d diagonalDirs)).

(** The executor promotes the piece: a pawn arriving on the far row of its
    colour. *)
Definition promotes (piece : ChessPiece) (to : Position) : bool :=
  PieceType_eqb (type piece) pawn
  && ((Color_eqb (color piece) white && (row to =? 0))
      || (Color_eqb (color piece) black && (row to =? 7))).

(** The piece as the executor puts it on the destination: promoted to the
    chosen kind (a queen without a choice) when it promotes, marked as
    moved. *)
Definition arrivingPiece (piece : ChessPiece) (to : Position)
    (promotionPiece : option PieceType) : ChessPiece :=
  setHasMoved (if promotes piece to then setType piece (default queen promotionPiece)
               else piece).

(** [b'] is [b] after the final assignments of the executor alone:
    [arrived] on [to], then nothing on [from]. *)
Definition movedOnly (b b' : Board) (from to : Position) (arrived : ChessPiece)
  : Prop :=
  ∀ q, getCell b' q =
       if Position_eqb q from then Some None
       else if Position_eqb q to then Some (Some arrived)
       else getCell b q.

(** [b'] is [b] after a two-column move of a king from [from] to [to]:
    whatever stood on the corner of the king's row toward which it moved
    (column 7 or 0) now stands next to the king's path (column 5 or 3), the
    corner is empty, and the king, as [arrived], has gone from [from] to
    [to].  Later assignments win where squares coincide. *)
Definition castledBoard (b b' : Board) (from to : Position) (arrived : ChessPiece)
  : Prop :=
  let rookCol := if col from <? col to then 7 else 0 in
  let rookToCol := if col from <? col to then 5 else 3 in
  ∀ q, getCell b' q =
       if Position_eqb q from then Some None
       else if Position_eqb q to then Some (Some arrived)
       else if Position_eqb q (mkPos (row from) rookCol) then Some None
       else if Position_eqb q (mkPos (row from) rookToCol)
            then getCell b (mkPos (row from) rookCol)
       else getCell b q.

(** The events by which a move gives up the castling right of colour [c] on
    the side of the corner column [cornerCol]: a king of [c] arrives
    somewhere; a rook of [c] leaves that corner of its home row; a rook of
    [c] is captured on that corner. *)
Definition givesUp (c : Color) (cornerCol : Z) (arrived : ChessPiece)
    (captured : option ChessPiece) (from to : Position) : Prop :=
  (color arrived = c ∧ type arrived = king) ∨
  (color arrived = c ∧ type arrived = rook ∧ from = mkPos (homeRow c) cornerCol) ∨
  (∃ cp, captured = Some cp ∧ color cp = c ∧ type cp = rook ∧
         to = mkPos (homeRow c) cornerCol).

(** The state the executor returns for a piece found on [from], as a
    function of the move, of the piece and of what was captured: the
    sequence of its assignments to the copy of the state. *)
Definition stateAfter (gs : GameState) (piece : ChessPiece)
    (captured : option ChessPiece) (from to : Position)
    (promotionPiece : option PieceType) : GameState :=
  let arrived := arrivingPiece piece to promotionPiece in
  let gsA :=
    if PieceType_eqb (type piece) pawn || isOccupied captured
    then setHalfMoveClock gs 0
    else setHalfMoveClock gs (increment (halfMoveClock gs)) in
  let gsB :=
    if Color_eqb (color piece) black
    then setFullMoveNumber gsA (increment (fullMoveNumber gsA)) else gsA in
  let gsC :=
    setEnPassantTarget gsB
      (if PieceType_eqb (type piece) pawn && (Z.abs (row from - row to) =? 2)
       then Some (squarePassedOver (color piece) from) else None) in
  let gsD :=
    if PieceType_eqb (type arrived) king
    then clearQueenside (color piece) (clearKingside (color piece) gsC) else gsC in
  let gsE :=
    if PieceType_eqb (type arrived) rook
    then rookSquareForfeit (color piece) from gsD else gsD in
  match captured with
  | Some cp => if PieceType_eqb (type cp) rook
               then rookSquareForfeit (color cp) to gsE else gsE
  | None => gsE
  end.

(** Two states with the same castling rights and the same en-passant
    target: they may differ in the two clocks only. *)
Definition sameRules (g g' : GameState) : Prop :=
  whiteCanCastleKingside g = whiteCanCastleKingside g' ∧
  whiteCanCastleQueenside g = whiteCanCastleQueenside g' ∧
  blackCanCastleKingside g = blackCanCastleKingside g' ∧
  blackCanCastleQueenside g = blackCanCastleQueenside g' ∧
  enPassantTarget g = enPassantTarget g'.

(** No piece of colour [c] on the board has a legal move. *)
Definition noMoves (b : Board) (c : Color) (gs : GameState) : Prop :=
  ∀ sq piece, isValidPosition sq = true → getCell b sq = Some (Some piece) →
              color piece = c → getPossibleMoves b sq gs = Some [].

(** The selection of the component is coherent: the selected square holds a
    piece of the player to move and the listed moves are the legal moves of
    that piece in the current position. *)
Definition selectionCoherent (s : ChessBoardState) : Prop :=
  ∀ sel, selectedPiece s = Some sel →
         (∃ p, getCell (board s) sel = Some (Some p) ∧ color p = currentPlayer s) ∧
         getPossibleMoves (board s) sel (gameState s) = Some (possibleMoves s).

(** The handler left the position alone: board, game state, player to move
    and history are those of [s]. *)
Definition samePosition (s s' : ChessBoardState) : Prop :=
  board s' = board s ∧ gameState s' = gameState s ∧
  currentPlayer s' = currentPlayer s ∧ moveHistory s' = moveHistory s.

(** [s'] is [s] after the piece of the player to move standing on [sel] has
    been moved to [target] by [movePiece]: board and game state are the
    returned ones, the turn has passed, the selection is cleared and one
    entry describing the move has been added to the history. *)
Definition played (s s' : ChessBoardState) (sel target : Position)
    (promo : option PieceType) : Prop :=
  ∃ piece res e,
    getCell (board s) sel = Some (Some piece) ∧ color piece = currentPlayer s ∧
    movePiece (board s) sel target (gameState s) promo = Some res ∧
    board s' = newBoard res ∧ gameState s' = newGameState res ∧
    currentPlayer s' = opponent (currentPlayer s) ∧
    selectedPiece s' = None ∧ possibleMoves s' = [] ∧
    moveHistory s' = moveHistory s ++ [e] ∧
    hPiece e = piece ∧ hFrom e = sel ∧ hTo e = target ∧
    hCapturedPiece e = capturedPiece res ∧ hPromotion e = promo.

(** What can happen to the component: a click on one of the 64 squares it
    renders, a choice in the promotion dialog, a reset, or a run of the
    status effect. *)
Definition componentStep (s s' : ChessBoardState) : Prop :=
  (∃ r c, isValidPosition (mkPos r c) = true ∧ handleSquareClick s r c = Some s')
  ∨ (∃ t, handlePromotion s t = Some s')
  ∨ s' = resetGame s
  ∨ statusEffect s = Some s'.

(** The states the component reaches from its first render. *)
Inductive reachable : ChessBoardState → Prop :=
  | reach_init : reachable initialComponent
  | reach_step s s' : reachable s → componentStep s s' → reachable s'.

(** Boards for the worked positions. *)
Definition emptyBoard : Board := replicate 8 emptyRow.

Fixpoint boardWith (l : list (Position * ChessPiece)) : Board :=
  match l with
  | [] => emptyBoard
  | (p, x) :: rest => default emptyBoard (setCell (boardWith rest) p (Some x))
  end.

Definition startState : GameState := mkState true true true true None 0 1.

(** A white pawn alone on (4,4). *)
Definition lonePawnBoard : Board :=
  boardWith [(mkPos 4 4, mkPiece pawn white (Some true))].

(** White king and king's rook on their home squares, black king on its own. *)
Definition castleBoard : Board :=
  boardWith [(mkPos 7 4, mkPiece king white None);
             (mkPos 7 7, mkPiece rook white None);
             (mkPos 0 4, mkPiece king black None)].

(** As [castleBoard], with a black rook on g8, (0,6), bearing down the open
    g-file on the king's landing square g1, (7,6). *)
Definition castleDeniedBoard : Board :=
  boardWith [(mkPos 7 4, mkPiece king white None);
             (mkPos 7 7, mkPiece rook white None);
             (mkPos 0 6, mkPiece rook black (Some true));
             (mkPos 0 4, mkPiece king black None)].

(** White pawn on (3,4); the black pawn beside it on (3,5) has just advanced
    two squares, so the en-passant target is (2,5). *)
Definition enPassantBoard : Board :=
  boardWith [(mkPos 3 4, mkPiece pawn white (Some true));
             (mkPos 3 5, mkPiece pawn black (Some true));
             (mkPos 7 4, mkPiece king white None);
             (mkPos 0 4, mkPiece king black None)].

Definition enPassantState : GameState :=
  mkState true true true true (Some (mkPos 2 5)) 0 3.

(** The position after 1.e4 d5: the black pawn on d5, (3,3), bears on the
    white pawn on e4, (4,4). *)
Definition afterE4D5 : Board :=
  let bp := Some (mkPiece pawn black None) in
  let wp := Some (mkPiece pawn white None) in
  [ backRank black;
    [bp; bp; bp; None; bp; bp; bp; bp];
    emptyRow;
    [None; None; None; Some (mkPiece pawn black (Some true)); None; None; None; None];
    [None; None; None; None; Some (mkPiece pawn white (Some true)); None; None; None];
    emptyRow;
    [wp; wp; wp; wp; None; wp; wp; wp];
    backRank white ].

Definition afterE4D5State : GameState :=
  mkState true true true true (Some (mkPos 2 3)) 0 2.

(** A black pawn on (5,3), one row nearer to white's side than the white
    pawn on (4,4): it bears on (6,2) and (6,4), not on (4,4). *)
Definition pawnBehindBoard : Board :=
  boardWith [(mkPos 5 3, mkPiece pawn black (Some true));
             (mkPos 4 4, mkPiece pawn white (Some true));
             (mkPos 7 4, mkPiece king white (Some true));
             (mkPos 0 4, mkPiece king black (Some true))].

Definition quietState : GameState := mkState false false false false None 0 10.

(** White king on (5,4) about to step to (4,4), a square on which the black
    pawn on (3,3) captures. *)
Definition kingWalkBoard : Board :=
  boardWith [(mkPos 5 4, mkPiece king white (Some true));
             (mkPos 3 3, mkPiece pawn black (Some true));
             (mkPos 0 7, mkPiece king black (Some true))].

(** White king on e4, (4,4), with the black pawn on d5, (3,3), bearing on
    it: the position of [kingWalkBoard] once the king has stepped. *)
Definition exposedKingBoard : Board :=
  boardWith [(mkPos 4 4, mkPiece king white (Some true));
             (mkPos 3 3, mkPiece pawn black (Some true));
             (mkPos 0 7, mkPiece king black (Some true))].

(** White king on (4,4) with a black pawn on (5,3), one row nearer to
    white's side: the pawn bears on (6,2) and (6,4), not on the king. *)
Definition pawnBehindKingBoard : Board :=
  boardWith [(mkPos 4 4, mkPiece king white (Some true));
             (mkPos 5 3, mkPiece pawn black (Some true));
             (mkPos 0 7, mkPiece king black (Some true))].

(** [castleBoard] with a black pawn on white's second rank, row 6, on column
    [c]: it bears on columns [c - 1] and [c + 1] of white's back rank. *)
Definition castlePawnBoard (c : Z) : Board :=
  boardWith [(mkPos 6 c, mkPiece pawn black (Some true));
             (mkPos 7 4, mkPiece king white None);
             (mkPos 7 7, mkPiece rook white None);
             (mkPos 0 4, mkPiece king black None)].

(** Execute the move [from]-[to] provided the legal-move query offers it for
    the piece on [from]; [None] also when it does not. *)
Definition playOffered (b : Board) (gs : GameState) (from to : Position)
  : option MoveResult :=
  ms ← getPossibleMoves b from gs;
  if existsb (Position_eqb to) ms then movePiece b from to gs None else None.




(** A white pawn on a7, (1,0), one step from promotion; the kings far away. *)
Definition promotionBoard : Board :=
  boardWith [(mkPos 1 0, mkPiece pawn white (Some true));
             (mkPos 7 4, mkPiece king white (Some true));
             (mkPos 0 7, mkPiece king black (Some true))].

(** The component with that pawn selected. *)
Definition promotionReady : ChessBoardState :=
  mkChessBoardState promotionBoard (Some (mkPos 1 0)) [mkPos 0 0] white
    "White's turn" false None [] quietState.

(** Inversion of a successful monadic step. *)
Ltac bind_inv H :=
  match type of H with
  | (?m ≫= _) = Some _ =>
      let E := fresh "E" in destruct m eqn:E; simpl in H; [|discriminate H]
  end.

(** * Properties *)

(** ** Equality tests and copies *)

Lemma PieceType_eqb_eq a b : PieceType_eqb a b = true ↔ a = b.
Proof. destruct a, b; simpl; split; intros; congruence. Qed.

Lemma Color_eqb_eq a b : Color_eqb a b = true ↔ a = b.
Proof. destruct a, b; simpl; split; intros; congruence. Qed.

Lemma Position_eqb_eq p q : Position_eqb p q = true ↔ p = q.
Proof.
  destruct p as [r c], q as [r' c']; unfold Position_eqb; simpl.
  rewrite andb_true_iff, !Z.eqb_eq. split; [intros [-> ->]; reflexivity|].
  intros H; injection H; auto.
Qed.

Lemma Color_eqb_opponent c : Color_eqb c (opponent c) = false.
Proof. destruct c; reflexivity. Qed.

Lemma copyPiece_id p : copyPiece p = p.
Proof. destruct p; reflexivity. Qed.

Lemma cloneBoard_id (b : Board) : cloneBoard b = b.
Proof.
  unfold cloneBoard. induction b as [|r b IH]; simpl; [reflexivity|].
  f_equal; [|exact IH].
  induction r as [|x r IHr]; simpl; [reflexivity|].
  f_equal; [|exact IHr]. destruct x; [rewrite copyPiece_id|]; reflexivity.
Qed.

Lemma cleanBoard_id (b : Board) : cleanBoard b = b.
Proof. exact (cloneBoard_id b). Qed.

Lemma fmap_copyPiece (x : Cell) : copyPiece <$> x = x.
Proof. destruct x; simpl; [rewrite copyPiece_id|]; reflexivity. Qed.

(** ** The iterators *)

Lemma bind_Some {A B} (x : A) (f : A → option B) : (Some x ≫= f) = f x.
Proof. reflexivity. Qed.

Lemma anyM_ext {A} (f g : A → option bool) l :
  (∀ x, In x l → f x = g x) → anyM f l = anyM g l.
Proof.
  induction l as [|x l IH]; simpl; intros H; [reflexivity|].
  rewrite (H x) by auto. destruct (g x) as [[|]|]; simpl; auto.
Qed.

Lemma findM_ext {A} (f g : A → option bool) l :
  (∀ x, In x l → f x = g x) → findM f l = findM g l.
Proof.
  induction l as [|x l IH]; simpl; intros H; [reflexivity|].
  rewrite (H x) by auto. destruct (g x) as [[|]|]; simpl; auto.
Qed.

Lemma filterM_In {A} (f : A → option bool) l r x :
  filterM f l = Some r → In x r → In x l ∧ f x = Some true.
Proof.
  revert r. induction l as [|y l IH]; simpl; intros r H Hin.
  - injection H as <-. destruct Hin.
  - destruct (f y) as [t|] eqn:Hy; simpl in H; [|discriminate].
    destruct (filterM f l) as [rest|] eqn:Hr; simpl in H; [|discriminate].
    injection H as <-. destruct t.
    + destruct Hin as [<-|Hin]; [auto|].
      destruct (IH rest eq_refl Hin); auto.
    + destruct (IH rest eq_refl Hin); auto.
Qed.

Lemma filterM_In_intro {A} (f : A → option bool) l r x :
  filterM f l = Some r → In x l → f x = Some true → In x r.
Proof.
  revert r. induction l as [|y l IH]; simpl; intros r H Hin Hx; [destruct Hin|].
  destruct (f y) as [t|] eqn:Hy; simpl in H; [|discriminate].
  destruct (filterM f l) as [rest|] eqn:Hr; simpl in H; [|discriminate].
  injection H as <-. destruct Hin as [->|Hin].
  - rewrite Hx in Hy. injection Hy as <-. left; reflexivity.
  - specialize (IH rest eq_refl Hin Hx). destruct t; [right|]; exact IH.
Qed.

Lemma collectM_In {A B} (f : A → option (list B)) l r y :
  collectM f l = Some r → In y r → ∃ x ys, In x l ∧ f x = Some ys ∧ In y ys.
Proof.
  revert r. induction l as [|x l IH]; simpl; intros r H Hin.
  - injection H as <-. destruct Hin.
  - destruct (f x) as [ys|] eqn:Hx; simpl in H; [|discriminate].
    destruct (collectM f l) as [rest|] eqn:Hr; simpl in H; [|discriminate].
    injection H as <-. apply in_app_or in Hin. destruct Hin as [Hin|Hin].
    + exists x, ys. auto.
    + destruct (IH rest eq_refl Hin) as (x' & ys' & ? & ? & ?).
      exists x', ys'. auto.
Qed.

Lemma anyM_defined {A} (f : A → option bool) l :
  (∀ x, In x l → ∃ r, f x = Some r) → ∃ r, anyM f l = Some r.
Proof.
  induction l as [|x l IH]; simpl; intros H; [eauto|].
  destruct (H x) as [r ->]; [auto|]. simpl. destruct r; [eauto|].
  apply IH. intros y Hy. apply H. auto.
Qed.

Lemma findM_defined {A} (f : A → option bool) l :
  (∀ x, In x l → ∃ r, f x = Some r) → ∃ r, findM f l = Some r.
Proof.
  induction l as [|x l IH]; simpl; intros H; [eauto|].
  destruct (H x) as [r ->]; [auto|]. simpl. destruct r; [eauto|].
  apply IH. intros y Hy. apply H. auto.
Qed.

Lemma collectM_defined {A B} (f : A → option (list B)) l :
  (∀ x, In x l → ∃ r, f x = Some r) → ∃ r, collectM f l = Some r.
Proof.
  induction l as [|x l IH]; simpl; intros H; [eauto|].
  destruct (H x) as [r ->]; [auto|]. simpl.
  destruct IH as [rest ->]; [intros y Hy; apply H; auto|]. simpl. eauto.
Qed.

Lemma filterM_defined {A} (f : A → option bool) l :
  (∀ x, In x l → ∃ r, f x = Some r) → ∃ r, filterM f l = Some r.
Proof.
  induction l as [|x l IH]; simpl; intros H; [eauto|].
  destruct (H x) as [r ->]; [auto|]. simpl.
  destruct IH as [rest ->]; [intros y Hy; apply H; auto|]. simpl. eauto.
Qed.

Lemma findM_Some {A} (f : A → option bool) l x :
  findM f l = Some (Some x) ↔
  ∃ before after, l = before ++ x :: after ∧ f x = Some true ∧
                  ∀ q, In q before → f q = Some false.
Proof.
  induction l as [|y l IH]; simpl.
  - split; [discriminate|]. intros (pre & post & H & _). destruct pre; discriminate.
  - split.
    + destruct (f y) as [[|]|] eqn:Hy; simpl; [| |discriminate].
      * intros [= <-]. exists [], l. simpl. intuition.
      * intros H. apply IH in H. destruct H as (pre & post & -> & Hx & Hpre).
        exists (y :: pre), post. simpl. split; [reflexivity|]. split; [exact Hx|].
        intros q [<-|Hq]; auto.
    + intros (pre & post & Hl & Hx & Hpre). destruct pre as [|z pre]; simpl in Hl.
      * injection Hl as -> ->. rewrite Hx. reflexivity.
      * injection Hl as -> ->. rewrite (Hpre z) by (left; reflexivity). simpl.
        apply IH. exists pre, post. split; [reflexivity|]. split; [exact Hx|].
        intros q Hq. apply Hpre. right. exact Hq.
Qed.

Lemma findM_None {A} (f : A → option bool) l :
  (∀ q, In q l → f q = Some false) → findM f l = Some None.
Proof.
  induction l as [|y l IH]; simpl; intros H; [reflexivity|].
  rewrite (H y) by auto. simpl. apply IH. intros q Hq. apply H. auto.
Qed.

(** ** Squares and cells *)

Lemma valid_cases p :
  isValidPosition p = true → 0 ≤ row p < 8 ∧ 0 ≤ col p < 8.
Proof.
  unfold isValidPosition. rewrite !andb_true_iff, !Z.leb_le, !Z.ltb_lt. lia.
Qed.

Lemma valid_intro p :
  0 ≤ row p < 8 → 0 ≤ col p < 8 → isValidPosition p = true.
Proof.
  unfold isValidPosition. rewrite !andb_true_iff, !Z.leb_le, !Z.ltb_lt. lia.
Qed.

Lemma rowAt_Some (b : Board) r l :
  rowAt b r = Some l → 0 ≤ r ∧ (Z.to_nat r < length b)%nat ∧ b !! Z.to_nat r = Some l.
Proof.
  unfold rowAt. destruct (Z.leb_spec 0 r) as [Hr|Hr]; [|discriminate].
  intros Hl. split; [assumption|]. split; [|assumption].
  eapply lookup_lt_Some; eassumption.
Qed.

Lemma rowAt_defined (b : Board) r :
  0 ≤ r → r < Z.of_nat (length b) → ∃ l, rowAt b r = Some l.
Proof.
  intros H0 H1. unfold rowAt. destruct (Z.leb_spec 0 r); [|lia].
  apply lookup_lt_is_Some. lia.
Qed.

Lemma colAt_storeCol l c v c' :
  colAt (storeCol l c v) c' =
  if (c' =? c) && (0 <=? c) then v else colAt l c'.
Proof.
  unfold storeCol, colAt.
  destruct (Z.ltb_spec c 0) as [Hc|Hc].
  { destruct (Z.leb_spec 0 c); [lia|]. rewrite andb_false_r. reflexivity. }
  destruct (Z.leb_spec 0 c) as [_|]; [|lia]. rewrite andb_true_r.
  destruct (Z.eqb_spec c' c) as [->|Hne].
  - destruct (Z.leb_spec 0 c); [|lia].
    destruct (Nat.ltb_spec (Z.to_nat c) (length l)) as [Hlt|Hge].
    + rewrite list_lookup_insert_eq by assumption. reflexivity.
    + rewrite lookup_app_r by lia.
      rewrite lookup_app_r by (rewrite length_replicate; lia).
      rewrite length_replicate.
      replace (Z.to_nat c - length l - (Z.to_nat c - length l))%nat with 0%nat by lia.
      reflexivity.
  - destruct (Z.leb_spec 0 c') as [Hc'|]; [|reflexivity].
    assert (Hn : Z.to_nat c ≠ Z.to_nat c') by lia.
    destruct (Nat.ltb_spec (Z.to_nat c) (length l)) as [Hlt|Hge].
    + rewrite list_lookup_insert_ne by assumption. reflexivity.
    + destruct (Nat.lt_ge_cases (Z.to_nat c') (length l)) as [H1|H1].
      * rewrite lookup_app_l by assumption. reflexivity.
      * rewrite lookup_app_r by assumption.
        rewrite (lookup_ge_None_2 l) by assumption. simpl.
        destruct (Nat.lt_ge_cases (Z.to_nat c' - length l) (Z.to_nat c - length l)) as [H2|H2].
        -- rewrite lookup_app_l by (rewrite length_replicate; assumption).
           rewrite lookup_replicate_2 by assumption. reflexivity.
        -- rewrite lookup_app_r by (rewrite length_replicate; assumption).
           rewrite length_replicate.
           destruct (Z.to_nat c' - length l - (Z.to_nat c - length l))%nat eqn:E; [lia|].
           reflexivity.
Qed.

Lemma setCell_length (b b' : Board) p v :
  setCell b p v = Some b' → length b' = length b.
Proof.
  unfold setCell. destruct (rowAt b (row p)); simpl; [|discriminate].
  intros H; injection H as <-. apply length_insert.
Qed.

Lemma setCell_defined (b : Board) p v :
  0 ≤ row p → row p < Z.of_nat (length b) → ∃ b', setCell b p v = Some b'.
Proof.
  intros H0 H1. unfold setCell.
  destruct (rowAt_defined b (row p) H0 H1) as [l ->]. simpl. eauto.
Qed.

Lemma getCell_defined (b : Board) p :
  0 ≤ row p → row p < Z.of_nat (length b) → ∃ x, getCell b p = Some x.
Proof.
  intros H0 H1. unfold getCell.
  destruct (rowAt_defined b (row p) H0 H1) as [l ->]. simpl. eauto.
Qed.

Lemma getCell_Some_row (b : Board) p x :
  getCell b p = Some x → 0 ≤ row p ∧ row p < Z.of_nat (length b).
Proof.
  unfold getCell. destruct (rowAt b (row p)) eqn:E; simpl; [|discriminate].
  intros _. apply rowAt_Some in E. lia.
Qed.

Lemma getCell_valid (b : Board) p :
  eightRows b → isValidPosition p = true → ∃ x, getCell b p = Some x.
Proof.
  intros Hb Hv. apply valid_cases in Hv. unfold eightRows in Hb.
  apply getCell_defined; lia.
Qed.

(** Reading after a write. *)
Lemma getCell_setCell (b b' : Board) p v q :
  setCell b p v = Some b' →
  getCell b' q =
  if (row q =? row p) && (col q =? col p) && (0 <=? col p) then Some v
  else getCell b q.
Proof.
  unfold setCell, getCell. destruct (rowAt b (row p)) as [l|] eqn:E; simpl; [|discriminate].
  intros H; injection H as <-.
  apply rowAt_Some in E. destruct E as (Hr0 & Hlt & Hl).
  unfold rowAt. destruct (Z.leb_spec 0 (row q)) as [Hq|Hq].
  - destruct (Z.eqb_spec (row q) (row p)) as [Heq|Hne]; simpl.
    + rewrite Heq, list_lookup_insert_eq by assumption. simpl.
      rewrite colAt_storeCol, Hl. simpl.
      destruct ((col q =? col p) && (0 <=? col p)); reflexivity.
    + rewrite list_lookup_insert_ne by lia. reflexivity.
  - destruct (Z.eqb_spec (row q) (row p)); [lia|]. reflexivity.
Qed.

Lemma getCell_setCell_other (b b' : Board) p v q :
  setCell b p v = Some b' → row q ≠ row p ∨ col q ≠ col p →
  getCell b' q = getCell b q.
Proof.
  intros H Hne. rewrite (getCell_setCell _ _ _ _ q H).
  destruct (Z.eqb_spec (row q) (row p)), (Z.eqb_spec (col q) (col p)); simpl;
    try reflexivity. destruct Hne; contradiction.
Qed.

Lemma eightRows_setCell (b b' : Board) p v :
  eightRows b → setCell b p v = Some b' → eightRows b'.
Proof. unfold eightRows. intros Hb H. rewrite (setCell_length _ _ _ _ H). exact Hb. Qed.

Lemma setCell_eightRows_defined (b : Board) p v :
  eightRows b → 0 ≤ row p < 8 → ∃ b', setCell b p v = Some b' ∧ eightRows b'.
Proof.
  intros Hb Hr. destruct (setCell_defined b p v) as [b' E];
    [lia|unfold eightRows in Hb; lia|].
  exists b'. split; [exact E|]. eapply eightRows_setCell; eassumption.
Qed.

Lemma setCell_both (b1 b2 : Board) p v1 v2 b1' :
  length b1 = length b2 → setCell b1 p v1 = Some b1' →
  ∃ b2', setCell b2 p v2 = Some b2' ∧ length b1' = length b2'.
Proof.
  intros Hlen H. pose proof (setCell_length _ _ _ _ H) as L1.
  unfold setCell in H. destruct (rowAt b1 (row p)) as [l|] eqn:E; [|discriminate].
  apply rowAt_Some in E. destruct E as (H0 & H1 & _).
  destruct (setCell_defined b2 p v2) as [b2' E2]; [lia|lia|].
  exists b2'. split; [exact E2|]. rewrite (setCell_length _ _ _ _ E2). lia.
Qed.

(** ** The scan order of the board *)

Lemma allSquares_valid q : In q allSquares → isValidPosition q = true.
Proof.
  intros H. vm_compute in H.
  repeat (destruct H as [<-|H]; [reflexivity|]). destruct H.
Qed.

Lemma allSquares_In q : In q allSquares ↔ isValidPosition q = true.
Proof.
  split; [apply allSquares_valid|].
  intros Hv. apply valid_cases in Hv. destruct q as [r c]. simpl in Hv.
  apply list_elem_of_In. unfold allSquares.
  apply list_elem_of_bind. exists r. split.
  - apply list_elem_of_bind. exists c. split; [apply list_elem_of_singleton; reflexivity|].
    apply list_elem_of_In. simpl. lia.
  - apply list_elem_of_In. simpl. lia.
Qed.

Lemma allSquares_sorted :
  StronglySorted (λ p q, scanIndex p < scanIndex q) allSquares.
Proof.
  apply Sorted_StronglySorted.
  - intros x y z. lia.
  - unfold allSquares. cbn.
    repeat (apply Sorted_cons;
            [|first [apply HdRel_nil
                    |apply HdRel_cons; vm_compute; reflexivity]]).
    apply Sorted_nil.
Qed.

Lemma sorted_split {A} (lt : A → A → Prop) l pre k post :
  StronglySorted lt l → l = pre ++ k :: post →
  (∀ q, In q pre → lt q k) ∧ (∀ q, In q post → lt k q).
Proof.
  revert l. induction pre as [|x pre IH]; simpl; intros l Hs ->.
  - split; [intros q []|]. apply StronglySorted_inv in Hs.
    destruct Hs as [_ Hall]. intros q Hq.
    rewrite List.Forall_forall in Hall. apply Hall. exact Hq.
  - apply StronglySorted_inv in Hs. destruct Hs as [Hs Hall].
    destruct (IH _ Hs eq_refl) as [Hpre Hpost]. split; [|exact Hpost].
    intros q [<-|Hq]; [|apply Hpre; exact Hq].
    rewrite List.Forall_forall in Hall. apply Hall.
    apply in_or_app. right. left. reflexivity.
Qed.

(** ** The ray walks never run out of fuel *)

Lemma edgeDistance_valid d cur :
  isDirection d → isValidPosition cur = true →
  1 ≤ edgeDistance d cur ≤ 8 ∧
  edgeDistance d (mkPos (row cur + d.1) (col cur + d.2)) = edgeDistance d cur - 1.
Proof.
  intros (H1 & H2 & H0) Hv. apply valid_cases in Hv. unfold edgeDistance. simpl.
  destruct (Z.eqb_spec d.1 1), (Z.eqb_spec d.1 (-1)),
           (Z.eqb_spec d.2 1); lia.
Qed.

Lemma rayHit_fuel_gen b opp d :
  isDirection d →
  ∀ fuel cur n,
    (isValidPosition cur = true → edgeDistance d cur ≤ Z.of_nat fuel) →
    rayHit (fuel + n) b opp d cur = rayHit fuel b opp d cur.
Proof.
  intros Hd. induction fuel as [|f IH]; intros cur n Hfuel.
  - destruct (isValidPosition cur) eqn:Hv.
    + destruct (edgeDistance_valid d cur Hd Hv) as [? _].
      specialize (Hfuel eq_refl). lia.
    + destruct n; simpl; [reflexivity|]. rewrite Hv. reflexivity.
  - simpl. destruct (isValidPosition cur) eqn:Hv; [|reflexivity].
    destruct (getCell b cur) as [[q|]|]; simpl; try reflexivity.
    apply IH. intros Hv'.
    destruct (edgeDistance_valid d cur Hd Hv) as [_ ->].
    specialize (Hfuel eq_refl). lia.
Qed.

(** Eight iterations are enough for any ray, wherever it starts: a larger
    budget gives the same answer. *)
Lemma rayHit_fuel b opp d cur n :
  isDirection d → rayHit (8 + n) b opp d cur = rayHit 8 b opp d cur.
Proof.
  intros Hd. apply rayHit_fuel_gen; [exact Hd|].
  intros Hv. destruct (edgeDistance_valid d cur Hd Hv). simpl. lia.
Qed.

Lemma slide_fuel_gen b piece d :
  isDirection d →
  ∀ fuel cur n,
    (isValidPosition cur = true → edgeDistance d cur ≤ Z.of_nat fuel) →
    slide (fuel + n) b piece d cur = slide fuel b piece d cur.
Proof.
  intros Hd. induction fuel as [|f IH]; intros cur n Hfuel.
  - destruct (isValidPosition cur) eqn:Hv.
    + destruct (edgeDistance_valid d cur Hd Hv) as [? _].
      specialize (Hfuel eq_refl). lia.
    + destruct n; simpl; [reflexivity|]. rewrite Hv. reflexivity.
  - simpl. destruct (isValidPosition cur) eqn:Hv; [|reflexivity].
    destruct (getCell b cur) as [[q|]|]; simpl; try reflexivity.
    rewrite IH; [reflexivity|]. intros Hv'.
    destruct (edgeDistance_valid d cur Hd Hv) as [_ ->].
    specialize (Hfuel eq_refl). lia.
Qed.

Lemma slide_fuel b piece d cur n :
  isDirection d → slide (8 + n) b piece d cur = slide 8 b piece d cur.
Proof.
  intros Hd. apply slide_fuel_gen; [exact Hd|].
  intros Hv. destruct (edgeDistance_valid d cur Hd Hv). simpl. lia.
Qed.

Lemma slidingDirs_directions d : In d slidingDirs → isDirection d.
Proof.
  intros H. simpl in H.
  repeat (destruct H as [<-|H]; [unfold isDirection; simpl; lia|]). destruct H.
Qed.

(** The walks of the detector and of the rook, bishop and queen generators
    run along these directions: their budget of eight is never the reason
    they stop. *)
Lemma walks_fuel b opp piece d cur n :
  In d slidingDirs →
  rayHit (8 + n) b opp d cur = rayHit 8 b opp d cur ∧
  slide (8 + n) b piece d cur = slide 8 b piece d cur.
Proof.
  intros Hd. apply slidingDirs_directions in Hd.
  split; [apply rayHit_fuel|apply slide_fuel]; exact Hd.
Qed.

(** ** The attack detector *)

Lemma pawnHit_plain b opp gs dir : pawnHit b opp gs dir = pawnHitPlain b opp dir.
Proof.
  unfold pawnHit, pawnHitPlain.
  destruct (isValidPosition dir); [|reflexivity].
  destruct (getCell b dir) as [x|]; simpl; [|reflexivity].
  destruct (isPieceOf pawn opp x); [|reflexivity].
  destruct (enPassantTarget gs) as [ep|]; [|reflexivity].
  destruct ((row dir =? row ep) && (col dir =? col ep)); reflexivity.
Qed.

Lemma attack_plain b position c gs :
  isPositionUnderAttack b position c gs = isPositionUnderAttackPlain b position c.
Proof.
  unfold isPositionUnderAttack, isPositionUnderAttackPlain.
  rewrite (anyM_ext (pawnHit b (opponent c) gs) (pawnHitPlain b (opponent c)));
    [reflexivity|]. intros; apply pawnHit_plain.
Qed.

Lemma attack_any_state b position c gs gs' :
  isPositionUnderAttack b position c gs = isPositionUnderAttack b position c gs'.
Proof. rewrite !attack_plain. reflexivity. Qed.

(** C6. The en-passant special case inside the pawn loop of the attack
    detector is redundant: for every board, square, colour and game state,
    [isPositionUnderAttack] agrees (result and exception alike) with the
    variant that has the comparison removed. *)
Theorem C6_en_passant_branch_redundant :
  ∀ (b : Board) (position : Position) (c : Color) (gs : GameState),
    isPositionUnderAttack b position c gs = isPositionUnderAttackPlain b position c.
Proof.
  intros b position c gs.
  unfold isPositionUnderAttack, isPositionUnderAttackPlain.
  assert (Hpawn : anyM (pawnHit b (opponent c) gs) (pawnDirections position c)
                  = anyM (pawnHitPlain b (opponent c)) (pawnDirections position c)).
  { apply anyM_ext. intros dir _. unfold pawnHit, pawnHitPlain.
    destruct (isValidPosition dir); [|reflexivity].
    destruct (getCell b dir) as [x|]; simpl; [|reflexivity].
    destruct (isPieceOf pawn (opponent c) x); [|reflexivity].
    destruct (enPassantTarget gs) as [ep|]; [|reflexivity].
    destruct ((row dir =? row ep) && (col dir =? col ep)); reflexivity. }
  rewrite Hpawn. reflexivity.
Qed.

Lemma pawnHit_defined b opp gs dir :
  eightRows b → ∃ r, pawnHit b opp gs dir = Some r.
Proof.
  intros Hb. rewrite pawnHit_plain. unfold pawnHitPlain.
  destruct (isValidPosition dir) eqn:Hv; [|eauto].
  destruct (getCell_valid b dir Hb Hv) as [x ->]. simpl. eauto.
Qed.

Lemma stepHit_defined t b opp sq :
  eightRows b → ∃ r, stepHit t b opp sq = Some r.
Proof.
  intros Hb. unfold stepHit.
  destruct (isValidPosition sq) eqn:Hv; [|eauto].
  destruct (getCell_valid b sq Hb Hv) as [x ->]. simpl. eauto.
Qed.

Lemma rayHit_defined fuel b opp d cur :
  eightRows b → ∃ r, rayHit fuel b opp d cur = Some r.
Proof.
  intros Hb. revert cur. induction fuel as [|f IH]; intros cur; simpl; [eauto|].
  destruct (isValidPosition cur) eqn:Hv; [|eauto].
  destruct (getCell_valid b cur Hb Hv) as [x ->]. simpl.
  destruct x; [eauto|apply IH].
Qed.

Lemma isPositionUnderAttack_defined b position c gs :
  eightRows b → ∃ r, isPositionUnderAttack b position c gs = Some r.
Proof.
  intros Hb. unfold isPositionUnderAttack.
  destruct (anyM_defined (pawnHit b (opponent c) gs) (pawnDirections position c))
    as [r1 ->]; [intros; apply pawnHit_defined; exact Hb|]. rewrite bind_Some.
  destruct r1; [eauto|].
  destruct (anyM_defined (stepHit knight b (opponent c)) (knightOffsets position))
    as [r2 ->]; [intros; apply stepHit_defined; exact Hb|]. rewrite bind_Some.
  destruct r2; [eauto|].
  destruct (anyM_defined (stepHit king b (opponent c)) (kingOffsets position))
    as [r3 ->]; [intros; apply stepHit_defined; exact Hb|]. rewrite bind_Some.
  destruct r3; [eauto|].
  apply anyM_defined. intros; apply rayHit_defined; exact Hb.
Qed.

Lemma rayCovers_own c d q : color q = c → rayCovers (opponent c) d q = false.
Proof. intros <-. unfold rayCovers. rewrite Color_eqb_opponent. reflexivity. Qed.

(** A ray that leaves row [r0] at once never reads that row again. *)
Lemma rayHit_rows_agree b b' opp d r0 :
  (∀ q, row q ≠ r0 → getCell b' q = getCell b q) →
  ∀ fuel cur,
    (d.1 = 1 ∧ r0 < row cur) ∨ (d.1 = -1 ∧ row cur < r0) →
    rayHit fuel b' opp d cur = rayHit fuel b opp d cur.
Proof.
  intros Hsame. induction fuel as [|f IH]; intros cur Hcur; simpl; [reflexivity|].
  destruct (isValidPosition cur); [|reflexivity].
  rewrite Hsame by lia. destruct (getCell b cur) as [[q|]|]; simpl; try reflexivity.
  apply IH. simpl. lia.
Qed.

Lemma sameForDefender_isPieceOf_king c x y :
  sameForDefender c x y → isPieceOf king c x = isPieceOf king c y.
Proof.
  intros [->|(p & q & -> & -> & _ & _ & Hp & Hq)]; [reflexivity|]. simpl.
  destruct (PieceType_eqb (type p) king) eqn:Ep;
    [apply PieceType_eqb_eq in Ep; contradiction|].
  destruct (PieceType_eqb (type q) king) eqn:Eq;
    [apply PieceType_eqb_eq in Eq; contradiction|].
  reflexivity.
Qed.

Lemma sameForDefender_isPieceOf_opp t c x y :
  sameForDefender c x y → isPieceOf t (opponent c) x = isPieceOf t (opponent c) y.
Proof.
  intros [->|(p & q & -> & -> & <- & Hq & _ & _)]; [reflexivity|]. simpl.
  rewrite Hq, Color_eqb_opponent, !andb_false_r. reflexivity.
Qed.

Lemma boardsAgreeFor_refl c b : boardsAgreeFor c b b.
Proof. intros q. destruct (getCell b q); [left; reflexivity|exact I]. Qed.

Lemma rayHit_agree c b1 b2 d :
  boardsAgreeFor c b1 b2 →
  ∀ fuel cur, rayHit fuel b1 (opponent c) d cur = rayHit fuel b2 (opponent c) d cur.
Proof.
  intros Hag. induction fuel as [|f IH]; intros cur; simpl; [reflexivity|].
  destruct (isValidPosition cur); [|reflexivity].
  specialize (Hag cur).
  destruct (getCell b1 cur) as [x|], (getCell b2 cur) as [y|]; try contradiction;
    [|reflexivity].
  destruct Hag as [->|(p & q & -> & -> & Hp & Hq & _ & _)]; simpl.
  - destruct y; [reflexivity|apply IH].
  - rewrite !rayCovers_own by assumption. reflexivity.
Qed.

Lemma attack_agree c b1 b2 position gs :
  boardsAgreeFor c b1 b2 →
  isPositionUnderAttack b1 position c gs = isPositionUnderAttack b2 position c gs.
Proof.
  intros Hag. rewrite !attack_plain. unfold isPositionUnderAttackPlain.
  assert (Hstep : ∀ t sq, stepHit t b1 (opponent c) sq = stepHit t b2 (opponent c) sq).
  { intros t sq. unfold stepHit. destruct (isValidPosition sq); [|reflexivity].
    specialize (Hag sq).
    destruct (getCell b1 sq) as [x|], (getCell b2 sq) as [y|]; try contradiction;
      [|reflexivity].
    simpl. rewrite (sameForDefender_isPieceOf_opp t c x y Hag). reflexivity. }
  rewrite (anyM_ext (pawnHitPlain b1 (opponent c)) (pawnHitPlain b2 (opponent c)))
    by (intros; apply (Hstep pawn)).
  rewrite (anyM_ext (stepHit knight b1 (opponent c)) (stepHit knight b2 (opponent c)))
    by (intros; apply Hstep).
  rewrite (anyM_ext (stepHit king b1 (opponent c)) (stepHit king b2 (opponent c)))
    by (intros; apply Hstep).
  rewrite (anyM_ext
             (λ d, rayHit 8 b1 (opponent c) d (mkPos (row position + d.1) (col position + d.2)))
             (λ d, rayHit 8 b2 (opponent c) d (mkPos (row position + d.1) (col position + d.2))))
    by (intros; apply rayHit_agree; exact Hag).
  reflexivity.
Qed.

(** ** Locating the king, check *)

Lemma kingTest_true b c q :
  (getCell b q ≫= λ x, Some (isPieceOf king c x)) = Some true ↔
  ∃ x, getCell b q = Some x ∧ isPieceOf king c x = true.
Proof.
  destruct (getCell b q) as [x|]; simpl.
  - split; [intros [= H]; eauto|]. intros (y & [= <-] & ->). reflexivity.
  - split; [discriminate|]. intros (y & H & _). discriminate.
Qed.

Lemma kingTest_false b c q :
  (getCell b q ≫= λ x, Some (isPieceOf king c x)) = Some false ↔
  ∃ x, getCell b q = Some x ∧ isPieceOf king c x = false.
Proof.
  destruct (getCell b q) as [x|]; simpl.
  - split; [intros [= H]; eauto|]. intros (y & [= <-] & ->). reflexivity.
  - split; [discriminate|]. intros (y & H & _). discriminate.
Qed.

Lemma findKing_first b c k : findKing b c = Some (Some k) ↔ firstKingAt b c k.
Proof.
  unfold findKing, firstKingAt. rewrite findM_Some. split.
  - intros (pre & post & Hl & Hk & Hpre). apply kingTest_true in Hk.
    destruct Hk as (x & Hx & Hking). exists pre, post, x.
    repeat split; try assumption. intros q Hq. apply kingTest_false. auto.
  - intros (pre & post & x & Hl & Hx & Hking & Hpre). exists pre, post.
    split; [exact Hl|]. split; [apply kingTest_true; eauto|].
    intros q Hq. apply kingTest_false. auto.
Qed.

Lemma findKing_none b c : noKing b c → findKing b c = Some None.
Proof.
  intros H. unfold findKing. apply findM_None.
  intros q Hq. apply kingTest_false. apply H. exact Hq.
Qed.

(** The king the scan finds is the king of least rank. *)
Lemma findKing_scan b c k :
  findKing b c = Some (Some k) ↔
  isValidPosition k = true ∧
  (∃ x, getCell b k = Some x ∧ isPieceOf king c x = true) ∧
  ∀ q, isValidPosition q = true → scanIndex q < scanIndex k →
       ∃ y, getCell b q = Some y ∧ isPieceOf king c y = false.
Proof.
  rewrite findKing_first. unfold firstKingAt. split.
  - intros (pre & post & x & Hl & Hx & Hking & Hpre).
    destruct (sorted_split _ _ _ _ _ allSquares_sorted Hl) as [Hlow Hhigh].
    split; [apply allSquares_In; rewrite Hl; apply in_or_app; right; left; reflexivity|].
    split; [eauto|]. intros q Hv Hlt.
    apply allSquares_In in Hv. rewrite Hl in Hv.
    apply in_app_or in Hv. destruct Hv as [Hq|[<-|Hq]]; [auto|lia|].
    specialize (Hhigh q Hq). simpl in Hhigh. lia.
  - intros (Hv & (x & Hx & Hking) & Hbefore).
    apply allSquares_In in Hv. destruct (in_split _ _ Hv) as (pre & post & Hl).
    destruct (sorted_split _ _ _ _ _ allSquares_sorted Hl) as [Hlow _].
    exists pre, post, x. repeat split; try assumption.
    intros q Hq. apply Hbefore; [|apply Hlow; exact Hq].
    apply allSquares_In. rewrite Hl. apply in_or_app. left. exact Hq.
Qed.

Lemma findKing_defined b c : eightRows b → ∃ r, findKing b c = Some r.
Proof.
  intros Hb. unfold findKing. apply findM_defined. intros q Hq.
  destruct (getCell_valid b q Hb (allSquares_valid q Hq)) as [x ->]. simpl. eauto.
Qed.

Lemma isKingInCheck_any_state b c gs gs' :
  isKingInCheck b c gs = isKingInCheck b c gs'.
Proof.
  unfold isKingInCheck. destruct (findKing b c) as [[k|]|]; simpl; auto.
  apply attack_any_state.
Qed.

Lemma isKingInCheck_defined b c gs : eightRows b → ∃ r, isKingInCheck b c gs = Some r.
Proof.
  intros Hb. unfold isKingInCheck. destruct (findKing_defined b c Hb) as [k ->]. simpl.
  destruct k; [apply isPositionUnderAttack_defined; exact Hb|eauto].
Qed.

Lemma isKingInCheck_agree c b1 b2 gs :
  boardsAgreeFor c b1 b2 → isKingInCheck b1 c gs = isKingInCheck b2 c gs.
Proof.
  intros Hag.
  assert (Hk : findKing b1 c = findKing b2 c).
  { unfold findKing. apply findM_ext. intros sq _. specialize (Hag sq).
    destruct (getCell b1 sq) as [x|], (getCell b2 sq) as [y|]; try contradiction;
      [|reflexivity].
    rewrite !bind_Some. rewrite (sameForDefender_isPieceOf_king c x y Hag). reflexivity. }
  unfold isKingInCheck. rewrite Hk.
  destruct (findKing b2 c) as [[k|]|].
  - rewrite !bind_Some. apply attack_agree. exact Hag.
  - rewrite !bind_Some. reflexivity.
  - cbn [mbind option_bind]. reflexivity.
Qed.

(** [isKingInCheck] is the attack detector applied to the square of the
    first king of the colour in the row-by-row scan; when no square holds a
    king of the colour it returns false, and so does [isCheckmate]. *)
Lemma check_follows_the_detector :
  ∀ (b : Board) (c : Color) (gs : GameState),
    (isKingInCheck b c gs = Some true ↔
     ∃ k, firstKingAt b c k ∧ isPositionUnderAttack b k c gs = Some true) ∧
    (noKing b c →
     isKingInCheck b c gs = Some false ∧ isCheckmate b c gs = Some false).
Proof.
  intros b c gs. split.
  - unfold isKingInCheck. split.
    + destruct (findKing b c) as [[k|]|] eqn:E; simpl; try discriminate.
      intros H. exists k. split; [apply findKing_first; exact E|exact H].
    + intros (k & Hk & Hatt). apply findKing_first in Hk. rewrite Hk. exact Hatt.
  - intros H. assert (Hc : isKingInCheck b c gs = Some false).
    { unfold isKingInCheck. rewrite (findKing_none _ _ H). reflexivity. }
    split; [exact Hc|]. unfold isCheckmate. rewrite Hc. reflexivity.
Qed.

(** C9. [isKingInCheck] does not tell whether the king's square is under
    attack by the opponent.  With the white king on (4,4) and a black pawn
    on (3,3) the pawn's legal moves include the capture of the king, yet
    white is reported as not in check; with the pawn on (5,3) instead, white
    is reported in check although no piece on the board has a move, legal or
    not, onto the king's square. *)
Theorem C9_check_misses_and_invents_pawn_attacks :
  (findKing exposedKingBoard white = Some (Some (mkPos 4 4)) ∧
   (∃ caps, getPossibleMoves exposedKingBoard (mkPos 3 3) quietState = Some caps ∧
            In (mkPos 4 4) caps) ∧
   isKingInCheck exposedKingBoard white quietState = Some false) ∧
  (findKing pawnBehindKingBoard white = Some (Some (mkPos 4 4)) ∧
   isKingInCheck pawnBehindKingBoard white quietState = Some true ∧
   ∀ (q : Position) (piece : ChessPiece) (ms : list Position),
     isValidPosition q = true →
     getCell pawnBehindKingBoard q = Some (Some piece) →
     pseudoMoves pawnBehindKingBoard q quietState piece = Some ms →
     ¬ In (mkPos 4 4) ms).
Proof.
  split.
  - split; [vm_compute; reflexivity|]. split; [|vm_compute; reflexivity].
    exists [mkPos 4 3; mkPos 4 4]. split; [vm_compute; reflexivity|].
    right; left; reflexivity.
  - split; [vm_compute; reflexivity|]. split; [vm_compute; reflexivity|].
    intros q piece ms Hv Hc Hms Hin. apply allSquares_In in Hv.
    vm_compute in Hv.
    repeat (destruct Hv as [<-|Hv];
            [vm_compute in Hc; try discriminate Hc;
             injection Hc as <-; vm_compute in Hms; injection Hms as <-;
             simpl in Hin;
             repeat (destruct Hin as [Hin|Hin]; [discriminate Hin|]);
             exact Hin|]).
    destruct Hv.
Qed.

(** ** The pseudo-legal generators *)

Lemma pawnCapture_In b piece gs sq ys y :
  pawnCapture b piece gs sq = Some ys → In y ys →
  y = sq ∧ isValidPosition sq = true.
Proof.
  unfold pawnCapture. destruct (isValidPosition sq); [|intros [= <-] []].
  destruct (getCell b sq) as [[t|]|]; simpl; [| |discriminate].
  - destruct (negb _); intros [= <-] Hin; [|destruct Hin].
    destruct Hin as [<-|[]]; auto.
  - destruct (enPassantTarget gs) as [ep|]; [|intros [= <-] []].
    destruct (_ && _); intros [= <-] Hin; [|destruct Hin].
    destruct Hin as [<-|[]]; auto.
Qed.

(** A destination offered to a pawn is one row ahead on the same or a
    neighbouring file, or two rows ahead on the same file from the starting
    row. *)
Lemma getPawnMoves_In b from gs piece ms to :
  getCell b from = Some (Some piece) →
  getPawnMoves b from gs = Some ms → In to ms →
  (row to = row from + pawnDirection (color piece) ∧
   Z.abs (col to - col from) ≤ 1 ∧ isValidPosition to = true)
  ∨ (to = mkPos (row from + 2 * pawnDirection (color piece)) (col from) ∧
     row from = pawnStartingRow (color piece) ∧
     isValidPosition (mkPos (row from + pawnDirection (color piece)) (col from)) = true).
Proof.
  intros Hp H Hin. unfold getPawnMoves in H. rewrite Hp in H.
  change (Some (Some piece) ≫= ?f) with (f (Some piece)) in H. cbv beta iota in H.
  destruct (negb (PieceType_eqb (type piece) pawn)); [injection H as <-; destruct Hin|].
  match type of H with context [(?m ≫= _)] =>
    destruct m as [fwd|] eqn:Ef end; simpl in H; [|discriminate].
  match type of H with context [(?m ≫= _)] =>
    destruct m as [caps|] eqn:Ec end; simpl in H; [|discriminate].
  injection H as <-. apply in_app_or in Hin. destruct Hin as [Hin|Hin].
  - destruct (isValidPosition (mkPos (row from + pawnDirection (color piece)) (col from)))
      eqn:Ev; [|injection Ef as <-; destruct Hin].
    match type of Ef with (?m ≫= _) = _ => destruct m as [[t|]|] end;
      simpl in Ef; [| |discriminate].
    { injection Ef as <-. destruct Hin. }
    destruct (Z.eqb_spec (row from) (pawnStartingRow (color piece))) as [Hs|Hs].
    + match type of Ef with (?m ≫= _) = _ => destruct m as [x2|] end;
        simpl in Ef; [|discriminate].
      injection Ef as <-. destruct Hin as [<-|Hin].
      * left. simpl. repeat split; [lia|exact Ev].
      * destruct x2; [destruct Hin|]. destruct Hin as [<-|[]].
        right. auto.
    + injection Ef as <-. destruct Hin as [<-|[]].
      left. simpl. repeat split; [lia|exact Ev].
  - destruct (collectM_In (pawnCapture b piece gs)
        [ mkPos (row from + pawnDirection (color piece)) (col from - 1);
          mkPos (row from + pawnDirection (color piece)) (col from + 1) ]
        caps to Ec Hin) as (sq & ys & Hsq & Hys & Hy).
    destruct (pawnCapture_In _ _ _ _ _ _ Hys Hy) as [-> Hv].
    left. simpl in Hsq. destruct Hsq as [<-|[<-|[]]]; simpl; repeat split; try lia; exact Hv.
Qed.

Lemma slide_defined fuel b piece d cur :
  eightRows b → ∃ ms, slide fuel b piece d cur = Some ms.
Proof.
  intros Hb. revert cur. induction fuel as [|f IH]; intros cur; simpl; [eauto|].
  destruct (isValidPosition cur) eqn:Hv; [|eauto].
  destruct (getCell_valid b cur Hb Hv) as [x ->]. rewrite bind_Some.
  destruct x as [t|].
  - destruct (negb _); eauto.
  - destruct (IH (mkPos (row cur + d.1) (col cur + d.2))) as [rest ->].
    rewrite bind_Some. eauto.
Qed.

Lemma slide_valid fuel b piece d cur ms m :
  slide fuel b piece d cur = Some ms → In m ms → isValidPosition m = true.
Proof.
  revert cur ms. induction fuel as [|f IH]; intros cur ms; simpl.
  - intros [= <-] [].
  - destruct (isValidPosition cur) eqn:Hv; [|intros [= <-] []].
    destruct (getCell b cur) as [[t|]|]; simpl; [| |discriminate].
    + destruct (negb _); intros [= <-] Hin; [|destruct Hin].
      destruct Hin as [<-|[]]. exact Hv.
    + destruct (slide f b piece d _) as [rest|] eqn:E; simpl; [|discriminate].
      intros [= <-] [<-|Hin]; [exact Hv|]. eapply IH; eassumption.
Qed.

Lemma slideMoves_defined dirs b position :
  eightRows b → 0 ≤ row position < 8 → ∃ ms, slideMoves dirs b position = Some ms.
Proof.
  intros Hb Hr. unfold slideMoves.
  destruct (getCell_defined b position) as [x ->]; [lia|unfold eightRows in Hb; lia|].
  rewrite bind_Some. destruct x as [piece|]; [|eauto].
  apply collectM_defined. intros d _. apply slide_defined. exact Hb.
Qed.

Lemma slideMoves_valid dirs b position ms m :
  slideMoves dirs b position = Some ms → In m ms → isValidPosition m = true.
Proof.
  unfold slideMoves. destruct (getCell b position) as [[piece|]|];
    [rewrite bind_Some | intros [= <-] [] | discriminate].
  intros H Hin. destruct (collectM_In _ _ _ _ H Hin) as (d & ys & _ & Hd & Hy).
  cbv beta in Hd. eapply slide_valid; eassumption.
Qed.

Lemma stepMove_defined b piece move :
  eightRows b → ∃ ms, stepMove b piece move = Some ms.
Proof.
  intros Hb. unfold stepMove. destruct (isValidPosition move) eqn:Hv; [|eauto].
  destruct (getCell_valid b move Hb Hv) as [x ->]. rewrite bind_Some. eauto.
Qed.

Lemma stepMove_In b piece move ms m :
  stepMove b piece move = Some ms → In m ms → m = move ∧ isValidPosition m = true.
Proof.
  unfold stepMove. destruct (isValidPosition move) eqn:Hv; [|intros [= <-] []].
  destruct (getCell b move) as [x|]; simpl; [|discriminate].
  destruct (emptyOrEnemy piece x); intros [= <-] Hin; [|destruct Hin].
  destruct Hin as [<-|[]]. auto.
Qed.

Lemma getKnightMoves_defined b position :
  eightRows b → 0 ≤ row position < 8 → ∃ ms, getKnightMoves b position = Some ms.
Proof.
  intros Hb Hr. unfold getKnightMoves.
  destruct (getCell_defined b position) as [x ->]; [lia|unfold eightRows in Hb; lia|].
  rewrite bind_Some. destruct x as [piece|]; [|eauto].
  apply collectM_defined. intros m _. apply stepMove_defined. exact Hb.
Qed.

Lemma getKnightMoves_valid b position ms m :
  getKnightMoves b position = Some ms → In m ms → isValidPosition m = true.
Proof.
  unfold getKnightMoves. destruct (getCell b position) as [[piece|]|];
    [rewrite bind_Some | intros [= <-] [] | discriminate].
  intros H Hin. destruct (collectM_In _ _ _ _ H Hin) as (d & ys & _ & Hd & Hy).
  eapply stepMove_In; eassumption.
Qed.

Lemma pawnCapture_defined b piece gs sq :
  eightRows b → ∃ ms, pawnCapture b piece gs sq = Some ms.
Proof.
  intros Hb. unfold pawnCapture. destruct (isValidPosition sq) eqn:Hv; [|eauto].
  destruct (getCell_valid b sq Hb Hv) as [x ->]. rewrite bind_Some.
  destruct x; [eauto|]. destruct (enPassantTarget gs); eauto.
Qed.

Lemma getPawnMoves_defined b position gs :
  eightRows b → 0 ≤ row position < 8 → ∃ ms, getPawnMoves b position gs = Some ms.
Proof.
  intros Hb Hr. pose proof Hb as Hlen. unfold eightRows in Hlen. unfold getPawnMoves.
  destruct (getCell_defined b position) as [x ->]; [lia|lia|].
  rewrite bind_Some. destruct x as [piece|]; [|eauto].
  destruct (negb _); [eauto|].
  set (one := mkPos (row position + pawnDirection (color piece)) (col position)).
  assert (Hfwd : ∃ fwd,
    (if isValidPosition one then
       getCell b one ≫= λ x1, match x1 with
         | Some _ => Some []
         | None =>
             if row position =? pawnStartingRow (color piece) then
               getCell b (mkPos (row position + 2 * pawnDirection (color piece))
                                (col position))
               ≫= λ x2, Some (one :: match x2 with
                                     | None => [mkPos (row position
                                                 + 2 * pawnDirection (color piece))
                                                 (col position)]
                                     | Some _ => [] end)
             else Some [one]
         end
     else Some []) = Some fwd).
  { destruct (isValidPosition one) eqn:Hv; [|eauto].
    destruct (getCell_valid b one Hb Hv) as [x1 ->]. rewrite bind_Some.
    destruct x1; [eauto|].
    destruct (Z.eqb_spec (row position) (pawnStartingRow (color piece))) as [Hs|]; [|eauto].
    destruct (getCell_defined b (mkPos (row position + 2 * pawnDirection (color piece))
                                     (col position))) as [x2 ->].
    - simpl. destruct (color piece); simpl in *; lia.
    - simpl. destruct (color piece); simpl in *; lia.
    - rewrite bind_Some. eauto. }
  destruct Hfwd as [fwd ->]. rewrite bind_Some.
  destruct (collectM_defined (pawnCapture b piece gs)
              [mkPos (row position + pawnDirection (color piece)) (col position - 1);
               mkPos (row position + pawnDirection (color piece)) (col position + 1)])
    as [caps ->]; [intros; apply pawnCapture_defined; exact Hb|].
  rewrite bind_Some. eauto.
Qed.

Lemma pathClear_defined b path :
  (∀ p, In p path → ∃ x, getCell b p = Some x) → ∃ r, pathClear b path = Some r.
Proof.
  induction path as [|p path IH]; simpl; intros H; [eauto|].
  destruct (H p) as [x ->]; [auto|]. rewrite bind_Some.
  destruct x; [eauto|]. apply IH. intros q Hq. apply H. auto.
Qed.

Lemma kingNotInCheck_defined b c gs passed :
  eightRows b → ∃ r, kingNotInCheck b c gs passed = Some r.
Proof.
  intros Hb. unfold kingNotInCheck.
  destruct (isKingInCheck_defined b c gs Hb) as [chk ->]. rewrite bind_Some.
  destruct chk; [eauto|].
  destruct (isPositionUnderAttack_defined b passed c gs Hb) as [a ->].
  rewrite bind_Some. eauto.
Qed.

Lemma castleSide_defined b position piece gs rookCol path passed dest :
  eightRows b → 0 ≤ row position < 8 →
  (∀ p, In p path → row p = row position) →
  ∃ ms, castleSide b position piece gs rookCol path passed dest = Some ms.
Proof.
  intros Hb Hr Hpath. pose proof Hb as Hlen. unfold eightRows in Hlen.
  unfold castleSide.
  destruct (getCell_defined b (mkPos (row position) rookCol)) as [rk ->];
    [simpl; lia|simpl; lia|].
  rewrite bind_Some. destruct (isCastlingRook piece rk); [|eauto].
  destruct (pathClear_defined b path) as [clr ->].
  { intros p Hp. apply getCell_defined; rewrite (Hpath p Hp); lia. }
  rewrite bind_Some.
  destruct (kingNotInCheck_defined b (color piece) gs passed Hb) as [safe ->].
  rewrite bind_Some. eauto.
Qed.

Lemma castleSide_In b position piece gs rookCol path passed dest ms m :
  castleSide b position piece gs rookCol path passed dest = Some ms →
  In m ms → m = dest.
Proof.
  unfold castleSide. destruct (getCell b _) as [rk|]; simpl; [|discriminate].
  destruct (isCastlingRook piece rk); [|intros [= <-] []].
  destruct (pathClear b path) as [clr|]; simpl; [|discriminate].
  destruct (kingNotInCheck b (color piece) gs passed) as [safe|]; simpl; [|discriminate].
  destruct (clr && safe); intros [= <-] Hin; [|destruct Hin].
  destruct Hin as [<-|[]]. reflexivity.
Qed.

Lemma getKingMoves_defined b position gs :
  eightRows b → 0 ≤ row position < 8 → ∃ ms, getKingMoves b position gs = Some ms.
Proof.
  intros Hb Hr. pose proof Hb as Hlen. unfold eightRows in Hlen. unfold getKingMoves.
  destruct (getCell_defined b position) as [x ->]; [lia|lia|].
  rewrite bind_Some. destruct x as [piece|]; [|eauto].
  destruct (negb _); [eauto|].
  destruct (collectM_defined (stepMove b piece) (kingOffsets position)) as [steps ->];
    [intros; apply stepMove_defined; exact Hb|].
  rewrite bind_Some. destruct (notMoved piece); [|eauto].
  assert (Hk : ∃ ks, (if canCastleKingside (color piece) gs
     then castleSide b position piece gs 7
            [mkPos (row position) (col position + 1); mkPos (row position) (col position + 2)]
            (mkPos (row position) (col position + 1))
            (mkPos (row position) (col position + 2))
     else Some []) = Some ks).
  { destruct (canCastleKingside _ _); [|eauto].
    apply castleSide_defined; [exact Hb|exact Hr|].
    intros p [<-|[<-|[]]]; reflexivity. }
  destruct Hk as [ks ->]. rewrite bind_Some.
  assert (Hq : ∃ qs, (if canCastleQueenside (color piece) gs
     then castleSide b position piece gs 0
            [mkPos (row position) (col position - 1); mkPos (row position) (col position - 2);
             mkPos (row position) (col position - 3)]
            (mkPos (row position) (col position - 1))
            (mkPos (row position) (col position - 2))
     else Some []) = Some qs).
  { destruct (canCastleQueenside _ _); [|eauto].
    apply castleSide_defined; [exact Hb|exact Hr|].
    intros p [<-|[<-|[<-|[]]]]; reflexivity. }
  destruct Hq as [qs ->]. rewrite bind_Some. eauto.
Qed.

(** A destination offered to a king is a neighbouring square of the board or
    one of the two castling squares of its row. *)
Lemma getKingMoves_In b position gs piece ms m :
  getCell b position = Some (Some piece) →
  getKingMoves b position gs = Some ms → In m ms →
  (In m (kingOffsets position) ∧ isValidPosition m = true)
  ∨ m = mkPos (row position) (col position + 2)
  ∨ m = mkPos (row position) (col position - 2).
Proof.
  intros Hp H Hin. unfold getKingMoves in H. rewrite Hp, bind_Some in H.
  destruct (negb _); [injection H as <-; destruct Hin|].
  destruct (collectM (stepMove b piece) (kingOffsets position)) as [steps|] eqn:Es;
    [|discriminate].
  rewrite bind_Some in H.
  assert (Hsteps : In m steps → In m (kingOffsets position) ∧ isValidPosition m = true).
  { intros Hm. destruct (collectM_In _ _ _ _ Es Hm) as (sq & ys & Hsq & Hys & Hy).
    destruct (stepMove_In _ _ _ _ _ Hys Hy) as [-> Hv]. auto. }
  destruct (notMoved piece); [|injection H as <-; left; auto].
  match type of H with (?m ≫= _) = _ => destruct m as [ks|] eqn:Ek end; [|discriminate].
  rewrite bind_Some in H.
  match type of H with (?m ≫= _) = _ => destruct m as [qs|] eqn:Eq end; [|discriminate].
  rewrite bind_Some in H. injection H as <-.
  apply in_app_or in Hin. destruct Hin as [Hin|Hin]; [left; auto|].
  apply in_app_or in Hin. destruct Hin as [Hin|Hin].
  - destruct (canCastleKingside _ _); [|injection Ek as <-; destruct Hin].
    right; left. eapply castleSide_In; eassumption.
  - destruct (canCastleQueenside _ _); [|injection Eq as <-; destruct Hin].
    right; right. eapply castleSide_In; eassumption.
Qed.

(** Rows reached by the candidates of every generator. *)
Lemma pseudoMoves_rows b position gs piece ms m :
  getCell b position = Some (Some piece) → 0 ≤ row position < 8 →
  pseudoMoves b position gs piece = Some ms → In m ms →
  0 ≤ row m < 8 ∧
  (type piece = pawn → 0 ≤ row m - pawnDirection (color piece) < 8).
Proof.
  intros Hp Hr H Hin. unfold pseudoMoves, getQueenMoves, getRookMoves, getBishopMoves in H.
  assert (Hvalid : isValidPosition m = true → 0 ≤ row m < 8)
    by (intros Hv; apply valid_cases in Hv; lia).
  destruct (type piece) eqn:Et.
  - destruct (getPawnMoves_In _ _ _ _ _ _ Hp H Hin) as [(Hrow & _ & Hv)|(-> & Hs & Hv)].
    + split; [auto|]. intros _. lia.
    + apply valid_cases in Hv. simpl in *.
      split; [destruct (color piece); simpl in *; lia|]. intros _. lia.
  - split; [|discriminate]. apply Hvalid. eapply slideMoves_valid; eassumption.
  - split; [|discriminate]. apply Hvalid. eapply getKnightMoves_valid; eassumption.
  - split; [|discriminate]. apply Hvalid. eapply slideMoves_valid; eassumption.
  - split; [|discriminate]. apply Hvalid.
    destruct (slideMoves straightDirs b position) as [rs|] eqn:Er; [|discriminate].
    rewrite bind_Some in H.
    destruct (slideMoves diagonalDirs b position) as [bs|] eqn:Eb; [|discriminate].
    rewrite bind_Some in H. injection H as <-.
    apply in_app_or in Hin.
    destruct Hin as [Hin|Hin];
      [exact (slideMoves_valid _ _ _ _ _ Er Hin)|exact (slideMoves_valid _ _ _ _ _ Eb Hin)].
  - split; [|discriminate].
    destruct (getKingMoves_In _ _ _ _ _ _ Hp H Hin) as [[_ Hv]|[->| ->]];
      [auto|simpl; lia|simpl; lia].
Qed.

Lemma pseudoMoves_defined b position gs piece :
  eightRows b → 0 ≤ row position < 8 →
  ∃ ms, pseudoMoves b position gs piece = Some ms.
Proof.
  intros Hb Hr. unfold pseudoMoves. destruct (type piece).
  - apply getPawnMoves_defined; assumption.
  - apply slideMoves_defined; assumption.
  - apply getKnightMoves_defined; assumption.
  - apply slideMoves_defined; assumption.
  - unfold getQueenMoves.
    destruct (slideMoves_defined straightDirs b position Hb Hr) as [rs Hrs].
    destruct (slideMoves_defined diagonalDirs b position Hb Hr) as [bs Hbs].
    unfold getRookMoves, getBishopMoves. rewrite Hrs, bind_Some, Hbs, bind_Some. eauto.
  - apply getKingMoves_defined; assumption.
Qed.

(** ** The pawn loop of the detector against the pawn generator *)

(** On every board: a black pawn diagonally adjacent one row toward row 7
    makes the detector report a white-defended square as attacked, although
    the pawn generator never offers that square to the pawn. *)
Lemma wrong_side_pawn_reported b position gs q pw :
  In q [mkPos (row position + 1) (col position - 1);
        mkPos (row position + 1) (col position + 1)] →
  isValidPosition q = true →
  getCell b q = Some (Some pw) → type pw = pawn → color pw = black →
  isPositionUnderAttack b position white gs = Some true ∧
  ∀ ms, getPawnMoves b q gs = Some ms → ¬ In position ms.
Proof.
  intros Hq Hv Hc Ht Hcol. split.
  - assert (Hhit : pawnHit b black gs q = Some true).
    { rewrite pawnHit_plain. unfold pawnHitPlain. rewrite Hv, Hc. simpl.
      rewrite Ht, Hcol. reflexivity. }
    unfold isPositionUnderAttack. simpl opponent. simpl pawnDirections.
    destruct Hq as [<-|[<-|[]]].
    + simpl anyM. rewrite Hhit. reflexivity.
    + simpl anyM.
      assert (Hfirst : ∃ h, pawnHit b black gs
                 (mkPos (row position + 1) (col position - 1)) = Some h).
      { rewrite pawnHit_plain. unfold pawnHitPlain.
        destruct (isValidPosition (mkPos (row position + 1) (col position - 1)));
          [|eauto].
        destruct (getCell_Some_row _ _ _ Hc) as [H0 H1]. simpl in H0, H1.
        destruct (getCell_defined b (mkPos (row position + 1) (col position - 1)))
          as [x Hx]; [exact H0|exact H1|]. rewrite Hx. simpl. eauto. }
      destruct Hfirst as [h ->]. rewrite bind_Some.
      destruct h; [reflexivity|]. rewrite Hhit. reflexivity.
  - intros ms Hms Hin.
    destruct (getPawnMoves_In _ _ _ _ _ _ Hc Hms Hin) as [(Hr & _ & _)|(Heq & _ & _)].
    + rewrite Hcol in Hr. simpl in Hr.
      destruct Hq as [<-|[<-|[]]]; simpl in Hr; lia.
    + rewrite Hcol in Heq. apply (f_equal row) in Heq. simpl in Heq.
      destruct Hq as [<-|[<-|[]]]; simpl in Heq; lia.
Qed.

(** The position after 1.e4 d5 is reached from the start position by two
    moves the engine itself offers and executes. *)
Lemma afterE4D5_reached :
  ∃ ms1 r1 ms2,
    getPossibleMoves initialBoard (mkPos 6 4) startState = Some ms1 ∧
    In (mkPos 4 4) ms1 ∧
    movePiece initialBoard (mkPos 6 4) (mkPos 4 4) startState None = Some r1 ∧
    getPossibleMoves (newBoard r1) (mkPos 1 3) (newGameState r1) = Some ms2 ∧
    In (mkPos 3 3) ms2 ∧
    movePiece (newBoard r1) (mkPos 1 3) (mkPos 3 3) (newGameState r1) None
    = Some (mkResult afterE4D5 afterE4D5State None).
Proof.
  eexists _, _, _.
  split; [vm_compute; reflexivity|]. split; [right; left; reflexivity|].
  split; [vm_compute; reflexivity|]. split; [vm_compute; reflexivity|].
  split; [right; left; reflexivity|]. vm_compute. reflexivity.
Qed.

(** The inverted pawn side reaches the legal-move filter: the white king may
    step onto a square on which a black pawn captures. *)
Lemma king_steps_into_pawn_capture :
  ∃ ms r caps,
    getPossibleMoves kingWalkBoard (mkPos 5 4) quietState = Some ms ∧
    In (mkPos 4 4) ms ∧
    movePiece kingWalkBoard (mkPos 5 4) (mkPos 4 4) quietState None = Some r ∧
    isKingInCheck (newBoard r) white (newGameState r) = Some false ∧
    getPossibleMoves (newBoard r) (mkPos 3 3) (newGameState r) = Some caps ∧
    In (mkPos 4 4) caps.
Proof.
  eexists _, _, _.
  split; [vm_compute; reflexivity|]. split; [simpl; tauto|].
  split; [vm_compute; reflexivity|]. split; [vm_compute; reflexivity|].
  split; [vm_compute; reflexivity|]. simpl; tauto.
Qed.

(** C1. The detector looks for opposing pawns on the wrong side of the
    square.  After 1.e4 d5 the black pawn on d5, one row above e4 (toward
    row 0), may capture on e4 (the generator offers it), yet e4 is reported
    as not attacked; and a black pawn one row below a white pawn (toward row
    7), which cannot capture onto it, makes the detector report an attack. *)
Theorem C1_pawn_attack_side_inverted :
  getPossibleMoves afterE4D5 (mkPos 3 3) afterE4D5State
    = Some [mkPos 4 3; mkPos 4 4] ∧
  isPositionUnderAttack afterE4D5 (mkPos 4 4) white afterE4D5State = Some false ∧
  getPawnMoves pawnBehindBoard (mkPos 5 3) quietState = Some [mkPos 6 3] ∧
  isPositionUnderAttack pawnBehindBoard (mkPos 4 4) white quietState = Some true.
Proof.
  split; [|split; [|split]].
  - (* the d5 pawn may take on e4 *)
    vm_compute. reflexivity.
  - (* e4 is reported safe *)
    vm_compute. reflexivity.
  - (* the pawn on (5,3) only advances *)
    vm_compute. reflexivity.
  - (* yet (4,4) is reported attacked *)
    vm_compute. reflexivity.
Qed.

(** ** The executor: main path, captured piece *)

Lemma movePiece_empty b from to gs promo :
  getCell b from = Some None →
  movePiece b from to gs promo = Some (mkResult b gs None).
Proof. intros H. unfold movePiece. rewrite cloneBoard_id, H. reflexivity. Qed.

(** With a piece on the origin the executor runs its main path. *)
Lemma movePiece_occupied b from to gs promo piece :
  getCell b from = Some (Some piece) →
  movePiece b from to gs promo =
  (captured ← getCell b to;
   let gsA :=
     if PieceType_eqb (type piece) pawn || isOccupied captured
     then setHalfMoveClock gs 0
     else setHalfMoveClock gs (increment (halfMoveClock gs)) in
   let gsB :=
     if Color_eqb (color piece) black
     then setFullMoveNumber gsA (increment (fullMoveNumber gsA)) else gsA in
   '(nb1, gsC, piece1) ←
     (if PieceType_eqb (type piece) pawn
      then pawnStep b piece from to gs gsB promo
      else Some (b, setEnPassantTarget gsB None, piece));
   let moved := setHasMoved piece1 in
   '(nb2, gsD) ←
     (if PieceType_eqb (type piece1) king
      then kingStep nb1 piece1 moved from to gsC
      else Some (nb1, gsC));
   let gsE :=
     if PieceType_eqb (type piece1) rook
     then rookSquareForfeit (color piece1) from gsD else gsD in
   let gsF :=
     match captured with
     | Some cp => if PieceType_eqb (type cp) rook
                  then rookSquareForfeit (color cp) to gsE else gsE
     | None => gsE
     end in
   nb3 ← setCell nb2 to (Some moved);
   nb4 ← setCell nb3 from None;
   Some (mkResult nb4 gsF captured)).
Proof.
  intros H. unfold movePiece. rewrite cloneBoard_id, H. simpl.
  destruct (getCell b to) as [x|]; simpl; [|reflexivity].
  rewrite fmap_copyPiece. reflexivity.
Qed.

Lemma movePiece_captured b from to gs promo piece r :
  getCell b from = Some (Some piece) →
  movePiece b from to gs promo = Some r →
  getCell b to = Some (capturedPiece r).
Proof.
  intros Hp H. rewrite (movePiece_occupied _ _ _ _ _ _ Hp) in H.
  destruct (getCell b to) as [x|]; simpl in H; [|discriminate].
  repeat match type of H with
  | context [(?m ≫= _)] =>
      let E := fresh "E" in destruct m as [?|] eqn:E; simpl in H; [|discriminate]
  | context [let '(_, _) := ?p in _] => destruct p
  end.
  injection H as <-. reflexivity.
Qed.

(** ** The executor: castling rights only shrink *)

Lemma rightsWithin_refl g : rightsWithin g g.
Proof. unfold rightsWithin; auto. Qed.

Lemma rightsWithin_trans g1 g2 g3 :
  rightsWithin g1 g2 → rightsWithin g2 g3 → rightsWithin g1 g3.
Proof. unfold rightsWithin; intuition. Qed.

Lemma rightsWithin_clearKingside c g : rightsWithin (clearKingside c g) g.
Proof. destruct c; unfold rightsWithin; simpl; intuition discriminate. Qed.

Lemma rightsWithin_clearQueenside c g : rightsWithin (clearQueenside c g) g.
Proof. destruct c; unfold rightsWithin; simpl; intuition discriminate. Qed.

Lemma rightsWithin_rookSquareForfeit c sq g : rightsWithin (rookSquareForfeit c sq g) g.
Proof.
  unfold rookSquareForfeit.
  destruct (_ && _); [apply rightsWithin_clearQueenside|].
  destruct (_ && _); [apply rightsWithin_clearKingside|apply rightsWithin_refl].
Qed.

Lemma rightsWithin_setHalfMoveClock g v : rightsWithin (setHalfMoveClock g v) g.
Proof. unfold rightsWithin; simpl; auto. Qed.

Lemma rightsWithin_setFullMoveNumber g v : rightsWithin (setFullMoveNumber g v) g.
Proof. unfold rightsWithin; simpl; auto. Qed.

Lemma rightsWithin_setEnPassantTarget g v : rightsWithin (setEnPassantTarget g v) g.
Proof. unfold rightsWithin; simpl; auto. Qed.

Create HintDb rights.
#[local] Hint Resolve rightsWithin_refl rightsWithin_clearKingside
  rightsWithin_clearQueenside rightsWithin_rookSquareForfeit
  rightsWithin_setHalfMoveClock rightsWithin_setFullMoveNumber
  rightsWithin_setEnPassantTarget : rights.

Lemma pawnStep_rights nb piece from to gs0 gs promo nb1 gs1 piece1 :
  pawnStep nb piece from to gs0 gs promo = Some (nb1, gs1, piece1) →
  rightsWithin gs1 gs.
Proof.
  unfold pawnStep. intros H. bind_inv H. injection H as _ <- _.
  destruct (_ =? 2); auto with rights.
Qed.

Lemma kingStep_rights nb piece moved from to gs nb1 gs1 :
  kingStep nb piece moved from to gs = Some (nb1, gs1) →
  rightsWithin gs1 gs.
Proof.
  unfold kingStep. intros H.
  assert (rightsWithin (clearQueenside (color piece) (clearKingside (color piece) gs)) gs)
    by (eapply rightsWithin_trans; auto with rights).
  destruct (_ =? 2).
  - repeat bind_inv H. injection H as _ <-. assumption.
  - injection H as _ <-. assumption.
Qed.

(** C5. Castling rights only shrink under move execution: each of the four
    flags of the returned state is true only if it was true in the input
    state. *)
Theorem C5_castling_rights_monotone :
  ∀ (b : Board) (from to : Position) (gs : GameState) (promo : option PieceType)
    (r : MoveResult),
    movePiece b from to gs promo = Some r →
    (whiteCanCastleKingside (newGameState r) = true → whiteCanCastleKingside gs = true) ∧
    (whiteCanCastleQueenside (newGameState r) = true → whiteCanCastleQueenside gs = true) ∧
    (blackCanCastleKingside (newGameState r) = true → blackCanCastleKingside gs = true) ∧
    (blackCanCastleQueenside (newGameState r) = true → blackCanCastleQueenside gs = true).
Proof.
  intros b from to gs promo r H. change (rightsWithin (newGameState r) gs).
  unfold movePiece in H. bind_inv H.
  destruct o as [piece|]; [|injection H as <-; simpl; auto with rights].
  bind_inv H. 
  match type of H with context [(?m ≫= _)] => destruct m as [[[nb1 gsC] piece1]|] eqn:E1 end;
    simpl in H; [|discriminate].
  match type of H with context [(?m ≫= _)] => destruct m as [[nb2 gsD]|] eqn:E2 end;
    simpl in H; [|discriminate].
  repeat bind_inv H. injection H as <-. simpl.
  set (gsA := if _ || _ then _ else _) in *.
  set (gsB := if Color_eqb _ black then _ else _) in *.
  assert (HA : rightsWithin gsA gs) by (subst gsA; destruct (_ || _); auto with rights).
  assert (HB : rightsWithin gsB gs).
  { subst gsB. destruct (Color_eqb _ _); [|assumption].
    eapply rightsWithin_trans; [|exact HA]. auto with rights. }
  assert (HC : rightsWithin gsC gs).
  { destruct (PieceType_eqb (type piece) pawn).
    - eapply rightsWithin_trans; [eapply pawnStep_rights; exact E1|exact HB].
    - injection E1 as _ <- _. eapply rightsWithin_trans; [|exact HB]. auto with rights. }
  assert (HD : rightsWithin gsD gs).
  { destruct (PieceType_eqb (type piece1) king).
    - eapply rightsWithin_trans; [eapply kingStep_rights; exact E2|exact HC].
    - injection E2 as _ <-. exact HC. }
  assert (HE : rightsWithin (if PieceType_eqb (type piece1) rook
        then rookSquareForfeit (color piece1) from gsD else gsD) gs).
  { destruct (PieceType_eqb (type piece1) rook); [|exact HD].
    eapply rightsWithin_trans; [|exact HD]. auto with rights. }
  destruct (copyPiece <$> o) as [cp|]; [|exact HE].
  destruct (PieceType_eqb (type cp) rook); [|exact HE].
  eapply rightsWithin_trans; [|exact HE]. auto with rights.
Qed.

Lemma C5_castling_rights_monotone_witness :
  ∃ r, movePiece castleBoard (mkPos 7 4) (mkPos 7 6) startState None = Some r ∧
       (whiteCanCastleKingside (newGameState r) = true →
        whiteCanCastleKingside startState = true) ∧
       (whiteCanCastleQueenside (newGameState r) = true →
        whiteCanCastleQueenside startState = true) ∧
       (blackCanCastleKingside (newGameState r) = true →
        blackCanCastleKingside startState = true) ∧
       (blackCanCastleQueenside (newGameState r) = true →
        blackCanCastleQueenside startState = true).
Proof.
  eexists. split; [vm_compute; reflexivity|].
  apply (C5_castling_rights_monotone castleBoard (mkPos 7 4) (mkPos 7 6) startState None).
  vm_compute; reflexivity.
Defined.

(** ** The executor: the en-passant target *)

Lemma enPassantTarget_clearKingside c g :
  enPassantTarget (clearKingside c g) = enPassantTarget g.
Proof. destruct c; reflexivity. Qed.

Lemma enPassantTarget_clearQueenside c g :
  enPassantTarget (clearQueenside c g) = enPassantTarget g.
Proof. destruct c; reflexivity. Qed.

Lemma enPassantTarget_rookSquareForfeit c sq g :
  enPassantTarget (rookSquareForfeit c sq g) = enPassantTarget g.
Proof.
  unfold rookSquareForfeit.
  destruct (_ && _); [apply enPassantTarget_clearQueenside|].
  destruct (_ && _); [apply enPassantTarget_clearKingside|reflexivity].
Qed.

Lemma kingStep_enPassant nb piece moved from to gs nb1 gs1 :
  kingStep nb piece moved from to gs = Some (nb1, gs1) →
  enPassantTarget gs1 = enPassantTarget gs.
Proof.
  unfold kingStep. intros H.
  assert (enPassantTarget (clearQueenside (color piece) (clearKingside (color piece) gs))
          = enPassantTarget gs)
    by (rewrite enPassantTarget_clearQueenside; apply enPassantTarget_clearKingside).
  destruct (_ =? 2).
  - repeat match type of H with
    | context [(?m ≫= _)] =>
        let E := fresh "E" in destruct m as [?|] eqn:E; simpl in H; [|discriminate]
    end. injection H as _ <-. assumption.
  - injection H as _ <-. assumption.
Qed.

Lemma pawnStep_enPassant nb piece from to gs0 gs promo nb1 gs1 piece1 :
  pawnStep nb piece from to gs0 gs promo = Some (nb1, gs1, piece1) →
  enPassantTarget gs1 =
  if Z.abs (row from - row to) =? 2
  then Some (squarePassedOver (color piece) from) else None.
Proof.
  unfold pawnStep. intros H.
  match type of H with
  | context [(?m ≫= _)] => destruct m; simpl in H; [|discriminate]
  end.
  injection H as _ <- _. destruct (_ =? 2); simpl; [|reflexivity].
  unfold squarePassedOver. destruct (color piece); simpl; do 2 f_equal; lia.
Qed.

(** The en-passant target after a move is computed from the move alone. *)
Lemma movePiece_enPassant b from to gs promo piece r :
  getCell b from = Some (Some piece) →
  movePiece b from to gs promo = Some r →
  enPassantTarget (newGameState r) =
  if PieceType_eqb (type piece) pawn && (Z.abs (row from - row to) =? 2)
  then Some (squarePassedOver (color piece) from) else None.
Proof.
  intros Hp H. rewrite (movePiece_occupied _ _ _ _ _ _ Hp) in H.
  destruct (getCell b to) as [x|]; simpl in H; [|discriminate].
  match type of H with context [(?m ≫= _)] =>
    destruct m as [[[nb1 gsC] piece1]|] eqn:E1 end; simpl in H; [|discriminate].
  match type of H with context [(?m ≫= _)] =>
    destruct m as [[nb2 gsD]|] eqn:E2 end; simpl in H; [|discriminate].
  repeat match type of H with
  | context [(?m ≫= _)] =>
      let E := fresh "E" in destruct m as [?|] eqn:E; simpl in H; [|discriminate]
  end.
  injection H as <-. simpl.
  assert (HD : enPassantTarget gsD = enPassantTarget gsC).
  { destruct (PieceType_eqb (type piece1) king).
    - eapply kingStep_enPassant; exact E2.
    - injection E2 as _ <-. reflexivity. }
  assert (HE : enPassantTarget (if PieceType_eqb (type piece1) rook
      then rookSquareForfeit (color piece1) from gsD else gsD) = enPassantTarget gsC).
  { destruct (PieceType_eqb (type piece1) rook);
      [rewrite enPassantTarget_rookSquareForfeit|]; exact HD. }
  assert (HF : enPassantTarget (match x with
     | Some cp => if PieceType_eqb (type cp) rook
         then rookSquareForfeit (color cp) to
                (if PieceType_eqb (type piece1) rook
                 then rookSquareForfeit (color piece1) from gsD else gsD)
         else (if PieceType_eqb (type piece1) rook
                 then rookSquareForfeit (color piece1) from gsD else gsD)
     | None => (if PieceType_eqb (type piece1) rook
                 then rookSquareForfeit (color piece1) from gsD else gsD)
     end) = enPassantTarget gsC).
  { destruct x as [cp|]; [|exact HE].
    destruct (PieceType_eqb (type cp) rook);
      [rewrite enPassantTarget_rookSquareForfeit|]; exact HE. }
  rewrite HF. destruct (PieceType_eqb (type piece) pawn); simpl.
  - eapply pawnStep_enPassant; exact E1.
  - injection E1 as _ <- _. reflexivity.
Qed.

(** C4, as amended.  For a move executed with a piece on the origin, the new
    en-passant target is the square one row ahead of the origin on the
    origin's file exactly when the piece is a pawn and the rows of origin and
    destination differ by two, and null in every other case (other pawn
    moves, all moves of other pieces); it is computed from the move alone,
    the previous target playing no part.  For the destinations the pawn
    generator offers, a row distance of two is exactly the two-square
    advance, so the target is then the square passed over. *)
Theorem C4_en_passant_target_recomputed :
  ∀ (b : Board) (from to : Position) (gs : GameState) (promo : option PieceType)
    (piece : ChessPiece) (r : MoveResult),
    getCell b from = Some (Some piece) →
    movePiece b from to gs promo = Some r →
    (type piece = pawn → Z.abs (row from - row to) = 2 →
       enPassantTarget (newGameState r) = Some (squarePassedOver (color piece) from)) ∧
    (type piece = pawn → Z.abs (row from - row to) ≠ 2 →
       enPassantTarget (newGameState r) = None) ∧
    (type piece ≠ pawn → enPassantTarget (newGameState r) = None) ∧
    (∀ ms, type piece = pawn → getPawnMoves b from gs = Some ms → In to ms →
       (Z.abs (row from - row to) = 2 ↔ isTwoSquareAdvance (color piece) from to = true)).
Proof.
  intros b from to gs promo piece r Hp H.
  pose proof (movePiece_enPassant _ _ _ _ _ _ _ Hp H) as He.
  repeat split.
  - intros Ht Hd. rewrite He, Ht. simpl.
    destruct (Z.eqb_spec (Z.abs (row from - row to)) 2); [reflexivity|contradiction].
  - intros Ht Hd. rewrite He, Ht. simpl.
    destruct (Z.eqb_spec (Z.abs (row from - row to)) 2); [contradiction|reflexivity].
  - intros Ht. rewrite He.
    destruct (PieceType_eqb (type piece) pawn) eqn:E; [|reflexivity].
    apply PieceType_eqb_eq in E. contradiction.
  - intros Hd. unfold isTwoSquareAdvance.
    destruct (getPawnMoves_In _ _ _ _ _ _ Hp H1 H2) as [(Hr & Hc & _)|(-> & _ & _)].
    + destruct (color piece); simpl in *; lia.
    + simpl. rewrite !Z.eqb_refl. reflexivity.
  - unfold isTwoSquareAdvance. intros Hd.
    apply andb_true_iff in Hd. destruct Hd as [Hr Hc].
    apply Z.eqb_eq in Hr. destruct (color piece); simpl in *; lia.
Qed.

Lemma C4_en_passant_target_recomputed_witness :
  ∃ r, getCell initialBoard (mkPos 6 4) = Some (Some (mkPiece pawn white None)) ∧
       movePiece initialBoard (mkPos 6 4) (mkPos 4 4) startState None = Some r ∧
       enPassantTarget (newGameState r) = Some (mkPos 5 4).
Proof.
  eexists. split; [reflexivity|]. split; [vm_compute; reflexivity|].
  refine (proj1 (C4_en_passant_target_recomputed initialBoard (mkPos 6 4) (mkPos 4 4)
            startState None (mkPiece pawn white None) _ eq_refl eq_refl) eq_refl eq_refl).
Defined.

(** C4, as stated, fails: a white pawn alone on (4,4) moved back to (6,4)
    changes row by two without advancing; the claim asks for a null target
    (or, were the move read as an advance, for the square passed over,
    (5,4)), and the executor sets (3,4). *)
Lemma C4_counterexample :
  ∃ r, movePiece lonePawnBoard (mkPos 4 4) (mkPos 6 4) startState None = Some r ∧
       isTwoSquareAdvance white (mkPos 4 4) (mkPos 6 4) = false ∧
       enPassantTarget (newGameState r) = Some (mkPos 3 4) ∧
       enPassantTarget (newGameState r) ≠ None ∧
       enPassantTarget (newGameState r) ≠ Some (mkPos 5 4).
Proof.
  eexists. split; [vm_compute; reflexivity|].
  simpl. repeat split; discriminate.
Qed.

(** ** The executor: en-passant captures *)

Lemma captureRow_behind c to :
  mkPos (match c with white => row to + 1 | black => row to - 1 end) (col to)
  = squareBehind c to.
Proof. unfold squareBehind. destruct c; simpl; f_equal; lia. Qed.

(** C10. An en-passant capture reports no captured piece although the square
    directly behind the destination is emptied: for a pawn stepping
    diagonally onto the empty en-passant target, [movePiece] returns, its
    [capturedPiece] is null (it is the content of the destination square,
    which is empty) and the square behind the destination holds nothing in
    the returned board.  In general the reported piece is always the content
    of the destination square of the input board. *)
Theorem C10_en_passant_victim_not_reported :
  ∀ (b : Board) (gs : GameState) (piece : ChessPiece) (from to : Position)
    (promo : option PieceType),
    isEnPassantCapture b gs piece from to →
    (∃ r, movePiece b from to gs promo = Some r ∧
          capturedPiece r = None ∧
          getCell (newBoard r) (squareBehind (color piece) to) = Some None) ∧
    (∀ from' to' gs' promo' piece' r',
        getCell b from' = Some (Some piece') →
        movePiece b from' to' gs' promo' = Some r' →
        getCell b to' = Some (capturedPiece r')).
Proof.
  intros b gs piece from to promo (Hp & Ht & Hep & Hto & Hrow & Hcol).
  split; [|intros; eapply movePiece_captured; eassumption].
  rewrite (movePiece_occupied _ _ _ _ _ _ Hp), Hto. simpl.
  rewrite Ht. simpl.
  assert (Hhit : hitsEnPassant gs to = true).
  { unfold hitsEnPassant. rewrite Hep, !Z.eqb_refl. reflexivity. }
  unfold pawnStep. rewrite Hhit, captureRow_behind.
  destruct (getCell_Some_row _ _ _ Hp) as [Hf0 Hf1].
  destruct (getCell_Some_row _ _ _ Hto) as [Ht0 Ht1].
  assert (Hbrow : row (squareBehind (color piece) to) = row from)
    by (unfold squareBehind; simpl; lia).
  destruct (setCell_defined b (squareBehind (color piece) to) None) as [nb1 E1];
    [lia|lia|].
  rewrite E1. simpl.
  set (piece1 := if _ || _ then _ else _).
  pose proof (setCell_length _ _ _ _ E1) as L1.
  destruct (setCell_defined nb1 to (Some (setHasMoved piece1))) as [nb3 E3];
    [lia|lia|].
  pose proof (setCell_length _ _ _ _ E3) as L3.
  destruct (setCell_defined nb3 from None) as [nb4 E4]; [lia|lia|].
  assert (Hks : ∀ g, (if PieceType_eqb (type piece1) king
                 then kingStep nb1 piece1 (setHasMoved piece1) from to g
                 else Some (nb1, g)) = Some (nb1, if PieceType_eqb (type piece1) king
                   then clearQueenside (color piece1) (clearKingside (color piece1) g)
                   else g)).
  { intros g. destruct (PieceType_eqb (type piece1) king); [|reflexivity].
    unfold kingStep. destruct (Z.eqb_spec (Z.abs (col from - col to)) 2); [lia|].
    reflexivity. }
  rewrite Hks. simpl. rewrite E3. simpl. rewrite E4. simpl.
  eexists. split; [reflexivity|]. simpl. split; [reflexivity|].
  rewrite (getCell_setCell_other _ _ _ _ _ E4) by (right; unfold squareBehind; simpl; lia).
  rewrite (getCell_setCell_other _ _ _ _ _ E3)
    by (left; unfold squareBehind; simpl; destruct (color piece); simpl; lia).
  rewrite (getCell_setCell _ _ _ _ _ E1), !Z.eqb_refl. simpl.
  destruct (0 <=? col to) eqn:E0; [reflexivity|].
  (* a negative column reads as empty before and after *)
  apply Z.leb_gt in E0.
  destruct (getCell_defined b (squareBehind (color piece) to)) as [x Hx]; [lia|lia|].
  rewrite Hx. f_equal. unfold getCell in Hx.
  destruct (rowAt b _); simpl in Hx; [|discriminate]. injection Hx as <-.
  unfold colAt, squareBehind. simpl. destruct (Z.leb_spec 0 (col to)); [lia|reflexivity].
Qed.

Lemma C10_en_passant_victim_not_reported_witness :
  isEnPassantCapture enPassantBoard enPassantState (mkPiece pawn white (Some true))
    (mkPos 3 4) (mkPos 2 5) ∧
  getCell enPassantBoard (mkPos 3 5) = Some (Some (mkPiece pawn black (Some true))) ∧
  ∃ r, movePiece enPassantBoard (mkPos 3 4) (mkPos 2 5) enPassantState None = Some r ∧
       capturedPiece r = None ∧
       getCell (newBoard r) (mkPos 3 5) = Some None.
Proof.
  assert (H : isEnPassantCapture enPassantBoard enPassantState
                (mkPiece pawn white (Some true)) (mkPos 3 4) (mkPos 2 5))
    by (repeat split; reflexivity).
  split; [exact H|]. split; [reflexivity|].
  exact (proj1 (C10_en_passant_victim_not_reported enPassantBoard enPassantState
                  (mkPiece pawn white (Some true)) (mkPos 3 4) (mkPos 2 5) None H)).
Defined.

(** ** The executor returns; the promotion choice *)

Lemma pawnStep_defined nb piece from to gs0 gs promo :
  eightRows nb →
  (hitsEnPassant gs0 to = true → 0 ≤ row to - pawnDirection (color piece) < 8) →
  ∃ nb1 gs1 piece1,
    pawnStep nb piece from to gs0 gs promo = Some (nb1, gs1, piece1) ∧ eightRows nb1.
Proof.
  intros Hb Hep. unfold pawnStep. destruct (hitsEnPassant gs0 to).
  - rewrite captureRow_behind.
    destruct (setCell_eightRows_defined nb (squareBehind (color piece) to) None Hb)
      as (nb1 & -> & Hb1); [unfold squareBehind; simpl; auto|].
    rewrite bind_Some. eauto.
  - rewrite bind_Some. eauto.
Qed.

Lemma kingStep_defined nb piece moved from to gs :
  eightRows nb → 0 ≤ row from < 8 →
  ∃ nb1 gs1, kingStep nb piece moved from to gs = Some (nb1, gs1) ∧ eightRows nb1.
Proof.
  intros Hb Hr. unfold kingStep. destruct (_ =? 2); [|eauto].
  set (rookCol := if col from <? col to then 7 else 0).
  set (rookToCol := if col from <? col to then 5 else 3).
  destruct (getCell_defined nb (mkPos (row from) rookCol)) as [rk ->];
    [simpl; lia|unfold eightRows in Hb; simpl; lia|].
  rewrite bind_Some.
  destruct (setCell_eightRows_defined nb (mkPos (row from) rookToCol)
              (if col from =? rookCol then Some moved else rk) Hb)
    as (nb1 & -> & Hb1); [simpl; lia|].
  rewrite bind_Some.
  destruct (setCell_eightRows_defined nb1 (mkPos (row from) rookCol) None Hb1)
    as (nb2 & -> & Hb2); [simpl; lia|].
  rewrite bind_Some. eauto.
Qed.

Lemma movePiece_defined b from to gs promo piece :
  eightRows b → getCell b from = Some (Some piece) → 0 ≤ row to < 8 →
  (type piece = pawn → hitsEnPassant gs to = true →
   0 ≤ row to - pawnDirection (color piece) < 8) →
  ∃ r, movePiece b from to gs promo = Some r ∧ eightRows (newBoard r).
Proof.
  intros Hb Hp Hto Hep. pose proof Hb as Hlen. unfold eightRows in Hlen.
  destruct (getCell_Some_row _ _ _ Hp) as [Hf0 Hf1].
  rewrite (movePiece_occupied _ _ _ _ _ _ Hp).
  destruct (getCell_defined b to) as [captured ->]; [lia|lia|].
  rewrite bind_Some. cbv zeta.
  set (gsB := if Color_eqb _ black then _ else _).
  assert (H1 : ∃ nb1 gsC piece1,
    (if PieceType_eqb (type piece) pawn
     then pawnStep b piece from to gs gsB promo
     else Some (b, setEnPassantTarget gsB None, piece)) = Some (nb1, gsC, piece1)
    ∧ eightRows nb1).
  { destruct (PieceType_eqb (type piece) pawn) eqn:Et; [|eauto 6].
    apply PieceType_eqb_eq in Et. apply pawnStep_defined; auto. }
  destruct H1 as (nb1 & gsC & piece1 & -> & Hb1). rewrite bind_Some.
  assert (H2 : ∃ nb2 gsD,
    (if PieceType_eqb (type piece1) king
     then kingStep nb1 piece1 (setHasMoved piece1) from to gsC
     else Some (nb1, gsC)) = Some (nb2, gsD) ∧ eightRows nb2).
  { destruct (PieceType_eqb (type piece1) king); [|eauto].
    apply kingStep_defined; [exact Hb1|lia]. }
  destruct H2 as (nb2 & gsD & -> & Hb2). rewrite bind_Some.
  destruct (setCell_eightRows_defined nb2 to (Some (setHasMoved piece1)) Hb2)
    as (nb3 & -> & Hb3); [lia|].
  rewrite bind_Some.
  destruct (setCell_eightRows_defined nb3 from None Hb3) as (nb4 & -> & Hb4); [lia|].
  rewrite bind_Some. eexists. split; [reflexivity|exact Hb4].
Qed.

(** Executing a move with a promotion choice other than king returns
    whenever the default does, and the two boards differ at most in the kind
    of the promoted piece. *)
Lemma movePiece_promotion_agree b from to gs promo piece r :
  getCell b from = Some (Some piece) → promo ≠ Some king →
  movePiece b from to gs None = Some r →
  ∃ r', movePiece b from to gs promo = Some r' ∧
        boardsAgreeFor (color piece) (newBoard r) (newBoard r').
Proof.
  intros Hp Hpromo H.
  destruct (PieceType_eqb (type piece) pawn
            && ((Color_eqb (color piece) white && (row to =? 0))
                || (Color_eqb (color piece) black && (row to =? 7)))) eqn:Ecase.
  2:{ (* no promotion: the choice is not looked at *)
      exists r. split; [|apply boardsAgreeFor_refl].
      rewrite <- H. rewrite !(movePiece_occupied _ _ _ _ _ _ Hp).
      destruct (getCell b to) as [captured|]; [|reflexivity]. rewrite !bind_Some. cbv zeta.
      destruct (PieceType_eqb (type piece) pawn); [|reflexivity].
      simpl in Ecase. unfold pawnStep. rewrite Ecase. reflexivity. }
  apply andb_true_iff in Ecase. destruct Ecase as [Et Elast].
  rewrite (movePiece_occupied _ _ _ _ _ _ Hp) in H.
  rewrite (movePiece_occupied _ _ _ _ _ _ Hp).
  destruct (getCell b to) as [captured|]; [|discriminate]. rewrite bind_Some in *.
  cbv zeta in *. rewrite Et in *. unfold pawnStep in *. rewrite Elast in *.
  destruct (if hitsEnPassant gs to then _ else _) as [nb1|] eqn:E1; [|discriminate].
  rewrite !bind_Some in *. cbv beta iota zeta in *.
  set (q0 := setType piece (default queen None)) in *.
  set (q1 := setType piece (default queen promo)).
  assert (Hq0 : PieceType_eqb (type q0) king = false) by reflexivity.
  assert (Hq1 : PieceType_eqb (type q1) king = false).
  { subst q1. simpl. destruct promo as [[]|]; try reflexivity. contradiction Hpromo.
    reflexivity. }
  rewrite Hq0 in H. rewrite Hq1. rewrite !bind_Some in *. cbv beta iota in *.
  destruct (setCell nb1 to (Some (setHasMoved q0))) as [nb3|] eqn:E3; [|discriminate].
  rewrite bind_Some in H.
  destruct (setCell nb3 from None) as [nb4|] eqn:E4; [|discriminate].
  rewrite bind_Some in H. injection H as <-.
  destruct (setCell_both nb1 nb1 to _ (Some (setHasMoved q1)) nb3 eq_refl E3)
    as (nb3' & E3' & L3).
  destruct (setCell_both nb3 nb3' from _ None nb4 L3 E4) as (nb4' & E4' & L4).
  rewrite E3', bind_Some, E4', bind_Some. eexists. split; [reflexivity|].
  simpl. intros q.
  rewrite (getCell_setCell _ _ _ _ q E4), (getCell_setCell _ _ _ _ q E4'),
    (getCell_setCell _ _ _ _ q E3), (getCell_setCell _ _ _ _ q E3').
  destruct ((row q =? row from) && (col q =? col from) && (0 <=? col from));
    [left; reflexivity|].
  destruct ((row q =? row to) && (col q =? col to) && (0 <=? col to)).
  - right. exists (setHasMoved q0), (setHasMoved q1). simpl.
    repeat split; try reflexivity.
    + discriminate.
    + intros Hk. apply PieceType_eqb_eq in Hk. simpl in Hq1. congruence.
  - destruct (getCell nb1 q); [left; reflexivity|exact I].
Qed.

(** ** Legal moves and terminal detection *)

(** On a board of eight rows the legal-move query returns for every square
    of an existing row. *)
Lemma getPossibleMoves_defined b position gs :
  eightRows b → 0 ≤ row position < 8 →
  ∃ ms, getPossibleMoves b position gs = Some ms.
Proof.
  intros Hb Hr. pose proof Hb as Hlen. unfold eightRows in Hlen.
  unfold getPossibleMoves.
  destruct (getCell_defined b position) as [x Hx]; [lia|lia|].
  rewrite Hx, bind_Some. destruct x as [piece|]; [|eauto].
  destruct (pseudoMoves_defined b position gs piece Hb Hr) as [ms Hms].
  rewrite Hms, bind_Some. apply filterM_defined. intros m Hm.
  destruct (pseudoMoves_rows _ _ _ _ _ _ Hx Hr Hms Hm) as [Hrow Hpawn].
  unfold keepsKingSafe.
  destruct (movePiece_defined b position m gs None piece Hb Hx Hrow) as (r & -> & Hbr);
    [auto|].
  rewrite bind_Some, cleanBoard_id.
  destruct (isKingInCheck_defined (newBoard r) (color piece) gs Hbr) as [chk ->].
  rewrite bind_Some. eauto.
Qed.

(** C8. Degenerate inputs give empty results: on a square holding no piece
    [getPossibleMoves] returns the empty list, and [movePiece] from such an
    origin returns the input board, the input state and no captured piece,
    whatever the destination and promotion choice. *)
Theorem C8_empty_square_degrades :
  ∀ (b : Board) (position : Position) (gs : GameState),
    getCell b position = Some None →
    getPossibleMoves b position gs = Some [] ∧
    ∀ (to : Position) (promo : option PieceType),
      movePiece b position to gs promo = Some (mkResult b gs None).
Proof.
  intros b position gs H. split.
  - unfold getPossibleMoves. rewrite H. reflexivity.
  - intros to promo. apply movePiece_empty. exact H.
Qed.

Lemma C8_empty_square_degrades_witness :
  getCell initialBoard (mkPos 4 4) = Some None ∧
  getPossibleMoves initialBoard (mkPos 4 4) startState = Some [] ∧
  movePiece initialBoard (mkPos 4 4) (mkPos 3 4) startState None
  = Some (mkResult initialBoard startState None).
Proof.
  split; [reflexivity|].
  destruct (C8_empty_square_degrades initialBoard (mkPos 4 4) startState eq_refl)
    as [H1 H2].
  split; [exact H1|exact (H2 (mkPos 3 4) None)].
Defined.

(** Every move [getPossibleMoves] returns for a piece, executed by
    [movePiece] on the same board and state (with no promotion choice, as the
    filter does, or with any choice other than king), gives a position in
    which the attack detector reports no attack on the king of the moving
    piece's colour (whatever state accompanies the new board). *)
Lemma legal_moves_pass_the_detector :
  ∀ (b : Board) (position : Position) (gs : GameState) (piece : ChessPiece)
    (moves : list Position) (move : Position) (promo : option PieceType),
    getCell b position = Some (Some piece) →
    getPossibleMoves b position gs = Some moves →
    In move moves →
    promo ≠ Some king →
    ∃ r, movePiece b position move gs promo = Some r ∧
         ∀ gs', isKingInCheck (newBoard r) (color piece) gs' = Some false ∧
                ∀ k, findKing (newBoard r) (color piece) = Some (Some k) →
                     isPositionUnderAttack (newBoard r) k (color piece) gs' = Some false.
Proof.
  intros b position gs piece moves move promo Hp H Hin Hpromo.
  unfold getPossibleMoves in H. rewrite Hp in H. simpl in H.
  destruct (pseudoMoves b position gs piece) as [ms|]; simpl in H; [|discriminate].
  destruct (filterM_In _ _ _ _ H Hin) as [_ Hsafe].
  unfold keepsKingSafe in Hsafe.
  destruct (movePiece b position move gs None) as [r0|] eqn:Hr0; simpl in Hsafe;
    [|discriminate].
  rewrite cleanBoard_id in Hsafe.
  destruct (isKingInCheck (newBoard r0) (color piece) gs) as [chk|] eqn:E;
    simpl in Hsafe; [|discriminate].
  injection Hsafe as Hchk. apply negb_true_iff in Hchk. subst chk.
  destruct (movePiece_promotion_agree _ _ _ _ promo _ _ Hp Hpromo Hr0) as (r & Hr & Hag).
  exists r. split; [exact Hr|]. intros gs'.
  assert (E' : isKingInCheck (newBoard r) (color piece) gs' = Some false).
  { rewrite <- (isKingInCheck_agree _ _ _ gs' Hag).
    rewrite (isKingInCheck_any_state _ _ gs' gs). exact E. }
  split; [exact E'|]. intros k Hk.
  unfold isKingInCheck in E'. rewrite Hk in E'. exact E'.
Qed.

(** C2. A move [getPossibleMoves] returns may leave the mover's king under
    attack.  In the game 1.e4 d5 2.Ke2 d4, every move of which the query
    offers, it offers 3.Ke3, the step from (6,4) to (5,4); once [movePiece]
    has executed it the king stands on (5,4), and the query offers the black
    pawn on (4,3) the capture on (5,4), whose execution reports the white
    king as the captured piece. *)
Theorem C2_legal_move_exposes_king :
  ∃ r1 r2 r3 r4 r5 r6 : MoveResult,
    playOffered initialBoard startState (mkPos 6 4) (mkPos 4 4) = Some r1 ∧
    playOffered (newBoard r1) (newGameState r1) (mkPos 1 3) (mkPos 3 3) = Some r2 ∧
    playOffered (newBoard r2) (newGameState r2) (mkPos 7 4) (mkPos 6 4) = Some r3 ∧
    playOffered (newBoard r3) (newGameState r3) (mkPos 3 3) (mkPos 4 3) = Some r4 ∧
    playOffered (newBoard r4) (newGameState r4) (mkPos 6 4) (mkPos 5 4) = Some r5 ∧
    getCell (newBoard r5) (mkPos 5 4) = Some (Some (mkPiece king white (Some true))) ∧
    (∃ caps, getPossibleMoves (newBoard r5) (mkPos 4 3) (newGameState r5) = Some caps ∧
             In (mkPos 5 4) caps) ∧
    playOffered (newBoard r5) (newGameState r5) (mkPos 4 3) (mkPos 5 4) = Some r6 ∧
    capturedPiece r6 = Some (mkPiece king white (Some true)).
Proof.
  eexists _, _, _, _, _, _.
  split; [vm_compute; reflexivity|]. split; [vm_compute; reflexivity|].
  split; [vm_compute; reflexivity|]. split; [vm_compute; reflexivity|].
  split; [vm_compute; reflexivity|]. split; [vm_compute; reflexivity|].
  split.
  - eexists. split; [vm_compute; reflexivity|]. simpl. tauto.
  - split; [vm_compute; reflexivity|]. vm_compute. reflexivity.
Qed.

Lemma hasMoveAt_defined b c gs sq :
  eightRows b → isValidPosition sq = true → ∃ r, hasMoveAt b c gs sq = Some r.
Proof.
  intros Hb Hv. unfold hasMoveAt.
  destruct (getCell_valid b sq Hb Hv) as [x ->]. rewrite bind_Some.
  destruct x as [piece|]; [|eauto]. destruct (Color_eqb _ _); [|eauto].
  apply valid_cases in Hv.
  destruct (getPossibleMoves_defined b sq gs Hb) as [ms ->]; [lia|].
  rewrite bind_Some. eauto.
Qed.

Lemma isCheckmate_defined b c gs : eightRows b → ∃ r, isCheckmate b c gs = Some r.
Proof.
  intros Hb. unfold isCheckmate.
  destruct (isKingInCheck_defined b c gs Hb) as [chk ->]. rewrite bind_Some.
  destruct (negb chk); [eauto|].
  destruct (anyM_defined (hasMoveAt b c gs) allSquares) as [any ->].
  { intros sq Hsq. apply hasMoveAt_defined; [exact Hb|apply allSquares_valid; exact Hsq]. }
  rewrite bind_Some. eauto.
Qed.

Lemma isStalemate_defined b c gs : eightRows b → ∃ r, isStalemate b c gs = Some r.
Proof.
  intros Hb. unfold isStalemate.
  destruct (isKingInCheck_defined b c gs Hb) as [chk ->]. rewrite bind_Some.
  destruct chk; [eauto|].
  destruct (anyM_defined (hasMoveAt b c gs) allSquares) as [any ->].
  { intros sq Hsq. apply hasMoveAt_defined; [exact Hb|apply allSquares_valid; exact Hsq]. }
  rewrite bind_Some. eauto.
Qed.

(** ** Kingside castling through the legal-move filter *)

Lemma anyM_mono {A} (f g : A → option bool) l :
  (∀ x, In x l → ∃ r, g x = Some r) →
  (∀ x, In x l → f x = Some true → g x = Some true) →
  anyM f l = Some true → anyM g l = Some true.
Proof.
  induction l as [|x l IH]; simpl; intros Hdef Hmono H; [discriminate|].
  destruct (f x) as [[|]|] eqn:Hf; simpl in H; [| |discriminate].
  - rewrite (Hmono x) by auto. reflexivity.
  - destruct (Hdef x (or_introl eq_refl)) as [[|] ->]; simpl; [reflexivity|].
    apply IH; [intros y Hy; apply Hdef; auto|intros y Hy; apply Hmono; auto|exact H].
Qed.

Lemma emptyOrOwn_not_opp t c x :
  emptyOrOwn c x → isPieceOf t (opponent c) x = false.
Proof.
  intros [->|(p & -> & <-)]; [reflexivity|]. simpl.
  rewrite Color_eqb_opponent. apply andb_false_r.
Qed.

Lemma stepHit_emptyOrOwn t b c sq x :
  isValidPosition sq = true → getCell b sq = Some x → emptyOrOwn c x →
  stepHit t b (opponent c) sq = Some false.
Proof.
  intros Hv Hc Hx. unfold stepHit. rewrite Hv, Hc, bind_Some.
  rewrite (emptyOrOwn_not_opp t c x Hx). reflexivity.
Qed.

(** A ray along a row that meets a piece of the defender's colour after
    empty squares finds no attacker, whatever the fuel. *)
Lemma rayHit_row_blocked b c r s kb own :
  s = 1 ∨ s = -1 →
  getCell b (mkPos r kb) = Some (Some own) → color own = c →
  ∀ fuel cur,
    row cur = r → 0 ≤ s * (kb - col cur) →
    (∀ k, 0 < s * (kb - k) ≤ s * (kb - col cur) → getCell b (mkPos r k) = Some None) →
    rayHit fuel b (opponent c) (0, s) cur = Some false.
Proof.
  intros Hs Hown Hcol. induction fuel as [|f IH]; intros cur Hrow Hdist Hempty;
    simpl; [reflexivity|].
  destruct (isValidPosition cur); [|reflexivity].
  assert (Hcur : cur = mkPos r (col cur)) by (destruct cur; simpl in *; subst; reflexivity).
  destruct (Z.eq_dec (col cur) kb) as [Heq|Hne].
  - rewrite Hcur, Heq, Hown. simpl. rewrite (rayCovers_own c) by assumption. reflexivity.
  - rewrite Hcur at 1. rewrite Hempty by (destruct Hs; subst s; lia). simpl.
    apply IH; simpl; [lia|destruct Hs; subst s; lia|].
    intros k Hk. apply Hempty. destruct Hs; subst s; lia.
Qed.

Section KingsideCastling.

Variables (b : Board) (gs : GameState) (position : Position) (piece : ChessPiece).
Hypothesis Hrows : eightRows b.
Hypothesis Helig : kingsideEligible b gs position piece.

Lemma castle_square : 0 ≤ row position < 8 ∧ 0 ≤ col position < 8.
Proof. destruct Helig as (_ & _ & _ & Hv & _). apply valid_cases. exact Hv. Qed.

Lemma castle_rook :
  ∃ rk, getCell b (mkPos (row position) 7) = Some (Some rk) ∧
        type rk = rook ∧ color rk = color piece.
Proof.
  destruct Helig as (_ & _ & _ & _ & _ & _ & (rkc & Hrk & Hrook) & _).
  destruct rkc as [rk|]; [|discriminate Hrook]. simpl in Hrook.
  apply andb_true_iff in Hrook. destruct Hrook as [Hrook _].
  apply andb_true_iff in Hrook. destruct Hrook as [Hrt Hrc].
  apply PieceType_eqb_eq in Hrt. apply Color_eqb_eq in Hrc. eauto.
Qed.

(** The castling square is offered only when the king and the square it
    passes are not attacked; the king then stands on one of the files a-e. *)
Lemma castle_generated ms :
  getKingMoves b position gs = Some ms →
  In (mkPos (row position) (col position + 2)) ms →
  isKingInCheck b (color piece) gs = Some false ∧
  isPositionUnderAttack b (mkPos (row position) (col position + 1)) (color piece) gs
  = Some false ∧
  col position ≤ 4.
Proof.
  intros H Hin. destruct castle_square as [Hr Hc].
  destruct castle_rook as (rk0 & Hrk0 & Hrt & _).
  destruct Helig as (Hp & Hking & Hnm & Hv & Hfk & Hright & (rkc & Hrk & Hrook) & Hbetween).
  unfold getKingMoves in H. rewrite Hp, bind_Some, Hking in H.
  cbn [PieceType_eqb negb] in H.
  destruct (collectM (stepMove b piece) (kingOffsets position)) as [steps|] eqn:Es;
    [|discriminate].
  rewrite bind_Some, Hnm, Hright in H.
  match type of H with (?m ≫= _) = _ => destruct m as [ks|] eqn:Ek end; [|discriminate].
  rewrite bind_Some in H.
  match type of H with (?m ≫= _) = _ => destruct m as [qs|] eqn:Eq end; [|discriminate].
  rewrite bind_Some in H. injection H as <-.
  apply in_app_or in Hin. destruct Hin as [Hin|Hin].
  { destruct (collectM_In _ _ _ _ Es Hin) as (sq & ys & Hsq & Hys & Hy).
    destruct (stepMove_In _ _ _ _ _ Hys Hy) as [Heq _].
    simpl in Hsq.
    repeat (destruct Hsq as [Hsq|Hsq];
            [rewrite <- Hsq in Heq; apply (f_equal col) in Heq; simpl in Heq; lia|]).
    destruct Hsq. }
  apply in_app_or in Hin. destruct Hin as [Hin|Hin].
  - unfold castleSide in Ek. rewrite Hrk, bind_Some, Hrook in Ek.
    destruct (pathClear b _) as [clr|] eqn:Eclr; [|discriminate].
    rewrite bind_Some in Ek.
    destruct (kingNotInCheck b (color piece) gs _) as [safe|] eqn:Esafe; [|discriminate].
    rewrite bind_Some in Ek.
    destruct clr; [|injection Ek as <-; destruct Hin].
    destruct safe; [|injection Ek as <-; destruct Hin].
    (* the two squares of the path are empty, so neither is the rook's *)
    assert (Hcol : col position ≤ 4).
    { unfold pathClear in Eclr.
      destruct (getCell b (mkPos (row position) (col position + 1))) as [[x1|]|] eqn:E1;
        rewrite ?bind_Some in Eclr; try discriminate.
      destruct (getCell b (mkPos (row position) (col position + 2))) as [[x2|]|] eqn:E2;
        rewrite ?bind_Some in Eclr; try discriminate.
      destruct (Z.eq_dec (col position + 1) 7) as [E7|];
        [rewrite E7, Hrk0 in E1; discriminate|].
      destruct (Z.eq_dec (col position + 2) 7) as [E7|];
        [rewrite E7, Hrk0 in E2; discriminate|].
      destruct (Z.eq_dec (col position) 7) as [E7|]; [|lia].
      (* the rook's square holds the king itself *)
      assert (Hpos : position = mkPos (row position) 7)
        by (destruct position; simpl in *; subst; reflexivity).
      rewrite <- Hpos, Hp in Hrk0. injection Hrk0 as ->.
      rewrite Hking in Hrt. discriminate. }
    unfold kingNotInCheck in Esafe.
    destruct (isKingInCheck b (color piece) gs) as [[|]|]; rewrite ?bind_Some in Esafe;
      try discriminate.
    destruct (isPositionUnderAttack b _ (color piece) gs) as [[|]|];
      rewrite ?bind_Some in Esafe; try discriminate.
    auto.
  - destruct (canCastleQueenside (color piece) gs); [|injection Eq as <-; destruct Hin].
    apply (castleSide_In _ _ _ _ _ _ _ _ _ _ Eq) in Hin.
    apply (f_equal col) in Hin. simpl in Hin. lia.
Qed.

(** The board after the castling move, read square by square. *)
Lemma castle_result :
  col position ≤ 4 →
  ∃ rk r,
    getCell b (mkPos (row position) 7) = Some (Some rk) ∧
    type rk = rook ∧ color rk = color piece ∧
    movePiece b position (mkPos (row position) (col position + 2)) gs None = Some r ∧
    eightRows (newBoard r) ∧
    ∀ q, getCell (newBoard r) q =
         if (row q =? row position) && (col q =? col position) then Some None
         else if (row q =? row position) && (col q =? col position + 2)
         then Some (Some (setHasMoved piece))
         else if (row q =? row position) && (col q =? 7) then Some None
         else if (row q =? row position) && (col q =? 5) then Some (Some rk)
         else getCell b q.
Proof.
  intros Hc4. destruct castle_square as [Hr Hc].
  destruct castle_rook as (rk & Hrk & Hrt & Hrc).
  destruct Helig as (Hp & Hking & Hnm & Hv & Hfk & Hright & _ & Hbetween).
  exists rk.
  destruct (setCell_eightRows_defined b (mkPos (row position) 5) (Some rk) Hrows)
    as (nb1 & E1 & R1); [simpl; lia|].
  destruct (setCell_eightRows_defined nb1 (mkPos (row position) 7) None R1)
    as (nb2 & E2 & R2); [simpl; lia|].
  destruct (setCell_eightRows_defined nb2 (mkPos (row position) (col position + 2))
              (Some (setHasMoved piece)) R2) as (nb3 & E3 & R3); [simpl; lia|].
  destruct (setCell_eightRows_defined nb3 position None R3) as (nb4 & E4 & R4); [lia|].
  exists (mkResult nb4
            (clearQueenside (color piece) (clearKingside (color piece)
               (setEnPassantTarget
                  (if Color_eqb (color piece) black
                   then setFullMoveNumber (setHalfMoveClock gs (increment (halfMoveClock gs)))
                          (increment
                             (fullMoveNumber
                                (setHalfMoveClock gs (increment (halfMoveClock gs)))))
                   else setHalfMoveClock gs (increment (halfMoveClock gs))) None)))
            None).
  split; [exact Hrk|]. split; [exact Hrt|]. split; [exact Hrc|].
  split; [|split; [exact R4|]].
  - rewrite (movePiece_occupied _ _ _ _ _ _ Hp).
    rewrite (Hbetween (col position + 2)) by lia. rewrite bind_Some. cbv zeta.
    rewrite Hking. cbn [PieceType_eqb isOccupied orb].
    rewrite bind_Some. cbv beta iota. rewrite Hking. cbn [PieceType_eqb].
    unfold kingStep. cbn [col].
    replace (Z.abs (col position - (col position + 2)) =? 2) with true
      by (symmetry; apply Z.eqb_eq; lia).
    replace (col position <? col position + 2) with true
      by (symmetry; apply Z.ltb_lt; lia).
    cbv iota.
    replace (col position =? 7) with false by (symmetry; apply Z.eqb_neq; lia).
    cbv iota.
    rewrite Hrk, bind_Some, E1, bind_Some, E2, !bind_Some. cbv beta iota.
    rewrite E3, bind_Some, E4, bind_Some. reflexivity.
  - intros q. simpl newBoard.
    rewrite (getCell_setCell _ _ _ _ q E4), (getCell_setCell _ _ _ _ q E3),
      (getCell_setCell _ _ _ _ q E2), (getCell_setCell _ _ _ _ q E1).
    simpl.
    replace (0 <=? col position) with true by (symmetry; apply Z.leb_le; lia).
    replace (0 <=? col position + 2) with true by (symmetry; apply Z.leb_le; lia).
    rewrite !andb_true_r. reflexivity.
Qed.

(** Every square of the king's row from the king to the rook is empty or
    holds an own piece, before and after the move. *)
Lemma castle_row_own r k :
  col position ≤ 4 →
  movePiece b position (mkPos (row position) (col position + 2)) gs None = Some r →
  col position ≤ k ≤ 7 →
  (∃ x, getCell b (mkPos (row position) k) = Some x ∧ emptyOrOwn (color piece) x) ∧
  (∃ x, getCell (newBoard r) (mkPos (row position) k) = Some x
        ∧ emptyOrOwn (color piece) x).
Proof.
  intros Hc4 Hr Hk.
  destruct (castle_result Hc4) as (rk & r' & Hrk & Hrt & Hrc & Hr' & _ & Hread).
  rewrite Hr in Hr'. injection Hr' as <-.
  destruct Helig as (Hp & Hking & _ & _ & _ & _ & _ & Hbetween).
  assert (Hb : ∃ x, getCell b (mkPos (row position) k) = Some x
                    ∧ emptyOrOwn (color piece) x).
  { destruct (Z.eq_dec k (col position)) as [->|].
    - exists (Some piece). split; [|right; eauto].
      rewrite <- Hp. destruct position; reflexivity.
    - destruct (Z.eq_dec k 7) as [->|].
      + exists (Some rk). split; [exact Hrk|right; eauto].
      + exists None. split; [apply Hbetween; lia|left; reflexivity]. }
  split; [exact Hb|]. rewrite Hread. simpl. rewrite Z.eqb_refl. simpl.
  destruct (k =? col position); [eexists; split; [reflexivity|left; reflexivity]|].
  destruct (k =? col position + 2);
    [eexists; split; [reflexivity|right; eexists; split; reflexivity]|].
  destruct (k =? 7); [eexists; split; [reflexivity|left; reflexivity]|].
  destruct (k =? 5); [eexists; split; [reflexivity|right; eauto]|].
  exact Hb.
Qed.

(** After castling the scan finds the king on its landing square. *)
Lemma castle_findKing r :
  col position ≤ 4 →
  movePiece b position (mkPos (row position) (col position + 2)) gs None = Some r →
  findKing (newBoard r) (color piece)
  = Some (Some (mkPos (row position) (col position + 2))).
Proof.
  intros Hc4 Hr. destruct castle_square as [Hr0 Hc0].
  destruct (castle_result Hc4) as (rk & r' & Hrk & Hrt & Hrc & Hr' & _ & Hread).
  rewrite Hr in Hr'. injection Hr' as <-.
  destruct Helig as (Hp & Hking & _ & _ & Hfk & _ & _ & Hbetween).
  apply findKing_scan in Hfk. destruct Hfk as (_ & _ & Hbefore).
  apply findKing_scan. split; [apply valid_intro; simpl; lia|].
  split.
  - exists (Some (setHasMoved piece)). rewrite Hread. simpl.
    rewrite Z.eqb_refl. simpl.
    replace (col position + 2 =? col position) with false
      by (symmetry; apply Z.eqb_neq; lia).
    rewrite Z.eqb_refl. split; [reflexivity|].
    simpl. rewrite Hking. simpl. destruct (color piece); reflexivity.
  - intros q Hv Hlt. apply valid_cases in Hv. rewrite Hread.
    unfold scanIndex in Hlt. simpl in Hlt.
    assert (Hq : q = mkPos (row q) (col q)) by (destruct q; reflexivity).
    destruct (Z.eqb_spec (row q) (row position)) as [Hrow|Hrow]; simpl.
    + destruct (Z.eqb_spec (col q) (col position)); [eexists; split; reflexivity|].
      destruct (Z.eqb_spec (col q) (col position + 2)); [lia|].
      destruct (Z.eqb_spec (col q) 7); [lia|].
      destruct (Z.eqb_spec (col q) 5).
      * eexists. split; [reflexivity|]. simpl. rewrite Hrt. reflexivity.
      * destruct (Z.lt_ge_cases (col q) (col position)).
        -- apply Hbefore; [apply valid_intro; lia|unfold scanIndex; lia].
        -- exists None. split; [|reflexivity].
           rewrite Hq, Hrow. apply Hbetween. lia.
    + apply Hbefore; [apply valid_intro; lia|unfold scanIndex; lia].
Qed.

(** An attack on the landing square survives the castling move. *)
Lemma castle_attack_kept r gs' :
  col position ≤ 4 →
  movePiece b position (mkPos (row position) (col position + 2)) gs None = Some r →
  isPositionUnderAttack b (mkPos (row position) (col position + 2)) (color piece) gs'
  = Some true →
  isPositionUnderAttack (newBoard r) (mkPos (row position) (col position + 2))
    (color piece) gs' = Some true.
Proof.
  intros Hc4 Hr. destruct castle_square as [Hr0 Hc0].
  destruct (castle_result Hc4) as (rk & r' & Hrk & Hrt & Hrc & Hr' & Hrows' & Hread).
  rewrite Hr in Hr'. injection Hr' as <-.
  pose proof (castle_row_own r) as Hown.
  destruct Helig as (Hp & Hking & _ & _ & _ & _ & _ & Hbetween).
  assert (Hother : ∀ q, row q ≠ row position → getCell (newBoard r) q = getCell b q).
  { intros q Hq. rewrite Hread.
    destruct (Z.eqb_spec (row q) (row position)); [contradiction|reflexivity]. }
  assert (Hstep : ∀ t k, col position ≤ k ≤ 7 →
            stepHit t (newBoard r) (opponent (color piece)) (mkPos (row position) k)
            = stepHit t b (opponent (color piece)) (mkPos (row position) k)).
  { intros t k Hk. destruct (Hown k Hc4 Hr Hk) as [(x & Hx & Hxo) (y & Hy & Hyo)].
    assert (Hv : isValidPosition (mkPos (row position) k) = true)
      by (apply valid_intro; simpl; lia).
    rewrite (stepHit_emptyOrOwn t _ _ _ _ Hv Hy Hyo).
    rewrite (stepHit_emptyOrOwn t _ _ _ _ Hv Hx Hxo). reflexivity. }
  unfold isPositionUnderAttack.
  rewrite (anyM_ext (pawnHit (newBoard r) (opponent (color piece)) gs')
                    (pawnHit b (opponent (color piece)) gs')).
  2:{ intros q Hq. unfold pawnHit. rewrite Hother; [reflexivity|].
      destruct (color piece); simpl in Hq;
        destruct Hq as [<-|[<-|[]]]; simpl; lia. }
  rewrite (anyM_ext (stepHit knight (newBoard r) (opponent (color piece)))
                    (stepHit knight b (opponent (color piece)))).
  2:{ intros q Hq. unfold stepHit. rewrite Hother; [reflexivity|].
      simpl in Hq. repeat (destruct Hq as [<-|Hq]; [simpl; lia|]). destruct Hq. }
  rewrite (anyM_ext (stepHit king (newBoard r) (opponent (color piece)))
                    (stepHit king b (opponent (color piece)))).
  2:{ intros q Hq. simpl in Hq.
      destruct Hq as [<-|[<-|[<-|[<-|[<-|[<-|[<-|[<-|[]]]]]]]]];
        try (unfold stepHit; rewrite Hother; [reflexivity|simpl; lia]).
      - apply Hstep. lia.
      - destruct (Z.le_gt_cases (col position + 2 + 1) 7); [apply Hstep; lia|].
        unfold stepHit.
        replace (isValidPosition (mkPos (row position) (col position + 2 + 1)))
          with false; [reflexivity|].
        symmetry. unfold isValidPosition. simpl.
        replace (col position + 2 + 1 <? 8) with false
          by (symmetry; apply Z.ltb_ge; lia).
        apply andb_false_r. }
  do 3 (match goal with
        | |- (?m ≫= _) = Some true → _ =>
            destruct m as [[|]|];
            [intros _; reflexivity | rewrite !bind_Some; cbv beta iota | discriminate]
        end).
  apply anyM_mono.
  - intros d _. apply rayHit_defined. exact Hrows'.
  - intros d Hd Hhit. simpl in Hd.
    destruct Hd as [<-|[<-|[<-|[<-|[<-|[<-|[<-|[<-|[]]]]]]]]];
      try (rewrite (rayHit_rows_agree b (newBoard r) _ _ (row position) Hother);
           [exact Hhit|simpl; lia]).
    + (* leftwards the walk met the king itself *)
      exfalso. rewrite (rayHit_row_blocked b (color piece) (row position) (-1)
                          (col position) piece) in Hhit; try discriminate.
      * auto.
      * rewrite <- Hp. destruct position; reflexivity.
      * reflexivity.
      * simpl. lia.
      * simpl. lia.
      * simpl. intros k Hk. apply Hbetween. lia.
    + (* rightwards the walk met the own rook *)
      exfalso. rewrite (rayHit_row_blocked b (color piece) (row position) 1 7 rk)
        in Hhit; try discriminate.
      * auto.
      * exact Hrk.
      * exact Hrc.
      * simpl. lia.
      * simpl. lia.
      * simpl. intros k Hk. apply Hbetween. lia.
Qed.

End KingsideCastling.

(** When the king may castle kingside and the attack detector reports its
    own square, the square it passes or the square it lands on as attacked
    on the current board, the legal-move query returns and its answer does
    not contain the castling destination, two files toward the rook. *)
Lemma castling_denied_when_detected :
  ∀ (b : Board) (gs : GameState) (position : Position) (piece : ChessPiece),
    eightRows b →
    kingsideEligible b gs position piece →
    isPositionUnderAttack b position (color piece) gs = Some true
    ∨ isPositionUnderAttack b (mkPos (row position) (col position + 1))
        (color piece) gs = Some true
    ∨ isPositionUnderAttack b (mkPos (row position) (col position + 2))
        (color piece) gs = Some true →
    ∃ moves, getPossibleMoves b position gs = Some moves ∧
             ¬ In (mkPos (row position) (col position + 2)) moves.
Proof.
  intros b gs position piece Hb Helig Hatt.
  destruct (castle_square b gs position piece Helig) as [Hr0 _].
  destruct (getPossibleMoves_defined b position gs Hb Hr0) as [moves Hmoves].
  exists moves. split; [exact Hmoves|]. intros Hin.
  pose proof Helig as (Hp & Hking & _ & _ & Hfk & _).
  unfold getPossibleMoves in Hmoves. rewrite Hp, bind_Some in Hmoves.
  unfold pseudoMoves in Hmoves. rewrite Hking in Hmoves.
  destruct (getKingMoves b position gs) as [ms|] eqn:Ems; [|discriminate].
  rewrite bind_Some in Hmoves.
  destruct (filterM_In _ _ _ _ Hmoves Hin) as [Hgen Hsafe].
  destruct (castle_generated b gs position piece Helig ms Ems Hgen)
    as (Hchk & Hpass & Hc4).
  unfold keepsKingSafe in Hsafe.
  destruct (movePiece b position (mkPos (row position) (col position + 2)) gs None)
    as [r|] eqn:Hr; [|discriminate].
  rewrite bind_Some, cleanBoard_id in Hsafe. cbv zeta in Hsafe.
  unfold isKingInCheck in Hsafe.
  rewrite (castle_findKing b gs position piece Hb Helig r Hc4 Hr), bind_Some in Hsafe.
  unfold isKingInCheck in Hchk. rewrite Hfk, bind_Some in Hchk.
  destruct Hatt as [Hatt|[Hatt|Hatt]].
  - rewrite Hatt in Hchk. discriminate.
  - rewrite Hatt in Hpass. discriminate.
  - rewrite (castle_attack_kept b gs position piece Hb Helig r gs Hc4 Hr Hatt),
      bind_Some in Hsafe.
    discriminate.
Qed.

Lemma castlePawnBoard_eligible c :
  c = 5 ∨ c = 6 ∨ c = 7 →
  kingsideEligible (castlePawnBoard c) startState (mkPos 7 4) (mkPiece king white None).
Proof.
  intros Hc. unfold kingsideEligible.
  split; [destruct Hc as [->|[->| ->]]; vm_compute; reflexivity|].
  split; [reflexivity|]. split; [reflexivity|]. split; [reflexivity|].
  split; [destruct Hc as [->|[->| ->]]; vm_compute; reflexivity|].
  split; [reflexivity|]. split.
  - exists (Some (mkPiece rook white None)).
    destruct Hc as [->|[->| ->]]; split; vm_compute; reflexivity.
  - intros c' Hc'. simpl in Hc'.
    assert (Hcases : c' = 5 ∨ c' = 6) by lia.
    destruct Hc as [->|[->| ->]]; destruct Hcases as [->| ->]; vm_compute; reflexivity.
Qed.

(** C3. Kingside castling is returned although a pawn bears on the king's
    square, on the square it passes or on the square it lands on.  The white
    king on (7,4) is eligible to castle and a black pawn stands on row 6.
    On column 5 the pawn's legal moves include the capture of the king on
    (7,4); on column 6 the pawn bears on (7,5), where it takes the rook that
    castling puts there; on column 7 it bears on (7,6), where it takes the
    king that has castled.  In all three positions [getPossibleMoves]
    returns the castling destination (7,6). *)
Theorem C3_castling_under_pawn_attack :
  (kingsideEligible (castlePawnBoard 5) startState (mkPos 7 4) (mkPiece king white None) ∧
   (∃ caps, getPossibleMoves (castlePawnBoard 5) (mkPos 6 5) startState = Some caps ∧
            In (mkPos 7 4) caps) ∧
   ∃ ms, getPossibleMoves (castlePawnBoard 5) (mkPos 7 4) startState = Some ms ∧
         In (mkPos 7 6) ms) ∧
  (kingsideEligible (castlePawnBoard 6) startState (mkPos 7 4) (mkPiece king white None) ∧
   ∃ ms r caps,
     getPossibleMoves (castlePawnBoard 6) (mkPos 7 4) startState = Some ms ∧
     In (mkPos 7 6) ms ∧
     movePiece (castlePawnBoard 6) (mkPos 7 4) (mkPos 7 6) startState None = Some r ∧
     getCell (newBoard r) (mkPos 7 5) = Some (Some (mkPiece rook white None)) ∧
     getPossibleMoves (newBoard r) (mkPos 6 6) (newGameState r) = Some caps ∧
     In (mkPos 7 5) caps) ∧
  (kingsideEligible (castlePawnBoard 7) startState (mkPos 7 4) (mkPiece king white None) ∧
   ∃ ms r caps,
     getPossibleMoves (castlePawnBoard 7) (mkPos 7 4) startState = Some ms ∧
     In (mkPos 7 6) ms ∧
     movePiece (castlePawnBoard 7) (mkPos 7 4) (mkPos 7 6) startState None = Some r ∧
     getCell (newBoard r) (mkPos 7 6) = Some (Some (mkPiece king white (Some true))) ∧
     getPossibleMoves (newBoard r) (mkPos 6 7) (newGameState r) = Some caps ∧
     In (mkPos 7 6) caps).
Proof.
  split; [|split].
  - split; [apply castlePawnBoard_eligible; auto|]. split.
    + eexists. split; [vm_compute; reflexivity|]. simpl. tauto.
    + eexists. split; [vm_compute; reflexivity|]. simpl. tauto.
  - split; [apply castlePawnBoard_eligible; auto|].
    eexists _, _, _. split; [vm_compute; reflexivity|]. split; [simpl; tauto|].
    split; [vm_compute; reflexivity|]. split; [vm_compute; reflexivity|].
    split; [vm_compute; reflexivity|]. simpl. tauto.
  - split; [apply castlePawnBoard_eligible; auto|].
    eexists _, _, _. split; [vm_compute; reflexivity|]. split; [simpl; tauto|].
    split; [vm_compute; reflexivity|]. split; [vm_compute; reflexivity|].
    split; [vm_compute; reflexivity|]. simpl. tauto.
Qed.

(** ** Disambiguation in the notation *)

Lemma arrayAt_files p :
  0 ≤ col p < 8 → arrayAt files (col p) = Some (fileLetter p).
Proof.
  intros H. unfold fileLetter. destruct p as [r c]; simpl in *.
  assert (Hc : c = 0 ∨ c = 1 ∨ c = 2 ∨ c = 3 ∨ c = 4 ∨ c = 5 ∨ c = 6 ∨ c = 7) by lia.
  repeat (destruct Hc as [->|Hc]; [reflexivity|]). subst c. reflexivity.
Qed.

Lemma arrayAt_ranks p :
  0 ≤ row p < 8 → arrayAt ranks (row p) = Some (rankDigit p).
Proof.
  intros H. unfold rankDigit. destruct p as [r c]; simpl in *.
  assert (Hr : r = 0 ∨ r = 1 ∨ r = 2 ∨ r = 3 ∨ r = 4 ∨ r = 5 ∨ r = 6 ∨ r = 7) by lia.
  repeat (destruct Hr as [->|Hr]; [reflexivity|]). subst r. reflexivity.
Qed.


Lemma existsb_reaches to ms :
  existsb (λ move, Position_eqb move to) ms = true ↔ In to ms.
Proof.
  rewrite existsb_exists. split.
  - intros (x & Hx & Heq). apply Position_eqb_eq in Heq. subst. exact Hx.
  - intros H. exists to. split; [exact H|]. apply Position_eqb_eq. reflexivity.
Qed.

(** The rivals found are exactly the other squares holding a piece of the
    same kind and colour one of whose legal moves is the destination. *)
Lemma findAmbiguousPieces_spec live piece from to gs amb sq :
  findAmbiguousPieces live piece from to gs = Some amb →
  (In sq amb ↔
   In sq allSquares ∧ sq ≠ from ∧
   ∃ cur ms, getCell live sq = Some (Some cur) ∧
             type cur = type piece ∧ color cur = color piece ∧
             getPossibleMoves live sq gs = Some ms ∧ In to ms).
Proof.
  intros H. unfold findAmbiguousPieces in H. split.
  - intros Hin. destruct (filterM_In _ _ _ _ H Hin) as [Hall Hf].
    split; [exact Hall|].
    destruct (Position_eqb sq from) eqn:Eq; [discriminate|].
    split; [intros ->; unfold Position_eqb in Eq; rewrite !Z.eqb_refl in Eq; discriminate|].
    destruct (getCell live sq) as [[cur|]|]; simpl in Hf; try discriminate.
    destruct (PieceType_eqb (type cur) (type piece) && Color_eqb (color cur) (color piece))
      eqn:Ek; [|discriminate].
    apply andb_true_iff in Ek. destruct Ek as [Ek Ec].
    apply PieceType_eqb_eq in Ek. apply Color_eqb_eq in Ec.
    destruct (getPossibleMoves live sq gs) as [ms|]; simpl in Hf; [|discriminate].
    injection Hf as Hf. apply existsb_reaches in Hf.
    exists cur, ms. auto.
  - intros (Hall & Hne & cur & ms & Hc & Hk & Hcol & Hm & Hto).
    apply (filterM_In_intro _ _ _ _ H Hall).
    destruct (Position_eqb sq from) eqn:Eq;
      [apply Position_eqb_eq in Eq; contradiction|].
    rewrite Hc. simpl.
    apply PieceType_eqb_eq in Hk. apply Color_eqb_eq in Hcol. rewrite Hk, Hcol. simpl.
    rewrite Hm. simpl. f_equal. apply existsb_reaches. exact Hto.
Qed.

Lemma findAmbiguousPieces_defined live piece from to gs :
  eightRows live → ∃ amb, findAmbiguousPieces live piece from to gs = Some amb.
Proof.
  intros Hb. unfold findAmbiguousPieces. apply filterM_defined. intros sq Hsq.
  destruct (Position_eqb sq from); [eauto|].
  pose proof (allSquares_valid sq Hsq) as Hv.
  destruct (getCell_valid live sq Hb Hv) as [x ->]. rewrite bind_Some.
  destruct x as [cur|]; [|eauto]. destruct (_ && _); [|eauto].
  apply valid_cases in Hv.
  destruct (getPossibleMoves_defined live sq gs Hb) as [ms ->]; [lia|].
  rewrite bind_Some. eauto.
Qed.

Lemma generateNotation_defined live piece from to captured nb gs promo :
  eightRows live → eightRows nb →
  ∃ s, generateNotation live piece from to captured nb gs promo = Some s.
Proof.
  intros Hl Hn. unfold generateNotation. destruct (_ && _); [eauto|].
  destruct (findAmbiguousPieces_defined live piece from to gs Hl) as [amb ->].
  rewrite bind_Some. unfold checkSuffix.
  destruct (isCheckmate_defined nb (opponent (color piece)) gs Hn) as [mate ->].
  rewrite bind_Some. destruct mate; [rewrite bind_Some; eauto|].
  destruct (isKingInCheck_defined nb (opponent (color piece)) gs Hn) as [chk ->].
  rewrite !bind_Some. eauto.
Qed.



(** ** Sliding pieces: the squares reached *)

Lemma collectM_In_intro {A B} (f : A → option (list B)) l r x ys y :
  collectM f l = Some r → In x l → f x = Some ys → In y ys → In y r.
Proof.
  revert r. induction l as [|z l IH]; simpl; intros r H Hin Hx Hy; [destruct Hin|].
  destruct (f z) as [zs|] eqn:Hz; simpl in H; [|discriminate].
  destruct (collectM f l) as [rest|] eqn:Hr; simpl in H; [|discriminate].
  injection H as <-. apply in_or_app. destruct Hin as [->|Hin].
  - left. rewrite Hx in Hz. injection Hz as <-. exact Hy.
  - right. exact (IH rest eq_refl Hin Hx Hy).
Qed.

Lemma collectM_Some_at {A B} (f : A → option (list B)) l r x :
  collectM f l = Some r → In x l → ∃ ys, f x = Some ys.
Proof.
  revert r. induction l as [|z l IH]; simpl; intros r H Hin; [destruct Hin|].
  destruct (f z) as [zs|] eqn:Hz; simpl in H; [|discriminate].
  destruct (collectM f l) as [rest|] eqn:Hr; simpl in H; [|discriminate].
  destruct Hin as [<-|Hin]; [eauto|]. exact (IH rest eq_refl Hin).
Qed.

Lemma stepFrom_zero p d : stepFrom p d 0 = p.
Proof. unfold stepFrom. destruct p; simpl. f_equal; lia. Qed.

Lemma stepFrom_next p d k :
  stepFrom (mkPos (row p + d.1) (col p + d.2)) d k = stepFrom p d (k + 1).
Proof. unfold stepFrom. simpl. f_equal; lia. Qed.

(** Squares between two squares of the board, along a ray, are on the board. *)
Lemma stepFrom_between p d j k :
  isDirection d → isValidPosition p = true → isValidPosition (stepFrom p d k) = true →
  0 ≤ j ≤ k → isValidPosition (stepFrom p d j) = true.
Proof.
  intros (H1 & H2 & _) Hp Hk Hj.
  apply valid_cases in Hp. apply valid_cases in Hk.
  destruct d as [d1 d2]. unfold stepFrom in *. simpl in *.
  apply valid_intro; simpl;
    destruct H1 as [?|[?|?]], H2 as [?|[?|?]]; subst d1 d2; lia.
Qed.

(** The walk of the generators from [cur]: the squares it lists. *)
Lemma slide_In fuel b piece d cur ms m :
  slide fuel b piece d cur = Some ms → In m ms →
  ∃ k, 0 ≤ k ∧ m = stepFrom cur d k ∧ isValidPosition m = true ∧
       (∀ j, 0 ≤ j < k → getCell b (stepFrom cur d j) = Some None) ∧
       ∃ x, getCell b m = Some x ∧ emptyOrEnemy piece x = true.
Proof.
  revert cur ms. induction fuel as [|f IH]; intros cur ms; simpl.
  - intros [= <-] [].
  - destruct (isValidPosition cur) eqn:Hv; [|intros [= <-] []].
    destruct (getCell b cur) as [[t|]|] eqn:Hc; simpl; [| |discriminate].
    + destruct (negb _) eqn:Hn; intros [= <-] Hin; [|destruct Hin].
      destruct Hin as [<-|[]]. exists 0. rewrite stepFrom_zero.
      repeat split; [lia|exact Hv|intros; lia|].
      exists (Some t). split; [exact Hc|exact Hn].
    + destruct (slide f b piece d _) as [rest|] eqn:E; simpl; [|discriminate].
      intros [= <-] [<-|Hin].
      * exists 0. rewrite stepFrom_zero.
        repeat split; [lia|exact Hv|intros; lia|]. exists None. auto.
      * destruct (IH _ _ E Hin) as (k & Hk & -> & Hvm & Hclear & Hx).
        exists (k + 1). rewrite <- stepFrom_next.
        repeat split; [lia|exact Hvm| |exact Hx].
        intros j Hj. destruct (Z.eq_dec j 0) as [->|Hj0].
        -- rewrite stepFrom_zero. exact Hc.
        -- replace j with ((j - 1) + 1) by lia. rewrite <- stepFrom_next.
           apply Hclear. lia.
Qed.

Lemma slide_In_intro b piece d :
  isDirection d →
  ∀ fuel cur ms k x,
    (isValidPosition cur = true → edgeDistance d cur ≤ Z.of_nat fuel) →
    slide fuel b piece d cur = Some ms →
    0 ≤ k →
    (∀ j, 0 ≤ j ≤ k → isValidPosition (stepFrom cur d j) = true) →
    (∀ j, 0 ≤ j < k → getCell b (stepFrom cur d j) = Some None) →
    getCell b (stepFrom cur d k) = Some x → emptyOrEnemy piece x = true →
    In (stepFrom cur d k) ms.
Proof.
  intros Hd. induction fuel as [|f IH]; intros cur ms k x Hfuel H Hk Hval Hclear Hx He.
  - assert (Hv : isValidPosition cur = true).
    { rewrite <- (stepFrom_zero cur d). apply Hval. lia. }
    destruct (edgeDistance_valid d cur Hd Hv) as [? _]. specialize (Hfuel Hv). lia.
  - assert (Hv : isValidPosition cur = true).
    { rewrite <- (stepFrom_zero cur d). apply Hval. lia. }
    simpl in H. rewrite Hv in H.
    destruct (Z.eq_dec k 0) as [->|Hk0].
    + rewrite stepFrom_zero in *. rewrite Hx, bind_Some in H.
      destruct x as [t|].
      * simpl in He. rewrite He in H. injection H as <-. left; reflexivity.
      * destruct (slide f b piece d _) as [rest|]; simpl in H; [|discriminate].
        injection H as <-. left; reflexivity.
    + assert (Hc : getCell b cur = Some None).
      { rewrite <- (stepFrom_zero cur d). apply Hclear. lia. }
      rewrite Hc, bind_Some in H.
      destruct (slide f b piece d _) as [rest|] eqn:E; simpl in H; [|discriminate].
      injection H as <-. right.
      replace k with ((k - 1) + 1) by lia. rewrite <- stepFrom_next.
      apply (IH _ rest (k - 1) x); try assumption.
      * intros Hv'. destruct (edgeDistance_valid d cur Hd Hv) as [_ ->].
        specialize (Hfuel Hv). lia.
      * lia.
      * intros j Hj. rewrite stepFrom_next. apply Hval. lia.
      * intros j Hj. rewrite stepFrom_next. apply Hclear. lia.
      * rewrite stepFrom_next. replace (k - 1 + 1) with k by lia. exact Hx.
Qed.

Lemma slideMoves_spec dirs b position piece ms m :
  (∀ d, In d dirs → isDirection d) →
  isValidPosition position = true →
  getCell b position = Some (Some piece) →
  slideMoves dirs b position = Some ms →
  (In m ms ↔ slidesTo dirs b piece position m).
Proof.
  intros Hdirs Hv Hp H. unfold slideMoves in H. rewrite Hp, bind_Some in H. split.
  - intros Hin. destruct (collectM_In _ _ _ _ H Hin) as (d & ys & Hd & Hys & Hy).
    cbv beta in Hys.
    destruct (slide_In _ _ _ _ _ _ _ Hys Hy) as (k & Hk & -> & Hvm & Hclear & Hx).
    exists d, (k + 1). rewrite <- stepFrom_next.
    repeat split; [exact Hd|lia|exact Hvm| |exact Hx].
    intros j Hj. replace j with ((j - 1) + 1) by lia. rewrite <- stepFrom_next.
    apply Hclear. lia.
  - intros (d & k & Hd & Hk & -> & Hvm & Hclear & x & Hx & He).
    assert (Hdef : ∃ ys, slide 8 b piece d (mkPos (row position + d.1) (col position + d.2))
                         = Some ys).
    { exact (collectM_Some_at _ _ _ d H Hd). }
    destruct Hdef as [ys Hys].
    apply (collectM_In_intro _ _ _ d ys _ H Hd Hys).
    replace k with ((k - 1) + 1) by lia. rewrite <- stepFrom_next.
    apply (slide_In_intro b piece d (Hdirs d Hd) 8%nat _ ys (k - 1) x).
    + intros Hv'. destruct (edgeDistance_valid d _ (Hdirs d Hd) Hv'). simpl. lia.
    + exact Hys.
    + lia.
    + intros j Hj. rewrite stepFrom_next.
      apply (stepFrom_between position d (j + 1) k (Hdirs d Hd) Hv Hvm). lia.
    + intros j Hj. rewrite stepFrom_next. apply Hclear. lia.
    + rewrite stepFrom_next. replace (k - 1 + 1) with k by lia. exact Hx.
    + exact He.
Qed.

(** ** Knights, kings and pawns: the squares offered *)

Lemma knightOffsets_jump p m : In m (knightOffsets p) ↔ knightJump p m.
Proof.
  unfold knightJump, knightOffsets. destruct p as [r c], m as [r' c']. simpl. split.
  - intros H. repeat (destruct H as [[= <- <-]|H]; [lia|]). destruct H.
  - intros H.
    assert (Hr : r' = r - 2 ∨ r' = r - 1 ∨ r' = r + 1 ∨ r' = r + 2) by lia.
    assert (Hc : c' = c - 2 ∨ c' = c - 1 ∨ c' = c + 1 ∨ c' = c + 2) by lia.
    destruct Hr as [->|[->|[->| ->]]], Hc as [->|[->|[->| ->]]];
      try (exfalso; lia); tauto.
Qed.

Lemma kingOffsets_neighbour p m : In m (kingOffsets p) ↔ kingNeighbour p m.
Proof.
  unfold kingNeighbour, kingOffsets. destruct p as [r c], m as [r' c']. simpl. split.
  - intros H.
    repeat (destruct H as [[= <- <-]|H];
            [repeat split; try lia; intros Heq; inversion Heq; lia|]).
    destruct H.
  - intros (Hr & Hc & Hne).
    assert (Hr' : r' = r - 1 ∨ r' = r ∨ r' = r + 1) by lia.
    assert (Hc' : c' = c - 1 ∨ c' = c ∨ c' = c + 1) by lia.
    destruct Hr' as [->|[->| ->]], Hc' as [->|[->| ->]];
      try tauto; exfalso; apply Hne; reflexivity.
Qed.

Lemma stepMove_spec b piece move ms m :
  stepMove b piece move = Some ms →
  (In m ms ↔ m = move ∧ landsOn b piece m).
Proof.
  unfold stepMove, landsOn. destruct (isValidPosition move) eqn:Hv.
  - destruct (getCell b move) as [x|] eqn:Hx; simpl; [|discriminate].
    destruct (emptyOrEnemy piece x) eqn:He; intros [= <-]; split.
    + intros [<-|[]]. eauto 6.
    + intros [-> _]. left; reflexivity.
    + intros [].
    + intros (-> & _ & y & Hy & He'). congruence.
  - intros [= <-]. split; [intros []|]. intros (-> & Hv' & _). congruence.
Qed.

Lemma stepMoves_spec b piece l ms m :
  collectM (stepMove b piece) l = Some ms →
  (In m ms ↔ In m l ∧ landsOn b piece m).
Proof.
  intros H. split.
  - intros Hin. destruct (collectM_In _ _ _ _ H Hin) as (sq & ys & Hsq & Hys & Hy).
    apply (stepMove_spec _ _ _ _ m Hys) in Hy. destruct Hy as [-> Hl]. auto.
  - intros [Hin Hl]. destruct (collectM_Some_at _ _ _ m H Hin) as [ys Hys].
    apply (collectM_In_intro _ _ _ m ys _ H Hin Hys).
    apply (stepMove_spec _ _ _ _ m Hys). auto.
Qed.

Lemma pawnCapture_spec b piece gs sq ms m :
  pawnCapture b piece gs sq = Some ms →
  (In m ms ↔
   m = sq ∧ isValidPosition m = true ∧
   ((∃ t, getCell b m = Some (Some t) ∧ color t ≠ color piece) ∨
    (getCell b m = Some None ∧ enPassantTarget gs = Some m))).
Proof.
  unfold pawnCapture. destruct (isValidPosition sq) eqn:Hv.
  2:{ intros [= <-]. split; [intros []|]. intros (-> & Hv' & _). congruence. }
  destruct (getCell b sq) as [[t|]|] eqn:Hx; simpl; [| |discriminate].
  - destruct (Color_eqb (color t) (color piece)) eqn:Hc; simpl; intros [= <-]; split.
    + intros [].
    + intros (-> & _ & [(t' & Ht & Hne)|[Hn _]]); [|congruence].
      apply Color_eqb_eq in Hc. congruence.
    + intros [<-|[]]. repeat split; [exact Hv|]. left. exists t. split; [exact Hx|].
      intros Heq. apply Color_eqb_eq in Heq. congruence.
    + intros [-> _]. left; reflexivity.
  - destruct (enPassantTarget gs) as [ep|] eqn:Hep.
    + fold (Position_eqb sq ep). destruct (Position_eqb sq ep) eqn:He; intros [= <-]; split.
      * intros [<-|[]]. apply Position_eqb_eq in He. subst ep. auto.
      * intros [-> _]. left; reflexivity.
      * intros [].
      * intros (-> & _ & [(t & Ht & _)|[_ [= ->]]]); [congruence|].
        assert (Position_eqb sq sq = true) by (apply Position_eqb_eq; reflexivity).
        congruence.
    + intros [= <-]. split; [intros []|].
      intros (-> & _ & [(t & Ht & _)|[_ ?]]); congruence.
Qed.

Lemma getPawnMoves_spec b position gs piece ms m :
  getCell b position = Some (Some piece) → type piece = pawn →
  getPawnMoves b position gs = Some ms →
  (In m ms ↔ pawnAdvance b piece position m ∨ pawnDouble b piece position m
             ∨ pawnTakes b piece gs position m).
Proof.
  intros Hp Ht H. unfold getPawnMoves in H. rewrite Hp, bind_Some in H.
  rewrite Ht in H. simpl negb in H. cbv beta iota zeta in H.
  set (dir := pawnDirection (color piece)) in *.
  set (one := mkPos (row position + dir) (col position)) in *.
  set (two := mkPos (row position + 2 * dir) (col position)) in *.
  match type of H with (?m ≫= _) = _ => destruct m as [fwd|] eqn:Ef end; [|discriminate].
  rewrite bind_Some in H.
  match type of H with (?m ≫= _) = _ => destruct m as [caps|] eqn:Ec end; [|discriminate].
  rewrite bind_Some in H. injection H as <-.
  assert (Hfwd : In m fwd ↔ pawnAdvance b piece position m ∨ pawnDouble b piece position m).
  { unfold pawnAdvance, pawnDouble. fold dir one two.
    destruct (isValidPosition one) eqn:Hv.
    - destruct (getCell b one) as [[t|]|] eqn:H1; [| |discriminate].
      + rewrite bind_Some in Ef. injection Ef as <-. split; [intros []|].
        intros [(-> & _ & Hn)|(_ & _ & _ & Hn & _)]; congruence.
      + rewrite bind_Some in Ef.
        destruct (Z.eqb_spec (row position) (pawnStartingRow (color piece))) as [Hs|Hs].
        * destruct (getCell b two) as [x2|] eqn:H2; [|discriminate].
          rewrite bind_Some in Ef. injection Ef as <-.
          apply valid_cases in Hv as Hv'. simpl in Hv'.
          split.
          -- intros [<-|Hin]; [left; auto|]. destruct x2; [destruct Hin|].
             destruct Hin as [<-|[]]. right. repeat split; auto; lia.
          -- intros [(-> & _)|(-> & _ & _ & _ & Hn)]; [left; reflexivity|].
             right. rewrite Hn in H2. injection H2 as <-. left; reflexivity.
        * injection Ef as <-. split.
          -- intros [<-|[]]. left; auto.
          -- intros [(-> & _)|(_ & Hs' & _)]; [left; reflexivity|contradiction].
    - injection Ef as <-. split; [intros []|].
      intros [(-> & Hv' & _)|(_ & Hs & Hc & _)]; [congruence|].
      apply not_true_iff_false in Hv. contradiction Hv. apply valid_intro; simpl; [|exact Hc].
      subst dir. destruct (color piece); simpl in *; lia. }
  assert (Hcaps : In m caps ↔ pawnTakes b piece gs position m).
  { unfold pawnTakes. fold dir. split.
    - intros Hin. destruct (collectM_In _ _ _ _ Ec Hin) as (sq & ys & Hsq & Hys & Hy).
      apply (pawnCapture_spec _ _ _ _ _ m Hys) in Hy. destruct Hy as (-> & Hv & Hc).
      destruct Hsq as [<-|[<-|[]]]; simpl; repeat split; try lia; assumption.
    - intros (Hr & Hcol & Hv & Hc).
      assert (Hsq : In m [mkPos (row position + dir) (col position - 1);
                          mkPos (row position + dir) (col position + 1)]).
      { destruct m as [r c]. simpl in *. subst r.
        assert (c = col position - 1 ∨ c = col position + 1) as [->| ->] by lia; tauto. }
      destruct (collectM_Some_at _ _ _ m Ec Hsq) as [ys Hys].
      apply (collectM_In_intro _ _ _ m ys _ Ec Hsq Hys).
      apply (pawnCapture_spec _ _ _ _ _ m Hys). auto. }
  rewrite in_app_iff, Hfwd, Hcaps. tauto.
Qed.

(** ** The king: neighbouring squares and castling squares *)

Lemma pathClear_true b path :
  pathClear b path = Some true ↔ ∀ p, In p path → getCell b p = Some None.
Proof.
  induction path as [|q path IH]; simpl.
  - split; [intros _ p []|reflexivity].
  - destruct (getCell b q) as [[t|]|] eqn:Hq; simpl.
    + split; [discriminate|]. intros H. specialize (H q (or_introl eq_refl)). congruence.
    + rewrite IH. split; [intros H p [<-|Hp]; auto|]. intros H p Hp. apply H. auto.
    + split; [discriminate|]. intros H. specialize (H q (or_introl eq_refl)). congruence.
Qed.

Lemma kingNotInCheck_true b c gs passed :
  kingNotInCheck b c gs passed = Some true ↔
  isKingInCheck b c gs = Some false ∧ isPositionUnderAttack b passed c gs = Some false.
Proof.
  unfold kingNotInCheck. destruct (isKingInCheck b c gs) as [[|]|]; simpl.
  - split; [discriminate|]. intros [? _]. discriminate.
  - destruct (isPositionUnderAttack b passed c gs) as [[|]|]; simpl;
      split; try discriminate; try tauto; intros [_ ?]; discriminate.
  - split; [discriminate|]. intros [? _]. discriminate.
Qed.

Lemma castleSide_spec b position piece gs rookCol path passed dest ms m :
  castleSide b position piece gs rookCol path passed dest = Some ms →
  (In m ms ↔
   m = dest ∧
   (∃ rk, getCell b (mkPos (row position) rookCol) = Some rk ∧
          isCastlingRook piece rk = true) ∧
   (∀ p, In p path → getCell b p = Some None) ∧
   isKingInCheck b (color piece) gs = Some false ∧
   isPositionUnderAttack b passed (color piece) gs = Some false).
Proof.
  unfold castleSide. rewrite <- pathClear_true, <- kingNotInCheck_true.
  destruct (getCell b (mkPos (row position) rookCol)) as [rk|]; [|discriminate].
  rewrite bind_Some. destruct (isCastlingRook piece rk) eqn:Hrk.
  - destruct (pathClear b path) as [clr|]; [|discriminate]. rewrite bind_Some.
    destruct (kingNotInCheck b (color piece) gs passed) as [safe|]; [|discriminate].
    rewrite bind_Some. intros [= <-]. destruct clr, safe; simpl andb; cbv iota.
    + split; [intros [<-|[]]; eauto 6|]. intros [-> _]. left; reflexivity.
    + split; [intros []|]. intros (_ & _ & _ & ?). discriminate.
    + split; [intros []|]. intros (_ & _ & ? & _). discriminate.
    + split; [intros []|]. intros (_ & _ & ? & _). discriminate.
  - intros [= <-]. split; [intros []|].
    intros (_ & (rk' & [= <-] & Hrk') & _). congruence.
Qed.

Lemma getKingMoves_spec b position gs piece ms m :
  getCell b position = Some (Some piece) → type piece = king →
  getKingMoves b position gs = Some ms →
  (In m ms ↔ (kingNeighbour position m ∧ landsOn b piece m)
             ∨ castlesTo b piece gs position 1 m
             ∨ castlesTo b piece gs position (-1) m).
Proof.
  intros Hp Ht H. unfold getKingMoves in H. rewrite Hp, bind_Some in H.
  rewrite Ht in H. simpl negb in H. cbv beta iota zeta in H.
  destruct (collectM (stepMove b piece) (kingOffsets position)) as [steps|] eqn:Es;
    [|discriminate].
  rewrite bind_Some in H.
  pose proof (stepMoves_spec _ _ _ _ m Es) as Hsteps.
  rewrite kingOffsets_neighbour in Hsteps.
  unfold castlesTo. simpl Z.eqb. cbv iota.
  replace (col position + 2 * 1) with (col position + 2) by lia.
  replace (col position + 2 * -1) with (col position - 2) by lia.
  replace (col position + -1) with (col position - 1) by lia.
  destruct (notMoved piece).
  2:{ injection H as <-. rewrite Hsteps. split; [auto|].
      intros [?|[(_ & ? & _)|(_ & ? & _)]]; [assumption|discriminate..]. }
  match type of H with (?m ≫= _) = _ => destruct m as [ks|] eqn:Ek end; [|discriminate].
  rewrite bind_Some in H.
  match type of H with (?m ≫= _) = _ => destruct m as [qs|] eqn:Eq end; [|discriminate].
  rewrite bind_Some in H. injection H as <-.
  assert (Hks : In m ks ↔
    m = mkPos (row position) (col position + 2) ∧
    canCastleKingside (color piece) gs = true ∧
    (∃ rk, getCell b (mkPos (row position) 7) = Some rk ∧ isCastlingRook piece rk = true) ∧
    (∀ p, In p [mkPos (row position) (col position + 1);
                mkPos (row position) (col position + 2)] → getCell b p = Some None) ∧
    isKingInCheck b (color piece) gs = Some false ∧
    isPositionUnderAttack b (mkPos (row position) (col position + 1)) (color piece) gs
    = Some false).
  { destruct (canCastleKingside (color piece) gs).
    - rewrite (castleSide_spec _ _ _ _ _ _ _ _ _ m Ek). tauto.
    - injection Ek as <-. split; [intros []|]. intros (_ & ? & _). discriminate. }
  assert (Hqs : In m qs ↔
    m = mkPos (row position) (col position - 2) ∧
    canCastleQueenside (color piece) gs = true ∧
    (∃ rk, getCell b (mkPos (row position) 0) = Some rk ∧ isCastlingRook piece rk = true) ∧
    (∀ p, In p [mkPos (row position) (col position - 1);
                mkPos (row position) (col position - 2);
                mkPos (row position) (col position - 3)] → getCell b p = Some None) ∧
    isKingInCheck b (color piece) gs = Some false ∧
    isPositionUnderAttack b (mkPos (row position) (col position - 1)) (color piece) gs
    = Some false).
  { destruct (canCastleQueenside (color piece) gs).
    - rewrite (castleSide_spec _ _ _ _ _ _ _ _ _ m Eq). tauto.
    - injection Eq as <-. split; [intros []|]. intros (_ & ? & _). discriminate. }
  rewrite !in_app_iff, Hsteps, Hks, Hqs. simpl In.
  split.
  - intros [?|[(-> & ? & ? & Hpath & ? & ?)|(-> & ? & ? & Hpath & ? & ?)]].
    + left; assumption.
    + right; left. repeat split; auto. discriminate.
    + right; right. repeat split; auto.
  - intros [?|[(-> & _ & ? & ? & H1 & H2 & _ & ? & ?)|(-> & _ & ? & ? & H1 & H2 & H3 & ? & ?)]].
    + left; assumption.
    + right; left. repeat split; auto. intros p [<-|[<-|[]]]; assumption.
    + right; right. repeat split; auto.
      intros p [<-|[<-|[<-|[]]]]; auto.
Qed.

(** ** The generators, square by square *)

Lemma straightDirs_directions d : In d straightDirs → isDirection d.
Proof. intros H. apply slidingDirs_directions. apply in_or_app. left. exact H. Qed.

Lemma diagonalDirs_directions d : In d diagonalDirs → isDirection d.
Proof. intros H. apply slidingDirs_directions. apply in_or_app. right. exact H. Qed.

Lemma occupied_row (b : Board) p x :
  eightRows b → getCell b p = Some x → 0 ≤ row p < 8.
Proof.
  intros Hb H. apply getCell_Some_row in H. unfold eightRows in Hb. lia.
Qed.

Lemma slidesTo_app dirs1 dirs2 b piece p m :
  slidesTo (dirs1 ++ dirs2) b piece p m ↔
  slidesTo dirs1 b piece p m ∨ slidesTo dirs2 b piece p m.
Proof.
  unfold slidesTo. split.
  - intros (d & k & Hd & H). apply in_app_or in Hd.
    destruct Hd as [Hd|Hd]; [left|right]; exists d, k; auto.
  - intros [(d & k & Hd & H)|(d & k & Hd & H)]; exists d, k;
      (split; [apply in_or_app; auto|exact H]).
Qed.

(** X1. On a board of eight rows, for a piece standing on a square of
    the board, [getRookMoves], [getBishopMoves] and [getQueenMoves] return,
    and list exactly the squares of the board reached along a straight
    line, a diagonal, or either: every square passed on the way is empty and
    the square itself is empty or holds a piece of the other colour. *)
Theorem sliding_moves_exact :
  ∀ (b : Board) (position : Position) (piece : ChessPiece),
    eightRows b → isValidPosition position = true →
    getCell b position = Some (Some piece) →
    (∃ ms, getRookMoves b position = Some ms ∧
           ∀ m, In m ms ↔ slidesTo straightDirs b piece position m) ∧
    (∃ ms, getBishopMoves b position = Some ms ∧
           ∀ m, In m ms ↔ slidesTo diagonalDirs b piece position m) ∧
    (∃ ms, getQueenMoves b position = Some ms ∧
           ∀ m, In m ms ↔ slidesTo slidingDirs b piece position m).
Proof.
  intros b position piece Hb Hv Hp.
  pose proof (occupied_row _ _ _ Hb Hp) as Hr.
  destruct (slideMoves_defined straightDirs b position Hb Hr) as [rs Hrs].
  destruct (slideMoves_defined diagonalDirs b position Hb Hr) as [bs Hbs].
  assert (Hrook : ∀ m, In m rs ↔ slidesTo straightDirs b piece position m).
  { intros m. apply slideMoves_spec; auto using straightDirs_directions. }
  assert (Hbishop : ∀ m, In m bs ↔ slidesTo diagonalDirs b piece position m).
  { intros m. apply slideMoves_spec; auto using diagonalDirs_directions. }
  split; [|split].
  - exists rs. split; [exact Hrs|exact Hrook].
  - exists bs. split; [exact Hbs|exact Hbishop].
  - exists (rs ++ bs). split.
    + unfold getQueenMoves, getRookMoves, getBishopMoves.
      rewrite Hrs, bind_Some, Hbs, bind_Some. reflexivity.
    + intros m. unfold slidingDirs. rewrite in_app_iff, slidesTo_app, Hrook, Hbishop.
      reflexivity.
Qed.

(** X2. On a board of eight rows [getKnightMoves] returns for a piece
    on the board, and lists exactly the squares of the board a knight's jump
    away that are empty or hold a piece of the other colour. *)
Theorem knight_moves_exact :
  ∀ (b : Board) (position : Position) (piece : ChessPiece),
    eightRows b → getCell b position = Some (Some piece) →
    ∃ ms, getKnightMoves b position = Some ms ∧
          ∀ m, In m ms ↔ knightJump position m ∧ landsOn b piece m.
Proof.
  intros b position piece Hb Hp.
  destruct (getKnightMoves_defined b position Hb (occupied_row _ _ _ Hb Hp)) as [ms H].
  exists ms. split; [exact H|]. intros m.
  unfold getKnightMoves in H. rewrite Hp, bind_Some in H.
  rewrite (stepMoves_spec _ _ _ _ m H), knightOffsets_jump. reflexivity.
Qed.

(** X3. On a board of eight rows [getPawnMoves] returns for a pawn on
    the board, and lists exactly: the square straight ahead if it is empty;
    the square two ahead, from the starting row, if both are empty; each of
    the two squares diagonally ahead if it holds a piece of the other colour
    or is the empty en-passant target of the state.  Ahead is toward row 0
    for white and toward row 7 for black. *)
Theorem pawn_moves_exact :
  ∀ (b : Board) (position : Position) (gs : GameState) (piece : ChessPiece),
    eightRows b → getCell b position = Some (Some piece) → type piece = pawn →
    ∃ ms, getPawnMoves b position gs = Some ms ∧
          ∀ m, In m ms ↔ pawnAdvance b piece position m
                         ∨ pawnDouble b piece position m
                         ∨ pawnTakes b piece gs position m.
Proof.
  intros b position gs piece Hb Hp Ht.
  destruct (getPawnMoves_defined b position gs Hb (occupied_row _ _ _ Hb Hp)) as [ms H].
  exists ms. split; [exact H|]. intros m.
  exact (getPawnMoves_spec _ _ _ _ _ m Hp Ht H).
Qed.

(** X4. On a board of eight rows [getKingMoves] returns for a king on
    the board, and lists exactly: the neighbouring squares of the board that
    are empty or hold a piece of the other colour; and the square two
    columns toward either rook when the king has not moved, the right is
    held, the unmoved rook of its colour stands on the corner column of the
    king's row, the squares of the path are empty, the king is not in check
    and the square next to it is not attacked. *)
Theorem king_moves_exact :
  ∀ (b : Board) (position : Position) (gs : GameState) (piece : ChessPiece),
    eightRows b → getCell b position = Some (Some piece) → type piece = king →
    ∃ ms, getKingMoves b position gs = Some ms ∧
          ∀ m, In m ms ↔ (kingNeighbour position m ∧ landsOn b piece m)
                         ∨ castlesTo b piece gs position 1 m
                         ∨ castlesTo b piece gs position (-1) m.
Proof.
  intros b position gs piece Hb Hp Ht.
  destruct (getKingMoves_defined b position gs Hb (occupied_row _ _ _ Hb Hp)) as [ms H].
  exists ms. split; [exact H|]. intros m.
  exact (getKingMoves_spec _ _ _ _ _ m Hp Ht H).
Qed.

Lemma sliding_moves_exact_witness :
  let piece := mkPiece rook black (Some true) in
  eightRows castleDeniedBoard ∧ isValidPosition (mkPos 0 6) = true ∧
  getCell castleDeniedBoard (mkPos 0 6) = Some (Some piece) ∧
  (∃ ms, getRookMoves castleDeniedBoard (mkPos 0 6) = Some ms ∧
         ∀ m, In m ms ↔ slidesTo straightDirs castleDeniedBoard piece (mkPos 0 6) m) ∧
  (∃ ms, getBishopMoves castleDeniedBoard (mkPos 0 6) = Some ms ∧
         ∀ m, In m ms ↔ slidesTo diagonalDirs castleDeniedBoard piece (mkPos 0 6) m) ∧
  (∃ ms, getQueenMoves castleDeniedBoard (mkPos 0 6) = Some ms ∧
         ∀ m, In m ms ↔ slidesTo slidingDirs castleDeniedBoard piece (mkPos 0 6) m).
Proof.
  split; [reflexivity|]. split; [reflexivity|]. split; [reflexivity|].
  exact (sliding_moves_exact castleDeniedBoard (mkPos 0 6)
           (mkPiece rook black (Some true)) eq_refl eq_refl eq_refl).
Defined.

Lemma knight_moves_exact_witness :
  eightRows initialBoard ∧
  getCell initialBoard (mkPos 7 1) = Some (Some (mkPiece knight white None)) ∧
  ∃ ms, getKnightMoves initialBoard (mkPos 7 1) = Some ms ∧
        ∀ m, In m ms ↔ knightJump (mkPos 7 1) m
                       ∧ landsOn initialBoard (mkPiece knight white None) m.
Proof.
  split; [reflexivity|]. split; [reflexivity|].
  exact (knight_moves_exact initialBoard (mkPos 7 1) (mkPiece knight white None)
           eq_refl eq_refl).
Defined.

Lemma pawn_moves_exact_witness :
  let piece := mkPiece pawn white (Some true) in
  eightRows enPassantBoard ∧
  getCell enPassantBoard (mkPos 3 4) = Some (Some piece) ∧ type piece = pawn ∧
  ∃ ms, getPawnMoves enPassantBoard (mkPos 3 4) enPassantState = Some ms ∧
        ∀ m, In m ms ↔ pawnAdvance enPassantBoard piece (mkPos 3 4) m
                       ∨ pawnDouble enPassantBoard piece (mkPos 3 4) m
                       ∨ pawnTakes enPassantBoard piece enPassantState (mkPos 3 4) m.
Proof.
  split; [reflexivity|]. split; [reflexivity|]. split; [reflexivity|].
  exact (pawn_moves_exact enPassantBoard (mkPos 3 4) enPassantState
           (mkPiece pawn white (Some true)) eq_refl eq_refl eq_refl).
Defined.

Lemma king_moves_exact_witness :
  let piece := mkPiece king white None in
  eightRows castleBoard ∧
  getCell castleBoard (mkPos 7 4) = Some (Some piece) ∧ type piece = king ∧
  ∃ ms, getKingMoves castleBoard (mkPos 7 4) startState = Some ms ∧
        ∀ m, In m ms ↔ (kingNeighbour (mkPos 7 4) m ∧ landsOn castleBoard piece m)
                       ∨ castlesTo castleBoard piece startState (mkPos 7 4) 1 m
                       ∨ castlesTo castleBoard piece startState (mkPos 7 4) (-1) m.
Proof.
  split; [reflexivity|]. split; [reflexivity|]. split; [reflexivity|].
  exact (king_moves_exact castleBoard (mkPos 7 4) startState
           (mkPiece king white None) eq_refl eq_refl eq_refl).
Defined.

(** ** Legal moves: what the filter keeps, where the moves lead *)

Lemma keepsKingSafe_true b position gs piece m :
  keepsKingSafe b position gs piece m = Some true ↔
  ∃ r, movePiece b position m gs None = Some r ∧
       isKingInCheck (newBoard r) (color piece) gs = Some false.
Proof.
  unfold keepsKingSafe. destruct (movePiece b position m gs None) as [r|].
  - rewrite bind_Some, cleanBoard_id.
    destruct (isKingInCheck (newBoard r) (color piece) gs) as [[|]|] eqn:E; simpl; split;
      try discriminate; try (intros (r' & [= <-] & ?); congruence).
    intros _. eauto.
  - simpl. split; [discriminate|]. intros (r & ? & _). discriminate.
Qed.

Lemma getPossibleMoves_spec b position gs piece pseudo ms m :
  getCell b position = Some (Some piece) →
  pseudoMoves b position gs piece = Some pseudo →
  getPossibleMoves b position gs = Some ms →
  (In m ms ↔ In m pseudo ∧ keepsKingSafe b position gs piece m = Some true).
Proof.
  intros Hp Hps H. unfold getPossibleMoves in H.
  rewrite Hp, bind_Some, Hps, bind_Some in H. split.
  - intros Hin. exact (filterM_In _ _ _ _ H Hin).
  - intros [Hin Hsafe]. exact (filterM_In_intro _ _ _ _ H Hin Hsafe).
Qed.

Lemma slidesTo_wellformed dirs b piece p m :
  (∀ d, In d dirs → isDirection d) →
  slidesTo dirs b piece p m → m ≠ p ∧ landsOn b piece m.
Proof.
  intros Hdirs (d & k & Hd & Hk & -> & Hv & _ & Hx). split; [|split; assumption].
  destruct (Hdirs d Hd) as (H1 & H2 & H0). destruct d as [d1 d2], p as [r c].
  unfold stepFrom. simpl in *. intros [= Hr Hc]. apply H0. split; nia.
Qed.

(** A castling square offered to a king standing on the board is on the
    board: the corner rook and the empty path leave room for the two steps. *)
Lemma castlesTo_wellformed b piece gs p side m :
  side = 1 ∨ side = -1 →
  isValidPosition p = true → getCell b p = Some (Some piece) → type piece = king →
  castlesTo b piece gs p side m → m ≠ p ∧ landsOn b piece m.
Proof.
  intros Hside Hv Hp Ht (-> & _ & _ & (rk & Hrk & Hrook) & H1 & H2 & H3 & _).
  split; [destruct p; simpl; intros [= ?]; lia|].
  split; [|exists None; split; [exact H2|reflexivity]].
  apply valid_cases in Hv. apply valid_intro; simpl; [lia|].
  assert (Hcorner : ∀ c, getCell b (mkPos (row p) c) = Some None →
                         c ≠ (if side =? 1 then 7 else 0)).
  { intros c Hc ->. rewrite Hc in Hrk. injection Hrk as <-. discriminate. }
  assert (Hp' : col p ≠ (if side =? 1 then 7 else 0)).
  { intros Hc. destruct p as [r c]. simpl in *. subst c.
    rewrite Hp in Hrk. injection Hrk as <-. simpl in Hrook. rewrite Ht in Hrook.
    discriminate. }
  pose proof (Hcorner _ H1) as C1. pose proof (Hcorner _ H2) as C2.
  destruct Hside as [->| ->]; simpl in *; [lia|].
  pose proof (Hcorner _ (H3 eq_refl)) as C3. lia.
Qed.

Lemma pseudoMoves_wellformed b position gs piece ms m :
  isValidPosition position = true → getCell b position = Some (Some piece) →
  pseudoMoves b position gs piece = Some ms → In m ms →
  m ≠ position ∧ landsOn b piece m.
Proof.
  intros Hv Hp H Hin. unfold pseudoMoves in H. destruct (type piece) eqn:Ht.
  - apply (getPawnMoves_spec _ _ _ _ _ m Hp Ht H) in Hin.
    assert (Hd : pawnDirection (color piece) = 1 ∨ pawnDirection (color piece) = -1)
      by (destruct (color piece); simpl; auto).
    destruct Hin as [(-> & Hvm & Hc)|[(-> & Hs & Hcol & _ & Hc)|(Hr & _ & Hvm & Hc)]].
    + split; [destruct position; simpl in *; intros [= ?]; lia|].
      split; [exact Hvm|]. exists None. auto.
    + split; [destruct position; simpl in *; intros [= ?]; lia|].
      split; [|exists None; auto].
      apply valid_intro; simpl; [|exact Hcol].
      destruct (color piece); simpl in *; lia.
    + split; [intros ->; lia|]. split; [exact Hvm|].
      destruct Hc as [(t & Hc & Hne)|[Hc _]]; [|exists None; auto].
      exists (Some t). split; [exact Hc|]. simpl.
      destruct (Color_eqb (color t) (color piece)) eqn:E; [|reflexivity].
      apply Color_eqb_eq in E. contradiction.
  - apply (slideMoves_spec straightDirs _ _ piece _ m straightDirs_directions Hv Hp H) in Hin.
    exact (slidesTo_wellformed _ _ _ _ _ straightDirs_directions Hin).
  - unfold getKnightMoves in H. rewrite Hp, bind_Some in H.
    apply (stepMoves_spec _ _ _ _ m H) in Hin. destruct Hin as [Hj Hl].
    split; [|exact Hl]. apply knightOffsets_jump in Hj. intros ->.
    unfold knightJump in Hj. lia.
  - apply (slideMoves_spec diagonalDirs _ _ piece _ m diagonalDirs_directions Hv Hp H) in Hin.
    exact (slidesTo_wellformed _ _ _ _ _ diagonalDirs_directions Hin).
  - unfold getQueenMoves, getRookMoves, getBishopMoves in H.
    destruct (slideMoves straightDirs b position) as [rs|] eqn:Er; [|discriminate].
    rewrite bind_Some in H.
    destruct (slideMoves diagonalDirs b position) as [bs|] eqn:Eb; [|discriminate].
    rewrite bind_Some in H. injection H as <-. apply in_app_or in Hin.
    destruct Hin as [Hin|Hin].
    + apply (slideMoves_spec straightDirs _ _ piece _ m straightDirs_directions Hv Hp Er) in Hin.
      exact (slidesTo_wellformed _ _ _ _ _ straightDirs_directions Hin).
    + apply (slideMoves_spec diagonalDirs _ _ piece _ m diagonalDirs_directions Hv Hp Eb) in Hin.
      exact (slidesTo_wellformed _ _ _ _ _ diagonalDirs_directions Hin).
  - apply (getKingMoves_spec _ _ _ _ _ m Hp Ht H) in Hin.
    destruct Hin as [[(_ & _ & Hne) Hl]|[Hc|Hc]].
    + auto.
    + exact (castlesTo_wellformed _ _ _ _ _ _ (or_introl eq_refl) Hv Hp Ht Hc).
    + exact (castlesTo_wellformed _ _ _ _ _ _ (or_intror eq_refl) Hv Hp Ht Hc).
Qed.

(** X5. On a board of eight rows, for a piece on the board,
    [getPossibleMoves] returns, and returns exactly the candidates of the
    piece's generator whose execution by [movePiece] (without a promotion
    choice) gives a board on which the king of the piece's colour is not
    reported in check: the filter drops no other candidate and adds none. *)
Theorem legal_moves_exact :
  ∀ (b : Board) (position : Position) (gs : GameState) (piece : ChessPiece),
    eightRows b → getCell b position = Some (Some piece) →
    ∃ pseudo ms,
      pseudoMoves b position gs piece = Some pseudo ∧
      getPossibleMoves b position gs = Some ms ∧
      ∀ m, In m ms ↔
           In m pseudo ∧
           ∃ r, movePiece b position m gs None = Some r ∧
                isKingInCheck (newBoard r) (color piece) gs = Some false.
Proof.
  intros b position gs piece Hb Hp.
  pose proof (occupied_row _ _ _ Hb Hp) as Hr.
  destruct (pseudoMoves_defined b position gs piece Hb Hr) as [pseudo Hps].
  destruct (getPossibleMoves_defined b position gs Hb Hr) as [ms Hms].
  exists pseudo, ms. split; [exact Hps|]. split; [exact Hms|]. intros m.
  rewrite (getPossibleMoves_spec _ _ _ _ _ _ m Hp Hps Hms), keepsKingSafe_true.
  reflexivity.
Qed.

Lemma legal_moves_exact_witness :
  eightRows initialBoard ∧
  getCell initialBoard (mkPos 6 4) = Some (Some (mkPiece pawn white None)) ∧
  ∃ pseudo ms,
    pseudoMoves initialBoard (mkPos 6 4) startState (mkPiece pawn white None)
    = Some pseudo ∧
    getPossibleMoves initialBoard (mkPos 6 4) startState = Some ms ∧
    ∀ m, In m ms ↔
         In m pseudo ∧
         ∃ r, movePiece initialBoard (mkPos 6 4) m startState None = Some r ∧
              isKingInCheck (newBoard r) white startState = Some false.
Proof.
  split; [reflexivity|]. split; [reflexivity|].
  exact (legal_moves_exact initialBoard (mkPos 6 4) startState
           (mkPiece pawn white None) eq_refl eq_refl).
Defined.

(** X6. On a board of eight rows, every move [getPossibleMoves]
    returns for a piece standing on a square of the board leads to a square
    of the board other than the origin, which is empty or holds a piece of
    the other colour: no move leaves the board, stays in place or lands on a
    piece of the mover's own colour. *)
Theorem legal_moves_land_on_board :
  ∀ (b : Board) (position : Position) (gs : GameState) (piece : ChessPiece),
    eightRows b → isValidPosition position = true →
    getCell b position = Some (Some piece) →
    ∃ ms, getPossibleMoves b position gs = Some ms ∧
          ∀ m, In m ms → m ≠ position ∧ landsOn b piece m.
Proof.
  intros b position gs piece Hb Hv Hp.
  pose proof (occupied_row _ _ _ Hb Hp) as Hr.
  destruct (pseudoMoves_defined b position gs piece Hb Hr) as [pseudo Hps].
  destruct (getPossibleMoves_defined b position gs Hb Hr) as [ms Hms].
  exists ms. split; [exact Hms|]. intros m Hin.
  apply (getPossibleMoves_spec _ _ _ _ _ _ m Hp Hps Hms) in Hin.
  exact (pseudoMoves_wellformed _ _ _ _ _ _ Hv Hp Hps (proj1 Hin)).
Qed.

Lemma legal_moves_land_on_board_witness :
  eightRows castleBoard ∧ isValidPosition (mkPos 7 4) = true ∧
  getCell castleBoard (mkPos 7 4) = Some (Some (mkPiece king white None)) ∧
  ∃ ms, getPossibleMoves castleBoard (mkPos 7 4) startState = Some ms ∧
        ∀ m, In m ms → m ≠ mkPos 7 4 ∧ landsOn castleBoard (mkPiece king white None) m.
Proof.
  split; [reflexivity|]. split; [reflexivity|]. split; [reflexivity|].
  exact (legal_moves_land_on_board castleBoard (mkPos 7 4) startState
           (mkPiece king white None) eq_refl eq_refl eq_refl).
Defined.

(** ** The attack detector, square by square *)

Lemma anyM_true {A} (f : A → option bool) l :
  (∀ x, In x l → ∃ r, f x = Some r) →
  ∃ r, anyM f l = Some r ∧ (r = true ↔ ∃ x, In x l ∧ f x = Some true).
Proof.
  induction l as [|y l IH]; simpl; intros H.
  - exists false. split; [reflexivity|]. split; [discriminate|]. intros (x & [] & _).
  - destruct (H y (or_introl eq_refl)) as [[|] Hy]; rewrite Hy, bind_Some.
    + exists true. split; [reflexivity|]. split; [|reflexivity]. intros _. eauto.
    + destruct IH as (r & -> & Hr); [intros x Hx; apply H; auto|].
      exists r. split; [reflexivity|]. rewrite Hr. split.
      * intros (x & Hx & Hfx). eauto.
      * intros (x & [<-|Hx] & Hfx); [congruence|eauto].
Qed.

Lemma isPieceOf_true t c x :
  isPieceOf t c x = true ↔ ∃ q, x = Some q ∧ type q = t ∧ color q = c.
Proof.
  unfold isPieceOf. destruct x as [q|].
  - rewrite andb_true_iff, PieceType_eqb_eq, Color_eqb_eq. split.
    + intros [? ?]. eauto.
    + intros (q' & [= <-] & ? & ?). auto.
  - split; [discriminate|]. intros (q & ? & _). discriminate.
Qed.

Lemma stepHit_true t b opp sq :
  stepHit t b opp sq = Some true ↔ pieceOn b t opp sq.
Proof.
  unfold stepHit, pieceOn. destruct (isValidPosition sq).
  - destruct (getCell b sq) as [x|]; simpl.
    + split.
      * intros [= H]. apply isPieceOf_true in H. destruct H as (q & -> & ? & ?). eauto.
      * intros (_ & q & [= ->] & Ht & Hc). f_equal. apply isPieceOf_true. eauto.
    + split; [discriminate|]. intros (_ & q & ? & _). discriminate.
  - split; [discriminate|]. intros [? _]. discriminate.
Qed.

Lemma pawnDirections_watch p c q : In q (pawnDirections p c) ↔ pawnWatch c p q.
Proof.
  unfold pawnWatch, pawnDirections. destruct p as [r k], q as [r' k'].
  destruct c; simpl; split.
  - intros [[= <- <-]|[[= <- <-]|[]]]; lia.
  - intros [-> H]. assert (k' = k - 1 ∨ k' = k + 1) as [->| ->] by lia;
      [left|right; left]; f_equal; lia.
  - intros [[= <- <-]|[[= <- <-]|[]]]; lia.
  - intros [-> H]. assert (k' = k - 1 ∨ k' = k + 1) as [->| ->] by lia;
      [left|right; left]; f_equal; lia.
Qed.

Lemma rayCovers_true opp d x :
  In d slidingDirs →
  (rayCovers opp d x = true ↔
   color x = opp ∧ (type x = queen ∨ (type x = rook ∧ In d straightDirs)
                    ∨ (type x = bishop ∧ In d diagonalDirs))).
Proof.
  intros Hd. unfold rayCovers. destruct (Color_eqb (color x) opp) eqn:Hc.
  - apply Color_eqb_eq in Hc. simpl in Hd.
    repeat (destruct Hd as [<-|Hd];
            [destruct (type x); simpl; split;
             try discriminate; try (intros _; split; [exact Hc|]; tauto);
             try (intros _; reflexivity);
             intros (_ & [?|[[? H]|[? H]]]); try discriminate;
             repeat (destruct H as [H|H]; try discriminate H); destruct H|]).
    destruct Hd.
  - split; [discriminate|]. intros [Hc' _]. apply Color_eqb_eq in Hc'. congruence.
Qed.

Lemma rayHit_true_elim fuel b opp d cur :
  rayHit fuel b opp d cur = Some true →
  ∃ k x, 0 ≤ k ∧ isValidPosition (stepFrom cur d k) = true ∧
         (∀ j, 0 ≤ j < k → getCell b (stepFrom cur d j) = Some None) ∧
         getCell b (stepFrom cur d k) = Some (Some x) ∧ rayCovers opp d x = true.
Proof.
  revert cur. induction fuel as [|f IH]; intros cur; simpl; [discriminate|].
  destruct (isValidPosition cur) eqn:Hv; [|discriminate].
  destruct (getCell b cur) as [[q|]|] eqn:Hc; simpl; [| |discriminate].
  - intros [= Hq]. exists 0, q. rewrite stepFrom_zero.
    repeat split; [lia|exact Hv|intros; lia|exact Hc|exact Hq].
  - intros H. destruct (IH _ H) as (k & x & Hk & Hvk & Hclear & Hx & Hcov).
    exists (k + 1), x. rewrite <- stepFrom_next.
    repeat split; [lia|exact Hvk| |exact Hx|exact Hcov].
    intros j Hj. destruct (Z.eq_dec j 0) as [->|Hj0].
    + rewrite stepFrom_zero. exact Hc.
    + replace j with ((j - 1) + 1) by lia. rewrite <- stepFrom_next. apply Hclear. lia.
Qed.

Lemma rayHit_true_intro b opp d :
  isDirection d →
  ∀ fuel cur k x,
    (isValidPosition cur = true → edgeDistance d cur ≤ Z.of_nat fuel) →
    0 ≤ k →
    (∀ j, 0 ≤ j ≤ k → isValidPosition (stepFrom cur d j) = true) →
    (∀ j, 0 ≤ j < k → getCell b (stepFrom cur d j) = Some None) →
    getCell b (stepFrom cur d k) = Some (Some x) → rayCovers opp d x = true →
    rayHit fuel b opp d cur = Some true.
Proof.
  intros Hd. induction fuel as [|f IH]; intros cur k x Hfuel Hk Hval Hclear Hx Hcov.
  - assert (Hv : isValidPosition cur = true).
    { rewrite <- (stepFrom_zero cur d). apply Hval. lia. }
    destruct (edgeDistance_valid d cur Hd Hv) as [? _]. specialize (Hfuel Hv). lia.
  - assert (Hv : isValidPosition cur = true).
    { rewrite <- (stepFrom_zero cur d). apply Hval. lia. }
    simpl. rewrite Hv. destruct (Z.eq_dec k 0) as [->|Hk0].
    + rewrite stepFrom_zero in Hx. rewrite Hx, bind_Some, Hcov. reflexivity.
    + assert (Hc : getCell b cur = Some None).
      { rewrite <- (stepFrom_zero cur d). apply Hclear. lia. }
      rewrite Hc, bind_Some. apply (IH _ (k - 1) x).
      * intros Hv'. destruct (edgeDistance_valid d cur Hd Hv) as [_ ->].
        specialize (Hfuel Hv). lia.
      * lia.
      * intros j Hj. rewrite stepFrom_next. apply Hval. lia.
      * intros j Hj. rewrite stepFrom_next. apply Hclear. lia.
      * rewrite stepFrom_next. replace (k - 1 + 1) with k by lia. exact Hx.
      * exact Hcov.
Qed.

Lemma rayHit_true b opp p d :
  In d slidingDirs → isValidPosition p = true →
  (rayHit 8 b opp d (mkPos (row p + d.1) (col p + d.2)) = Some true ↔
   ∃ k x, 1 ≤ k ∧ isValidPosition (stepFrom p d k) = true ∧ clearBetween b p d k ∧
          getCell b (stepFrom p d k) = Some (Some x) ∧ rayCovers opp d x = true).
Proof.
  intros Hd Hv. pose proof (slidingDirs_directions d Hd) as Hdir. split.
  - intros H. destruct (rayHit_true_elim _ _ _ _ _ H) as (k & x & Hk & Hvk & Hclear & Hx & Hc).
    exists (k + 1), x. rewrite <- stepFrom_next.
    repeat split; [lia|exact Hvk| |exact Hx|exact Hc].
    intros j Hj. replace j with ((j - 1) + 1) by lia. rewrite <- stepFrom_next.
    apply Hclear. lia.
  - intros (k & x & Hk & Hvk & Hclear & Hx & Hc).
    apply (rayHit_true_intro b opp d Hdir 8%nat _ (k - 1) x).
    + intros Hv'. destruct (edgeDistance_valid d _ Hdir Hv'). simpl. lia.
    + lia.
    + intros j Hj. rewrite stepFrom_next.
      apply (stepFrom_between p d (j + 1) k Hdir Hv Hvk). lia.
    + intros j Hj. rewrite stepFrom_next. apply Hclear. lia.
    + rewrite stepFrom_next. replace (k - 1 + 1) with k by lia. exact Hx.
    + exact Hc.
Qed.

(** The result of the detector, stage by stage. *)
Lemma attack_result b position c gs :
  eightRows b → isValidPosition position = true →
  ∃ r, isPositionUnderAttack b position c gs = Some r ∧
       (r = true ↔
        (∃ q, pawnWatch c position q ∧ pieceOn b pawn (opponent c) q)
        ∨ (∃ q, knightJump position q ∧ pieceOn b knight (opponent c) q)
        ∨ (∃ q, kingNeighbour position q ∧ pieceOn b king (opponent c) q)
        ∨ rayAttack b (opponent c) position).
Proof.
  intros Hb Hv. rewrite attack_plain. unfold isPositionUnderAttackPlain.
  cbv zeta. change (pawnHitPlain b (opponent c)) with (stepHit pawn b (opponent c)).
  destruct (anyM_true (stepHit pawn b (opponent c)) (pawnDirections position c))
    as (r1 & -> & H1); [intros; apply stepHit_defined; exact Hb|].
  destruct (anyM_true (stepHit knight b (opponent c)) (knightOffsets position))
    as (r2 & E2 & H2); [intros; apply stepHit_defined; exact Hb|].
  destruct (anyM_true (stepHit king b (opponent c)) (kingOffsets position))
    as (r3 & E3 & H3); [intros; apply stepHit_defined; exact Hb|].
  destruct (anyM_true
              (λ d, rayHit 8 b (opponent c) d
                      (mkPos (row position + d.1) (col position + d.2))) slidingDirs)
    as (r4 & E4 & H4); [intros; apply rayHit_defined; exact Hb|].
  assert (P1 : r1 = true ↔ ∃ q, pawnWatch c position q ∧ pieceOn b pawn (opponent c) q).
  { rewrite H1. split; intros (q & Hq & Hh); exists q.
    - rewrite <- pawnDirections_watch, <- stepHit_true. auto.
    - rewrite pawnDirections_watch, stepHit_true. auto. }
  assert (P2 : r2 = true ↔ ∃ q, knightJump position q ∧ pieceOn b knight (opponent c) q).
  { rewrite H2. split; intros (q & Hq & Hh); exists q.
    - rewrite <- knightOffsets_jump, <- stepHit_true. auto.
    - rewrite knightOffsets_jump, stepHit_true. auto. }
  assert (P3 : r3 = true ↔ ∃ q, kingNeighbour position q ∧ pieceOn b king (opponent c) q).
  { rewrite H3. split; intros (q & Hq & Hh); exists q.
    - rewrite <- kingOffsets_neighbour, <- stepHit_true. auto.
    - rewrite kingOffsets_neighbour, stepHit_true. auto. }
  assert (P4 : r4 = true ↔ rayAttack b (opponent c) position).
  { rewrite H4. unfold rayAttack. split.
    - intros (d & Hd & Hh). apply (rayHit_true _ _ _ _ Hd Hv) in Hh.
      destruct Hh as (k & x & Hk & Hvk & Hclear & Hx & Hc).
      apply (rayCovers_true _ _ _ Hd) in Hc. destruct Hc as [Hc Hkind].
      exists d, k, x. auto 8.
    - intros (d & k & x & Hd & Hk & Hvk & Hclear & Hx & Hc & Hkind).
      exists d. split; [exact Hd|]. apply (rayHit_true _ _ _ _ Hd Hv).
      exists k, x. repeat split; try assumption.
      apply (rayCovers_true _ _ _ Hd). auto. }
  rewrite bind_Some. destruct r1.
  { exists true. split; [reflexivity|]. tauto. }
  rewrite E2, bind_Some. destruct r2.
  { exists true. split; [reflexivity|]. tauto. }
  rewrite E3, bind_Some. destruct r3.
  { exists true. split; [reflexivity|]. tauto. }
  exists r4. split; [exact E4|].
  rewrite P4. intuition discriminate.
Qed.

(** X7. On a board of eight rows [isPositionUnderAttack] returns for
    every square of the board, with the same answer whatever the game state,
    and the answer is true exactly when a piece of the opponent's colour is
    found in one of four ways: a pawn on one of the two diagonally adjacent
    squares of the row the detector inspects for the defending colour; a
    knight a knight's jump away; a king on a neighbouring square; a queen,
    rook or bishop that is the first piece met along a ray in which it
    moves. *)
Theorem attack_detector_exact :
  ∀ (b : Board) (position : Position) (c : Color),
    eightRows b → isValidPosition position = true →
    ∃ r, (∀ gs, isPositionUnderAttack b position c gs = Some r) ∧
         (r = true ↔
          (∃ q, pawnWatch c position q ∧ pieceOn b pawn (opponent c) q)
          ∨ (∃ q, knightJump position q ∧ pieceOn b knight (opponent c) q)
          ∨ (∃ q, kingNeighbour position q ∧ pieceOn b king (opponent c) q)
          ∨ rayAttack b (opponent c) position).
Proof.
  intros b position c Hb Hv.
  destruct (attack_result b position c (mkState false false false false None 0 1) Hb Hv)
    as (r & Hr & Hiff).
  exists r. split; [|exact Hiff].
  intros gs. rewrite <- Hr. apply attack_any_state.
Qed.

Lemma attack_detector_exact_witness :
  eightRows castleDeniedBoard ∧ isValidPosition (mkPos 7 6) = true ∧
  ∃ r, (∀ gs, isPositionUnderAttack castleDeniedBoard (mkPos 7 6) white gs = Some r) ∧
       (r = true ↔
        (∃ q, pawnWatch white (mkPos 7 6) q ∧ pieceOn castleDeniedBoard pawn black q)
        ∨ (∃ q, knightJump (mkPos 7 6) q ∧ pieceOn castleDeniedBoard knight black q)
        ∨ (∃ q, kingNeighbour (mkPos 7 6) q ∧ pieceOn castleDeniedBoard king black q)
        ∨ rayAttack castleDeniedBoard black (mkPos 7 6)).
Proof.
  split; [reflexivity|]. split; [reflexivity|].
  exact (attack_detector_exact castleDeniedBoard (mkPos 7 6) white eq_refl eq_refl).
Defined.

(** ** The detector against the generators of the pieces other than pawns *)

Lemma straightDirs_opposite d : In d straightDirs → In (- d.1, - d.2) straightDirs.
Proof.
  simpl. intros H. repeat (destruct H as [<-|H]; [simpl; tauto|]). destruct H.
Qed.

Lemma diagonalDirs_opposite d : In d diagonalDirs → In (- d.1, - d.2) diagonalDirs.
Proof.
  simpl. intros H. repeat (destruct H as [<-|H]; [simpl; tauto|]). destruct H.
Qed.

Lemma stepFrom_back p d k j :
  stepFrom (stepFrom p d k) (- d.1, - d.2) j = stepFrom p d (k - j).
Proof. unfold stepFrom. simpl. f_equal; lia. Qed.

(** A square to which a rook, bishop or queen slides is a square on which
    it bears: the walk of the detector from that square, in the opposite
    direction, passes the same empty squares and meets the piece. *)
Lemma slidesTo_rayAttack dirs b piece p m :
  (∀ d, In d dirs → In d straightDirs ∨ In d diagonalDirs) →
  (type piece = queen
   ∨ (type piece = rook ∧ ∀ d, In d dirs → In d straightDirs)
   ∨ (type piece = bishop ∧ ∀ d, In d dirs → In d diagonalDirs)) →
  isValidPosition p = true → getCell b p = Some (Some piece) →
  slidesTo dirs b piece p m → rayAttack b (color piece) m.
Proof.
  intros Hdirs Hkind Hv Hp (d & k & Hd & Hk & -> & Hvm & Hclear & _).
  assert (Hback : stepFrom (stepFrom p d k) (- d.1, - d.2) k = p).
  { rewrite stepFrom_back. replace (k - k) with 0 by lia. apply stepFrom_zero. }
  exists (- d.1, - d.2), k, piece. rewrite Hback.
  assert (Hopp : (In d straightDirs → In (- d.1, - d.2) straightDirs) ∧
                 (In d diagonalDirs → In (- d.1, - d.2) diagonalDirs))
    by (split; [apply straightDirs_opposite|apply diagonalDirs_opposite]).
  repeat split.
  - unfold slidingDirs. apply in_or_app. destruct (Hdirs d Hd); [left|right]; tauto.
  - exact Hk.
  - exact Hv.
  - intros j Hj. rewrite stepFrom_back. apply Hclear. lia.
  - exact Hp.
  - destruct Hkind as [?|[[? Hs]|[? Hs]]]; [tauto| |].
    + right; left. split; [assumption|]. apply Hopp, Hs, Hd.
    + right; right. split; [assumption|]. apply Hopp, Hs, Hd.
Qed.

Lemma knightJump_sym p m : knightJump p m → knightJump m p.
Proof. unfold knightJump. lia. Qed.

Lemma kingNeighbour_sym p m : kingNeighbour p m → kingNeighbour m p.
Proof. unfold kingNeighbour. intros (? & ? & Hne). repeat split; try lia. congruence. Qed.

(** X8. The attack detector agrees with the generators of the pieces
    other than pawns.  On a board of eight rows, if a knight, bishop, rook,
    queen or king standing on the board is offered a square by its
    generator (for a king: a neighbouring square, not a castling square),
    then [isPositionUnderAttack] reports that square as attacked when the
    other colour defends it, whatever the game state. *)
Theorem generated_moves_are_attacks :
  ∀ (b : Board) (position : Position) (gs gs' : GameState) (piece : ChessPiece)
    (c : Color) (ms : list Position) (m : Position),
    eightRows b → isValidPosition position = true →
    getCell b position = Some (Some piece) → color piece = opponent c →
    type piece ≠ pawn →
    pseudoMoves b position gs piece = Some ms → In m ms →
    (type piece = king → kingNeighbour position m) →
    isPositionUnderAttack b m c gs' = Some true.
Proof.
  intros b position gs gs' piece c ms m Hb Hv Hp Hc Hnp Hps Hin Hking.
  destruct (pseudoMoves_wellformed _ _ _ _ _ _ Hv Hp Hps Hin) as [_ [Hvm _]].
  destruct (attack_result b m c gs' Hb Hvm) as (r & Hr & Hiff).
  rewrite Hr. f_equal. apply Hiff. clear Hiff Hr r. rewrite <- Hc.
  assert (Hon : ∀ t, type piece = t → pieceOn b t (color piece) position).
  { intros t Ht. split; [exact Hv|]. exists piece. auto. }
  assert (Hs : ∀ d, In d straightDirs → In d straightDirs ∨ In d diagonalDirs) by auto.
  assert (Hd : ∀ d, In d diagonalDirs → In d straightDirs ∨ In d diagonalDirs) by auto.
  unfold pseudoMoves in Hps. destruct (type piece) eqn:Ht.
  - contradiction Hnp. reflexivity.
  - apply (slideMoves_spec straightDirs _ _ piece _ m straightDirs_directions Hv Hp Hps) in Hin.
    right; right; right.
    apply (slidesTo_rayAttack straightDirs b piece position m Hs); auto.
  - unfold getKnightMoves in Hps. rewrite Hp, bind_Some in Hps.
    apply (stepMoves_spec _ _ _ _ m Hps) in Hin. destruct Hin as [Hj _].
    apply knightOffsets_jump, knightJump_sym in Hj.
    right; left. exists position. auto.
  - apply (slideMoves_spec diagonalDirs _ _ piece _ m diagonalDirs_directions Hv Hp Hps) in Hin.
    right; right; right.
    apply (slidesTo_rayAttack diagonalDirs b piece position m Hd); auto.
  - unfold getQueenMoves, getRookMoves, getBishopMoves in Hps.
    destruct (slideMoves straightDirs b position) as [rs|] eqn:Er; [|discriminate].
    rewrite bind_Some in Hps.
    destruct (slideMoves diagonalDirs b position) as [bs|] eqn:Eb; [|discriminate].
    rewrite bind_Some in Hps. injection Hps as <-. apply in_app_or in Hin.
    right; right; right. destruct Hin as [Hin|Hin].
    + apply (slideMoves_spec straightDirs _ _ piece _ m straightDirs_directions Hv Hp Er) in Hin.
      apply (slidesTo_rayAttack straightDirs b piece position m Hs); auto.
    + apply (slideMoves_spec diagonalDirs _ _ piece _ m diagonalDirs_directions Hv Hp Eb) in Hin.
      apply (slidesTo_rayAttack diagonalDirs b piece position m Hd); auto.
  - right; right; left. exists position. split; [|auto].
    apply kingNeighbour_sym. apply Hking. reflexivity.
Qed.

Lemma generated_moves_are_attacks_witness :
  isPositionUnderAttack castleDeniedBoard (mkPos 7 6) white startState = Some true.
Proof.
  apply (generated_moves_are_attacks castleDeniedBoard (mkPos 0 6) quietState startState
           (mkPiece rook black (Some true)) white
           [mkPos 1 6; mkPos 2 6; mkPos 3 6; mkPos 4 6; mkPos 5 6; mkPos 6 6; mkPos 7 6;
            mkPos 0 5; mkPos 0 7]
           (mkPos 7 6)).
  - reflexivity.
  - reflexivity.
  - reflexivity.
  - reflexivity.
  - discriminate.
  - vm_compute. reflexivity.
  - simpl. tauto.
  - discriminate.
Defined.

(** ** The executor: the board after an ordinary move *)

Lemma occupied_col (b : Board) p x : getCell b p = Some (Some x) → 0 ≤ col p.
Proof.
  unfold getCell. destruct (rowAt b (row p)) as [l|]; simpl; [|discriminate].
  unfold colAt. destruct (Z.leb_spec 0 (col p)); [lia|discriminate].
Qed.

Lemma getCell_setCell_eqb (b b' : Board) p v q :
  0 ≤ col p → setCell b p v = Some b' →
  getCell b' q = if Position_eqb q p then Some v else getCell b q.
Proof.
  intros Hc H. rewrite (getCell_setCell _ _ _ _ q H). unfold Position_eqb.
  destruct (Z.leb_spec 0 (col p)); [|lia]. rewrite andb_true_r. reflexivity.
Qed.

Lemma pawnStep_plain nb piece from to gs0 gs promo :
  hitsEnPassant gs0 to = false →
  ∃ gs1, pawnStep nb piece from to gs0 gs promo
         = Some (nb, gs1,
                 if (Color_eqb (color piece) white && (row to =? 0))
                    || (Color_eqb (color piece) black && (row to =? 7))
                 then setType piece (default queen promo) else piece).
Proof. intros H. unfold pawnStep. rewrite H, bind_Some. eauto. Qed.

(** X9. The board after an ordinary move.  On a board of eight rows,
    for a piece on [from] and a destination on the board, when the move is
    neither a pawn move onto the en-passant target nor a two-column move of
    a king, [movePiece] returns a board that differs from the input only on
    the two squares: [from] is empty and [to] holds the piece, marked as
    moved and, for a pawn arriving on its far row, turned into the chosen
    kind (a queen by default).  The piece found on [to] is returned as the
    captured piece.  With [to] equal to [from] the piece is lost. *)
Theorem ordinary_move_board :
  ∀ (b : Board) (from to : Position) (gs : GameState) (promo : option PieceType)
    (piece : ChessPiece),
    eightRows b → getCell b from = Some (Some piece) → isValidPosition to = true →
    ¬ (type piece = pawn ∧ hitsEnPassant gs to = true) →
    ¬ (type (arrivingPiece piece to promo) = king ∧ Z.abs (col from - col to) = 2) →
    ∃ r, movePiece b from to gs promo = Some r ∧
         movedOnly b (newBoard r) from to (arrivingPiece piece to promo) ∧
         getCell b to = Some (capturedPiece r).
Proof.
  intros b from to gs promo piece Hb Hp Hv Hep Hcastle.
  pose proof (occupied_row _ _ _ Hb Hp) as Hrf. pose proof (occupied_col _ _ _ Hp) as Hcf.
  apply valid_cases in Hv as [Hrt Hct].
  assert (Hdef : ∃ r, movePiece b from to gs promo = Some r).
  { destruct (movePiece_defined b from to gs promo piece Hb Hp Hrt) as (r & Hr & _);
      [|eauto]. intros Ht He. contradiction Hep. auto. }
  destruct Hdef as [r Hr]. exists r. split; [exact Hr|].
  split; [|exact (movePiece_captured _ _ _ _ _ _ _ Hp Hr)].
  rewrite (movePiece_occupied _ _ _ _ _ _ Hp) in Hr.
  destruct (getCell b to) as [captured|]; [|discriminate]. rewrite bind_Some in Hr.
  cbv zeta in Hr. unfold arrivingPiece, promotes in *.
  set (gsB := if Color_eqb (color piece) black then _ else _) in Hr.
  assert (H1 : ∃ gsC,
    (if PieceType_eqb (type piece) pawn
     then pawnStep b piece from to gs gsB promo
     else Some (b, setEnPassantTarget gsB None, piece))
    = Some (b, gsC,
            if PieceType_eqb (type piece) pawn
               && ((Color_eqb (color piece) white && (row to =? 0))
                   || (Color_eqb (color piece) black && (row to =? 7)))
            then setType piece (default queen promo) else piece)).
  { destruct (PieceType_eqb (type piece) pawn) eqn:Et; [|simpl; eauto].
    apply PieceType_eqb_eq in Et. simpl andb. apply pawnStep_plain.
    destruct (hitsEnPassant gs to); [|reflexivity]. contradiction Hep. auto. }
  destruct H1 as [gsC H1]. rewrite H1, bind_Some in Hr. cbv beta iota in Hr.
  set (piece1 := if _ && _ then _ else piece) in *.
  assert (H2 : ∃ gsD,
    (if PieceType_eqb (type piece1) king
     then kingStep b piece1 (setHasMoved piece1) from to gsC
     else Some (b, gsC)) = Some (b, gsD)).
  { destruct (PieceType_eqb (type piece1) king) eqn:Ek; [|eauto].
    apply PieceType_eqb_eq in Ek. unfold kingStep.
    destruct (Z.eqb_spec (Z.abs (col from - col to)) 2) as [E2|E2]; [|eauto].
    contradiction Hcastle. auto. }
  destruct H2 as [gsD H2]. rewrite H2, bind_Some in Hr. cbv beta iota in Hr.
  destruct (setCell b to (Some (setHasMoved piece1))) as [nb3|] eqn:E3; [|discriminate].
  rewrite bind_Some in Hr.
  destruct (setCell nb3 from None) as [nb4|] eqn:E4; [|discriminate].
  rewrite bind_Some in Hr. injection Hr as <-. simpl. intros q.
  rewrite (getCell_setCell_eqb _ _ _ _ q Hcf E4).
  rewrite (getCell_setCell_eqb _ _ _ _ q (proj1 Hct) E3). reflexivity.
Qed.

Lemma ordinary_move_board_witness :
  let piece := mkPiece knight white None in
  ∃ r, movePiece initialBoard (mkPos 7 1) (mkPos 5 2) startState None = Some r ∧
       movedOnly initialBoard (newBoard r) (mkPos 7 1) (mkPos 5 2)
         (arrivingPiece piece (mkPos 5 2) None) ∧
       getCell initialBoard (mkPos 5 2) = Some (capturedPiece r).
Proof.
  apply (ordinary_move_board initialBoard (mkPos 7 1) (mkPos 5 2) startState None
           (mkPiece knight white None)).
  - reflexivity.
  - reflexivity.
  - reflexivity.
  - intros [H _]. discriminate H.
  - intros [H _]. discriminate H.
Defined.

(** ** The executor: the board after a two-column king move *)

(** X10. On a board of eight rows, when a king is moved two columns to
    a square of the board, [movePiece] returns, and besides moving the king
    it relocates whatever stands on the corner of the king's row on that
    side (column 7 toward higher columns, column 0 otherwise) to the square
    next to the king's origin on that side (column 5 or 3) and empties the
    corner; it checks neither that a rook stands there nor that the path is
    free, and the relocated piece is not marked as moved. *)
Theorem castling_move_board :
  ∀ (b : Board) (from to : Position) (gs : GameState) (promo : option PieceType)
    (piece : ChessPiece),
    eightRows b → getCell b from = Some (Some piece) → type piece = king →
    isValidPosition to = true → Z.abs (col from - col to) = 2 →
    ∃ r, movePiece b from to gs promo = Some r ∧
         castledBoard b (newBoard r) from to (setHasMoved piece) ∧
         getCell b to = Some (capturedPiece r).
Proof.
  intros b from to gs promo piece Hb Hp Ht Hv H2.
  pose proof (occupied_row _ _ _ Hb Hp) as Hrf. pose proof (occupied_col _ _ _ Hp) as Hcf.
  apply valid_cases in Hv as [Hrt Hct].
  destruct (movePiece_defined b from to gs promo piece Hb Hp Hrt) as (r & Hr & _).
  { intros Hpawn. congruence. }
  exists r. split; [exact Hr|].
  split; [|exact (movePiece_captured _ _ _ _ _ _ _ Hp Hr)].
  rewrite (movePiece_occupied _ _ _ _ _ _ Hp) in Hr.
  destruct (getCell b to) as [captured|]; [|discriminate]. rewrite bind_Some in Hr.
  cbv zeta in Hr. rewrite Ht in Hr. simpl PieceType_eqb in Hr. cbv iota in Hr.
  rewrite bind_Some in Hr. cbv beta iota in Hr. rewrite Ht in Hr.
  simpl PieceType_eqb in Hr. cbv iota in Hr.
  unfold kingStep in Hr. rewrite (proj2 (Z.eqb_eq _ _) H2) in Hr. cbv iota in Hr.
  unfold castledBoard.
  set (rookCol := if col from <? col to then 7 else 0) in *.
  set (rookToCol := if col from <? col to then 5 else 3) in *.
  assert (Hne : (col from =? rookCol) = false).
  { apply Z.eqb_neq. subst rookCol. destruct (Z.ltb_spec (col from) (col to)); lia. }
  assert (H0 : 0 ≤ rookCol ∧ 0 ≤ rookToCol).
  { subst rookCol rookToCol. destruct (col from <? col to); lia. }
  rewrite Hne in Hr.
  destruct (getCell b (mkPos (row from) rookCol)) as [rk|] eqn:Erk; [|simpl in Hr; discriminate Hr].
  rewrite bind_Some in Hr.
  destruct (setCell b (mkPos (row from) rookToCol) rk) as [nb1|] eqn:E1; [|simpl in Hr; discriminate Hr].
  rewrite bind_Some in Hr.
  destruct (setCell nb1 (mkPos (row from) rookCol) None) as [nb2|] eqn:E2; [|simpl in Hr; discriminate Hr].
  rewrite !bind_Some in Hr. cbv beta iota in Hr.
  destruct (setCell nb2 to (Some (setHasMoved piece))) as [nb3|] eqn:E3; [|simpl in Hr; discriminate Hr].
  rewrite bind_Some in Hr.
  destruct (setCell nb3 from None) as [nb4|] eqn:E4; [|simpl in Hr; discriminate Hr].
  rewrite bind_Some in Hr. injection Hr as <-. simpl. intros q.
  rewrite (getCell_setCell_eqb _ _ _ _ q Hcf E4).
  rewrite (getCell_setCell_eqb _ _ _ _ q (proj1 Hct) E3).
  rewrite (getCell_setCell_eqb nb1 nb2 (mkPos (row from) rookCol) None q (proj1 H0) E2).
  rewrite (getCell_setCell_eqb b nb1 (mkPos (row from) rookToCol) rk q (proj2 H0) E1).
  reflexivity.
Qed.

Lemma castling_move_board_witness :
  ∃ r, movePiece castleBoard (mkPos 7 4) (mkPos 7 6) startState None = Some r ∧
       castledBoard castleBoard (newBoard r) (mkPos 7 4) (mkPos 7 6)
         (setHasMoved (mkPiece king white None)) ∧
       getCell castleBoard (mkPos 7 6) = Some (capturedPiece r).
Proof.
  apply (castling_move_board castleBoard (mkPos 7 4) (mkPos 7 6) startState None
           (mkPiece king white None)); reflexivity.
Defined.

(** ** The executor: the state after a move *)

Lemma pawnStep_state nb piece from to gs0 gs promo nb1 gs1 piece1 :
  pawnStep nb piece from to gs0 gs promo = Some (nb1, gs1, piece1) →
  gs1 = setEnPassantTarget gs
          (if Z.abs (row from - row to) =? 2
           then Some (squarePassedOver (color piece) from) else None) ∧
  piece1 = (if (Color_eqb (color piece) white && (row to =? 0))
               || (Color_eqb (color piece) black && (row to =? 7))
            then setType piece (default queen promo) else piece).
Proof.
  unfold pawnStep. intros H. bind_inv H. injection H as _ <- <-.
  split; [|reflexivity]. destruct (_ =? 2); [|reflexivity].
  unfold squarePassedOver. destruct (color piece); simpl; reflexivity.
Qed.

Lemma kingStep_state nb piece moved from to gs nb1 gs1 :
  kingStep nb piece moved from to gs = Some (nb1, gs1) →
  gs1 = clearQueenside (color piece) (clearKingside (color piece) gs).
Proof.
  unfold kingStep. intros H. destruct (_ =? 2).
  - repeat bind_inv H. injection H as _ <-. reflexivity.
  - injection H as _ <-. reflexivity.
Qed.

(** The returned state depends on the board only through the piece moved
    and the piece captured. *)
Lemma movePiece_state b from to gs promo piece r :
  getCell b from = Some (Some piece) →
  movePiece b from to gs promo = Some r →
  newGameState r = stateAfter gs piece (capturedPiece r) from to promo.
Proof.
  intros Hp H. pose proof (movePiece_captured _ _ _ _ _ _ _ Hp H) as Hcap.
  rewrite (movePiece_occupied _ _ _ _ _ _ Hp) in H. rewrite Hcap, bind_Some in H.
  cbv zeta in H. unfold stateAfter, arrivingPiece, promotes. cbv zeta.
  set (gsB := if Color_eqb (color piece) black then _ else _) in *.
  match type of H with (?m ≫= _) = _ =>
    destruct m as [[[nb1 gsC] piece1]|] eqn:E1 end; [|discriminate H].
  rewrite bind_Some in H. cbv beta iota in H.
  match type of H with (?m ≫= _) = _ =>
    destruct m as [[nb2 gsD]|] eqn:E2 end; [|discriminate H].
  rewrite bind_Some in H. cbv beta iota in H.
  repeat bind_inv H. injection H as <-. simpl newGameState. simpl capturedPiece.
  assert (H1 : gsC = setEnPassantTarget gsB
                 (if PieceType_eqb (type piece) pawn && (Z.abs (row from - row to) =? 2)
                  then Some (squarePassedOver (color piece) from) else None) ∧
               piece1 = (if PieceType_eqb (type piece) pawn
                            && ((Color_eqb (color piece) white && (row to =? 0))
                                || (Color_eqb (color piece) black && (row to =? 7)))
                         then setType piece (default queen promo) else piece)).
  { destruct (PieceType_eqb (type piece) pawn).
    - simpl andb. exact (pawnStep_state _ _ _ _ _ _ _ _ _ _ E1).
    - injection E1 as _ <- <-. auto. }
  destruct H1 as [-> ->].
  set (piece1 := if _ && _ then _ else piece) in *.
  assert (Hc1 : color piece1 = color piece).
  { assert (Hany : ∀ t : bool,
      color (if t then setType piece (default queen promo) else piece) = color piece)
      by (intros []; reflexivity).
    apply Hany. }
  change (type (setHasMoved piece1)) with (type piece1).
  assert (H2 : gsD = if PieceType_eqb (type piece1) king
                     then clearQueenside (color piece) (clearKingside (color piece)
                            (setEnPassantTarget gsB
                               (if PieceType_eqb (type piece) pawn
                                   && (Z.abs (row from - row to) =? 2)
                                then Some (squarePassedOver (color piece) from) else None)))
                     else setEnPassantTarget gsB
                            (if PieceType_eqb (type piece) pawn
                                && (Z.abs (row from - row to) =? 2)
                             then Some (squarePassedOver (color piece) from) else None)).
  { destruct (PieceType_eqb (type piece1) king).
    - pose proof (kingStep_state _ _ _ _ _ _ _ _ E2) as Hk. rewrite Hc1 in Hk. exact Hk.
    - injection E2 as _ <-. reflexivity. }
  rewrite H2, Hc1. reflexivity.
Qed.

(** ** The executor: clocks and castling rights *)

Lemma clocks_clearKingside c g :
  halfMoveClock (clearKingside c g) = halfMoveClock g ∧
  fullMoveNumber (clearKingside c g) = fullMoveNumber g.
Proof. destruct c; auto. Qed.

Lemma clocks_clearQueenside c g :
  halfMoveClock (clearQueenside c g) = halfMoveClock g ∧
  fullMoveNumber (clearQueenside c g) = fullMoveNumber g.
Proof. destruct c; auto. Qed.

Lemma clocks_rookSquareForfeit c sq g :
  halfMoveClock (rookSquareForfeit c sq g) = halfMoveClock g ∧
  fullMoveNumber (rookSquareForfeit c sq g) = fullMoveNumber g.
Proof.
  unfold rookSquareForfeit.
  destruct (_ && _); [apply clocks_clearQueenside|].
  destruct (_ && _); [apply clocks_clearKingside|auto].
Qed.

Lemma clocks_stateAfter gs piece captured from to promo :
  halfMoveClock (stateAfter gs piece captured from to promo)
  = (if PieceType_eqb (type piece) pawn || isOccupied captured
     then 0 else increment (halfMoveClock gs)) ∧
  fullMoveNumber (stateAfter gs piece captured from to promo)
  = (if Color_eqb (color piece) black
     then increment (fullMoveNumber gs) else fullMoveNumber gs).
Proof.
  unfold stateAfter. cbv zeta.
  set (gsC := setEnPassantTarget _ _).
  assert (HC : halfMoveClock gsC
               = (if PieceType_eqb (type piece) pawn || isOccupied captured
                  then 0 else increment (halfMoveClock gs)) ∧
               fullMoveNumber gsC
               = (if Color_eqb (color piece) black
                  then increment (fullMoveNumber gs) else fullMoveNumber gs)).
  { subst gsC. simpl.
    destruct (Color_eqb (color piece) black),
             (PieceType_eqb (type piece) pawn || isOccupied captured); auto. }
  clearbody gsC.
  set (gsD := if PieceType_eqb (type (arrivingPiece piece to promo)) king then _ else gsC).
  assert (HD : halfMoveClock gsD = halfMoveClock gsC ∧ fullMoveNumber gsD = fullMoveNumber gsC).
  { subst gsD. destruct (PieceType_eqb _ king); [|auto].
    destruct (clocks_clearQueenside (color piece) (clearKingside (color piece) gsC)) as [-> ->].
    apply clocks_clearKingside. }
  clearbody gsD.
  set (gsE := if PieceType_eqb (type (arrivingPiece piece to promo)) rook then _ else gsD).
  assert (HE : halfMoveClock gsE = halfMoveClock gsD ∧ fullMoveNumber gsE = fullMoveNumber gsD).
  { subst gsE. destruct (PieceType_eqb _ rook); [|auto]. apply clocks_rookSquareForfeit. }
  clearbody gsE.
  assert (HF : ∀ g', (g' = gsE ∨ ∃ c sq, g' = rookSquareForfeit c sq gsE) →
                     halfMoveClock g' = halfMoveClock gsE ∧
                     fullMoveNumber g' = fullMoveNumber gsE).
  { intros g' [->|(c & sq & ->)]; [auto|apply clocks_rookSquareForfeit]. }
  destruct HC as [<- <-], HD as [<- <-], HE as [<- <-]. apply HF.
  destruct captured as [cp|]; [|auto]. destruct (PieceType_eqb (type cp) rook); eauto.
Qed.

(** Incrementing a number that holds an integer is exact from [-2^53] up
    to [2^53 - 1]; at [2^53] the sum is rounded back to [2^53]. *)
Lemma increment_exact n : - 2 ^ 53 ≤ n < 2 ^ 53 → increment n = n + 1.
Proof.
  intros H. unfold increment, roundToDouble. cbv zeta.
  change (2 ^ 53) with 9007199254740992 in *.
  destruct (Z.abs (n + 1) <? 9007199254740992) eqn:E; [reflexivity|].
  apply Z.ltb_ge in E.
  assert (Hn : n = 9007199254740991) by lia. subst n.
  vm_compute. reflexivity.
Qed.

Lemma increment_at_limit : increment (2 ^ 53) = 2 ^ 53.
Proof. vm_compute. reflexivity. Qed.

Lemma incremented_clock (old new : Z) :
  new = increment old →
  new = increment old ∧
  (- 2 ^ 53 ≤ old < 2 ^ 53 → new = old + 1) ∧
  (old = 2 ^ 53 → new = 2 ^ 53).
Proof.
  intros ->. split; [reflexivity|]. split.
  - apply increment_exact.
  - intros ->. apply increment_at_limit.
Qed.

(** X12. When [movePiece] executes a move of a piece, the half-move
    clock of the returned state is 0 if the piece is a pawn or a piece stood
    on the destination, and the previous value incremented otherwise; the
    full-move number is the previous value incremented if the piece is black
    and unchanged if it is white.  Incrementing is [++] on a double: one
    more than the previous value when that value lies from [-2^53] up to
    [2^53 - 1], and [2^53] again when it is [2^53]. *)
Theorem move_updates_clocks :
  ∀ (b : Board) (from to : Position) (gs : GameState) (promo : option PieceType)
    (piece : ChessPiece) (r : MoveResult),
    getCell b from = Some (Some piece) →
    movePiece b from to gs promo = Some r →
    (type piece = pawn ∨ (∃ x, getCell b to = Some (Some x)) →
     halfMoveClock (newGameState r) = 0) ∧
    (type piece ≠ pawn → getCell b to = Some None →
     halfMoveClock (newGameState r) = increment (halfMoveClock gs) ∧
     (- 2 ^ 53 ≤ halfMoveClock gs < 2 ^ 53 →
      halfMoveClock (newGameState r) = halfMoveClock gs + 1) ∧
     (halfMoveClock gs = 2 ^ 53 → halfMoveClock (newGameState r) = 2 ^ 53)) ∧
    (color piece = black →
     fullMoveNumber (newGameState r) = increment (fullMoveNumber gs) ∧
     (- 2 ^ 53 ≤ fullMoveNumber gs < 2 ^ 53 →
      fullMoveNumber (newGameState r) = fullMoveNumber gs + 1) ∧
     (fullMoveNumber gs = 2 ^ 53 → fullMoveNumber (newGameState r) = 2 ^ 53)) ∧
    (color piece = white → fullMoveNumber (newGameState r) = fullMoveNumber gs).
Proof.
  intros b from to gs promo piece r Hp H.
  pose proof (movePiece_captured _ _ _ _ _ _ _ Hp H) as Hcap.
  rewrite (movePiece_state _ _ _ _ _ _ _ Hp H).
  destruct (clocks_stateAfter gs piece (capturedPiece r) from to promo) as [-> ->].
  rewrite Hcap. split; [|split; [|split]].
  - intros [Ht|(x & Hx)].
    + rewrite Ht. reflexivity.
    + injection Hx as ->. simpl. rewrite orb_true_r. reflexivity.
  - intros Ht Hx. injection Hx as ->. apply incremented_clock.
    destruct (PieceType_eqb (type piece) pawn) eqn:E; [|reflexivity].
    apply PieceType_eqb_eq in E. contradiction.
  - intros ->. apply incremented_clock. reflexivity.
  - intros ->. reflexivity.
Qed.

Lemma move_updates_clocks_witness :
  ∃ r, movePiece initialBoard (mkPos 1 4) (mkPos 3 4) startState None = Some r ∧
       halfMoveClock (newGameState r) = 0 ∧ fullMoveNumber (newGameState r) = 2.
Proof.
  destruct (movePiece initialBoard (mkPos 1 4) (mkPos 3 4) startState None) as [r|] eqn:H;
    [|vm_compute in H; discriminate H].
  exists r. split; [reflexivity|].
  destruct (move_updates_clocks initialBoard (mkPos 1 4) (mkPos 3 4) startState None
              (mkPiece pawn black None) r eq_refl H) as (H0 & _ & H1 & _).
  split; [apply H0; left; reflexivity|].
  destruct (H1 eq_refl) as (_ & Hexact & _). apply Hexact.
  change (2 ^ 53) with 9007199254740992. simpl. lia.
Defined.

Lemma kingside_clearKingside c c' g :
  canCastleKingside c (clearKingside c' g) = canCastleKingside c g && negb (Color_eqb c' c).
Proof. destruct c, c', g; simpl; rewrite ?andb_true_r, ?andb_false_r; reflexivity. Qed.

Lemma kingside_clearQueenside c c' g :
  canCastleKingside c (clearQueenside c' g) = canCastleKingside c g.
Proof. destruct c, c'; reflexivity. Qed.

Lemma queenside_clearQueenside c c' g :
  canCastleQueenside c (clearQueenside c' g)
  = canCastleQueenside c g && negb (Color_eqb c' c).
Proof. destruct c, c', g; simpl; rewrite ?andb_true_r, ?andb_false_r; reflexivity. Qed.

Lemma queenside_clearKingside c c' g :
  canCastleQueenside c (clearKingside c' g) = canCastleQueenside c g.
Proof. destruct c, c'; reflexivity. Qed.

Lemma kingside_rookSquareForfeit c c' sq g :
  canCastleKingside c (rookSquareForfeit c' sq g)
  = canCastleKingside c g
    && negb (Color_eqb c' c && (row sq =? homeRow c') && (col sq =? 7)).
Proof.
  unfold rookSquareForfeit.
  destruct (Z.eqb_spec (row sq) (homeRow c')), (Z.eqb_spec (col sq) 0),
           (Z.eqb_spec (col sq) 7); try lia; simpl;
    rewrite ?kingside_clearQueenside, ?kingside_clearKingside,
            ?andb_false_r, ?andb_true_r; reflexivity.
Qed.

Lemma queenside_rookSquareForfeit c c' sq g :
  canCastleQueenside c (rookSquareForfeit c' sq g)
  = canCastleQueenside c g
    && negb (Color_eqb c' c && (row sq =? homeRow c') && (col sq =? 0)).
Proof.
  unfold rookSquareForfeit.
  destruct (Z.eqb_spec (row sq) (homeRow c')), (Z.eqb_spec (col sq) 0),
           (Z.eqb_spec (col sq) 7); try lia; simpl;
    rewrite ?queenside_clearQueenside, ?queenside_clearKingside,
            ?andb_false_r, ?andb_true_r; reflexivity.
Qed.

Lemma corner_eqb c k sq :
  (row sq =? homeRow c) && (col sq =? k) = true ↔ sq = mkPos (homeRow c) k.
Proof.
  rewrite andb_true_iff, !Z.eqb_eq. destruct sq as [r c0]. simpl. split.
  - intros [-> ->]. reflexivity.
  - intros [= -> ->]. auto.
Qed.

(** The events of [givesUp], as the tests of the executor. *)
Lemma givesUp_tests c k arrived captured from to :
  givesUp c k arrived captured from to ↔
  (PieceType_eqb (type arrived) king && Color_eqb (color arrived) c
   || PieceType_eqb (type arrived) rook
      && (Color_eqb (color arrived) c && (row from =? homeRow (color arrived))
          && (col from =? k))
   || match captured with
      | Some cp => PieceType_eqb (type cp) rook
                   && (Color_eqb (color cp) c && (row to =? homeRow (color cp))
                       && (col to =? k))
      | None => false
      end) = true.
Proof.
  assert (Hcorner : ∀ c' sq,
    Color_eqb c' c && (row sq =? homeRow c') && (col sq =? k) = true ↔
    c' = c ∧ sq = mkPos (homeRow c) k).
  { intros c' sq. rewrite <- andb_assoc, andb_true_iff, Color_eqb_eq. split.
    - intros [-> H]. apply corner_eqb in H. auto.
    - intros [-> H]. split; [reflexivity|]. apply corner_eqb. exact H. }
  unfold givesUp.
  rewrite !orb_true_iff, (andb_true_iff (PieceType_eqb (type arrived) king)),
    (andb_true_iff (PieceType_eqb (type arrived) rook)), !PieceType_eqb_eq,
    Color_eqb_eq, Hcorner.
  assert (Hcap : (∃ cp, captured = Some cp ∧ color cp = c ∧ type cp = rook
                        ∧ to = mkPos (homeRow c) k) ↔
                 match captured with
                 | Some cp => PieceType_eqb (type cp) rook
                              && (Color_eqb (color cp) c && (row to =? homeRow (color cp))
                                  && (col to =? k))
                 | None => false
                 end = true).
  { destruct captured as [cp|].
    - rewrite andb_true_iff, PieceType_eqb_eq, Hcorner. split.
      + intros (cp' & [= <-] & ? & ? & ?). auto.
      + intros (? & ? & ?). exists cp. auto.
    - split; [intros (cp & ? & _); discriminate|discriminate]. }
  rewrite Hcap. tauto.
Qed.

Lemma rights_stateAfter gs piece captured from to promo c :
  let arrived := arrivingPiece piece to promo in
  canCastleKingside c (stateAfter gs piece captured from to promo)
  = canCastleKingside c gs
    && negb (PieceType_eqb (type arrived) king && Color_eqb (color arrived) c
             || PieceType_eqb (type arrived) rook
                && (Color_eqb (color arrived) c && (row from =? homeRow (color arrived))
                    && (col from =? 7))
             || match captured with
                | Some cp => PieceType_eqb (type cp) rook
                             && (Color_eqb (color cp) c && (row to =? homeRow (color cp))
                                 && (col to =? 7))
                | None => false
                end) ∧
  canCastleQueenside c (stateAfter gs piece captured from to promo)
  = canCastleQueenside c gs
    && negb (PieceType_eqb (type arrived) king && Color_eqb (color arrived) c
             || PieceType_eqb (type arrived) rook
                && (Color_eqb (color arrived) c && (row from =? homeRow (color arrived))
                    && (col from =? 0))
             || match captured with
                | Some cp => PieceType_eqb (type cp) rook
                             && (Color_eqb (color cp) c && (row to =? homeRow (color cp))
                                 && (col to =? 0))
                | None => false
                end).
Proof.
  intros arrived. unfold stateAfter. cbv zeta. fold arrived.
  assert (Hca : color arrived = color piece).
  { subst arrived. unfold arrivingPiece. destruct (promotes piece to); reflexivity. }
  rewrite Hca.
  set (gsC := setEnPassantTarget _ _).
  assert (HC : canCastleKingside c gsC = canCastleKingside c gs ∧
               canCastleQueenside c gsC = canCastleQueenside c gs).
  { subst gsC. destruct c; simpl;
      destruct (Color_eqb (color piece) black),
               (PieceType_eqb (type piece) pawn || isOccupied captured); auto. }
  destruct HC as [<- <-]. clearbody gsC.
  destruct captured as [cp|]; [destruct (PieceType_eqb (type cp) rook)|];
    destruct (PieceType_eqb (type arrived) rook), (PieceType_eqb (type arrived) king);
    rewrite ?kingside_rookSquareForfeit, ?queenside_rookSquareForfeit,
            ?kingside_clearQueenside, ?queenside_clearQueenside,
            ?kingside_clearKingside, ?queenside_clearKingside;
    simpl andb; simpl orb;
    split;
    repeat match goal with
    | |- context [Color_eqb ?a ?b] => destruct (Color_eqb a b)
    | |- context [(?a =? ?b)] => destruct (a =? b)
    | |- context [canCastleKingside ?a ?b] => destruct (canCastleKingside a b)
    | |- context [canCastleQueenside ?a ?b] => destruct (canCastleQueenside a b)
    end; reflexivity.
Qed.

(** X13. When [movePiece] executes a move of a piece, each castling
    right of the returned state is held exactly when it was held before and
    the move does not give it up: a right of a colour is given up when a
    king of that colour is the piece arriving (a pawn promoted to a king
    included), when a rook of that colour leaves the corner of that side on
    its home row, or when a rook of that colour is captured on that corner. *)
Theorem castling_rights_exact :
  ∀ (b : Board) (from to : Position) (gs : GameState) (promo : option PieceType)
    (piece : ChessPiece) (r : MoveResult) (c : Color),
    getCell b from = Some (Some piece) →
    movePiece b from to gs promo = Some r →
    (canCastleKingside c (newGameState r) = true ↔
     canCastleKingside c gs = true ∧
     ¬ givesUp c 7 (arrivingPiece piece to promo) (capturedPiece r) from to) ∧
    (canCastleQueenside c (newGameState r) = true ↔
     canCastleQueenside c gs = true ∧
     ¬ givesUp c 0 (arrivingPiece piece to promo) (capturedPiece r) from to).
Proof.
  intros b from to gs promo piece r c Hp H.
  rewrite (movePiece_state _ _ _ _ _ _ _ Hp H).
  destruct (rights_stateAfter gs piece (capturedPiece r) from to promo c) as [-> ->].
  rewrite !givesUp_tests, !andb_true_iff, !negb_true_iff, !not_true_iff_false.
  tauto.
Qed.

Lemma castling_rights_exact_witness :
  ∃ r, movePiece castleBoard (mkPos 7 7) (mkPos 7 5) startState None = Some r ∧
       canCastleKingside white (newGameState r) = false ∧
       canCastleQueenside white (newGameState r) = true.
Proof.
  destruct (movePiece castleBoard (mkPos 7 7) (mkPos 7 5) startState None) as [r|] eqn:H;
    [|vm_compute in H; discriminate H].
  exists r. split; [reflexivity|].
  destruct (castling_rights_exact castleBoard (mkPos 7 7) (mkPos 7 5) startState None
              (mkPiece rook white None) r white eq_refl H) as [Hk Hq].
  pose proof (movePiece_captured castleBoard (mkPos 7 7) (mkPos 7 5) startState None
                (mkPiece rook white None) r eq_refl H) as Hcap.
  assert (H5 : getCell castleBoard (mkPos 7 5) = Some None) by reflexivity.
  rewrite H5 in Hcap. injection Hcap as Hcap. split.
  - apply not_true_iff_false. intros Ht. apply Hk in Ht. destruct Ht as [_ Hn].
    apply Hn. right; left. auto.
  - apply Hq. split; [reflexivity|].
    intros [[_ Ht]|[(_ & _ & Hf)|(cp & Hc & _)]]; [discriminate Ht|discriminate Hf|].
    rewrite <- Hcap in Hc. discriminate Hc.
Defined.

(** ** The promotion choice and the clocks are looked at nowhere else *)

(** X14. The promotion choice is looked at only when a pawn arrives on
    its far row: whenever the origin holds no such piece (no piece at all,
    a piece other than a pawn, a pawn going elsewhere, or a row that does
    not exist), [movePiece] gives the same result, exception included, with
    any choice as with none. *)
Theorem promotion_choice_ignored :
  ∀ (b : Board) (from to : Position) (gs : GameState) (promo : option PieceType),
    (∀ piece, getCell b from = Some (Some piece) → promotes piece to = false) →
    movePiece b from to gs promo = movePiece b from to gs None.
Proof.
  intros b from to gs promo Hno.
  destruct (getCell b from) as [[piece|]|] eqn:Hp.
  - specialize (Hno piece eq_refl). unfold promotes in Hno.
    rewrite !(movePiece_occupied _ _ _ _ _ _ Hp).
    destruct (getCell b to) as [captured|]; [|reflexivity]. rewrite !bind_Some. cbv zeta.
    destruct (PieceType_eqb (type piece) pawn); [|reflexivity].
    simpl in Hno. unfold pawnStep. rewrite Hno. reflexivity.
  - rewrite !(movePiece_empty _ _ _ _ _ Hp). reflexivity.
  - unfold movePiece. rewrite cloneBoard_id, Hp. reflexivity.
Qed.

Lemma promotion_choice_ignored_witness :
  movePiece initialBoard (mkPos 6 4) (mkPos 4 4) startState (Some knight)
  = movePiece initialBoard (mkPos 6 4) (mkPos 4 4) startState None.
Proof.
  apply promotion_choice_ignored. intros piece [= <-]. reflexivity.
Defined.

Lemma hitsEnPassant_same gs gs' to :
  enPassantTarget gs = enPassantTarget gs' → hitsEnPassant gs to = hitsEnPassant gs' to.
Proof. unfold hitsEnPassant. intros ->. reflexivity. Qed.

(** The board the executor returns depends on the state only through the
    en-passant target. *)
Lemma movePiece_board_same b from to gs gs' promo :
  enPassantTarget gs = enPassantTarget gs' →
  newBoard <$> movePiece b from to gs promo = newBoard <$> movePiece b from to gs' promo.
Proof.
  intros Hep. destruct (getCell b from) as [[piece|]|] eqn:Hp.
  - rewrite !(movePiece_occupied _ _ _ _ _ _ Hp).
    destruct (getCell b to) as [captured|]; [|reflexivity]. rewrite !bind_Some. cbv zeta.
    set (gsB := if Color_eqb (color piece) black then _ else _).
    set (gsB' := if Color_eqb (color piece) black then _ else _).
    clearbody gsB gsB'.
    assert (H1 : ∃ o : option (Board * ChessPiece), ∃ gsC gsC',
      (if PieceType_eqb (type piece) pawn
       then pawnStep b piece from to gs gsB promo
       else Some (b, setEnPassantTarget gsB None, piece))
      = (λ '(nb, p), (nb, gsC, p)) <$> o ∧
      (if PieceType_eqb (type piece) pawn
       then pawnStep b piece from to gs' gsB' promo
       else Some (b, setEnPassantTarget gsB' None, piece))
      = (λ '(nb, p), (nb, gsC', p)) <$> o).
    { destruct (PieceType_eqb (type piece) pawn).
      - unfold pawnStep. rewrite <- (hitsEnPassant_same gs gs' to Hep).
        destruct (if hitsEnPassant gs to then _ else _) as [nb1|].
        + rewrite !bind_Some. eexists (Some (nb1, _)), _, _. split; reflexivity.
        + exists None, gs, gs. split; reflexivity.
      - eexists (Some (b, piece)), _, _. split; reflexivity. }
    destruct H1 as (o & gsC & gsC' & -> & ->).
    destruct o as [[nb1 piece1]|]; [|reflexivity].
    cbn [fmap option_fmap option_map mbind option_bind]. cbv beta iota.
    assert (H2 : ∃ o : option Board, ∃ gsD gsD',
      (if PieceType_eqb (type piece1) king
       then kingStep nb1 piece1 (setHasMoved piece1) from to gsC
       else Some (nb1, gsC)) = (λ nb, (nb, gsD)) <$> o ∧
      (if PieceType_eqb (type piece1) king
       then kingStep nb1 piece1 (setHasMoved piece1) from to gsC'
       else Some (nb1, gsC')) = (λ nb, (nb, gsD')) <$> o).
    { destruct (PieceType_eqb (type piece1) king).
      - unfold kingStep. destruct (Z.abs (col from - col to) =? 2).
        + destruct (getCell nb1 _) as [rk|]; [|exists None, gs, gs; split; reflexivity].
          rewrite !bind_Some.
          destruct (setCell nb1 _ _) as [nb2|]; [|exists None, gs, gs; split; reflexivity].
          rewrite !bind_Some.
          destruct (setCell nb2 _ _) as [nb3|]; [|exists None, gs, gs; split; reflexivity].
          rewrite !bind_Some. eexists (Some nb3), _, _. split; reflexivity.
        + eexists (Some nb1), _, _. split; reflexivity.
      - eexists (Some nb1), _, _. split; reflexivity. }
    destruct H2 as (o & gsD & gsD' & -> & ->).
    destruct o as [nb2|]; [|reflexivity].
    cbn [fmap option_fmap option_map mbind option_bind]. cbv beta iota.
    destruct (setCell nb2 to _) as [nb3|]; [|reflexivity]. rewrite !bind_Some.
    destruct (setCell nb3 from None) as [nb4|]; reflexivity.
  - rewrite !(movePiece_empty _ _ _ _ _ Hp). reflexivity.
  - unfold movePiece. rewrite cloneBoard_id, Hp. reflexivity.
Qed.

Lemma canCastle_same gs gs' c :
  sameRules gs gs' →
  canCastleKingside c gs = canCastleKingside c gs' ∧
  canCastleQueenside c gs = canCastleQueenside c gs'.
Proof. intros (H1 & H2 & H3 & H4 & _). destruct c; simpl; auto. Qed.

Lemma collectM_ext {A B} (f g : A → option (list B)) l :
  (∀ x, In x l → f x = g x) → collectM f l = collectM g l.
Proof.
  induction l as [|x l IH]; simpl; intros H; [reflexivity|].
  rewrite (H x) by auto. rewrite IH by auto. reflexivity.
Qed.

Lemma filterM_ext {A} (f g : A → option bool) l :
  (∀ x, In x l → f x = g x) → filterM f l = filterM g l.
Proof.
  induction l as [|x l IH]; simpl; intros H; [reflexivity|].
  rewrite (H x) by auto. rewrite IH by auto. reflexivity.
Qed.

Lemma pseudoMoves_same b position gs gs' piece :
  sameRules gs gs' →
  pseudoMoves b position gs piece = pseudoMoves b position gs' piece.
Proof.
  intros Hs. pose proof Hs as (_ & _ & _ & _ & Hep).
  unfold pseudoMoves. destruct (type piece); try reflexivity.
  - unfold getPawnMoves. destruct (getCell b position) as [[p|]|]; try reflexivity.
    rewrite !bind_Some. destruct (negb _); [reflexivity|]. cbv zeta.
    rewrite (collectM_ext (pawnCapture b p gs) (pawnCapture b p gs')); [reflexivity|].
    intros sq _. unfold pawnCapture. rewrite Hep. reflexivity.
  - unfold getKingMoves. destruct (getCell b position) as [[p|]|]; try reflexivity.
    rewrite !bind_Some. destruct (negb _); [reflexivity|]. cbv zeta.
    destruct (canCastle_same gs gs' (color p) Hs) as [<- <-].
    assert (Hside : ∀ rookCol path passed dest,
      castleSide b position p gs rookCol path passed dest
      = castleSide b position p gs' rookCol path passed dest).
    { intros. unfold castleSide, kingNotInCheck.
      rewrite (isKingInCheck_any_state b (color p) gs gs').
      rewrite (attack_any_state b passed (color p) gs gs'). reflexivity. }
    rewrite !Hside. reflexivity.
Qed.

Lemma getPossibleMoves_same b position gs gs' :
  sameRules gs gs' → getPossibleMoves b position gs = getPossibleMoves b position gs'.
Proof.
  intros Hs. pose proof Hs as (_ & _ & _ & _ & Hep). unfold getPossibleMoves.
  destruct (getCell b position) as [[piece|]|]; try reflexivity. rewrite !bind_Some.
  rewrite (pseudoMoves_same b position gs gs' piece Hs).
  destruct (pseudoMoves b position gs' piece) as [ms|]; [|reflexivity]. rewrite !bind_Some.
  apply filterM_ext. intros m _. unfold keepsKingSafe.
  pose proof (movePiece_board_same b position m gs gs' None Hep) as Hb.
  destruct (movePiece b position m gs None) as [r|],
           (movePiece b position m gs' None) as [r'|]; try discriminate Hb;
    [|reflexivity].
  injection Hb as Hb. rewrite !bind_Some. rewrite Hb.
  rewrite (isKingInCheck_any_state _ (color piece) gs gs'). reflexivity.
Qed.

(** X16. The rules never consult the clocks.  For two states with the
    same castling rights and the same en-passant target, whatever their
    half-move clocks and full-move numbers, [getPossibleMoves],
    [isCheckmate] and [isStalemate] give the same result on every board,
    exception included; [isKingInCheck] does so for any two states. *)
Theorem rules_ignore_clocks :
  ∀ (b : Board) (gs gs' : GameState),
    sameRules gs gs' →
    (∀ position, getPossibleMoves b position gs = getPossibleMoves b position gs') ∧
    (∀ c, isCheckmate b c gs = isCheckmate b c gs') ∧
    (∀ c, isStalemate b c gs = isStalemate b c gs') ∧
    (∀ c g g', isKingInCheck b c g = isKingInCheck b c g').
Proof.
  intros b gs gs' Hs.
  assert (Hmoves : ∀ position,
            getPossibleMoves b position gs = getPossibleMoves b position gs')
    by (intros; apply getPossibleMoves_same; exact Hs).
  assert (Hany : ∀ c, anyM (hasMoveAt b c gs) allSquares
                      = anyM (hasMoveAt b c gs') allSquares).
  { intros c. apply anyM_ext. intros sq _. unfold hasMoveAt. rewrite Hmoves. reflexivity. }
  split; [exact Hmoves|]. split; [|split].
  - intros c. unfold isCheckmate.
    rewrite (isKingInCheck_any_state b c gs gs'), Hany. reflexivity.
  - intros c. unfold isStalemate.
    rewrite (isKingInCheck_any_state b c gs gs'), Hany. reflexivity.
  - intros c g g'. apply isKingInCheck_any_state.
Qed.

Lemma rules_ignore_clocks_witness :
  getPossibleMoves initialBoard (mkPos 6 4) startState
  = getPossibleMoves initialBoard (mkPos 6 4) (mkState true true true true None 99 60).
Proof.
  apply (rules_ignore_clocks initialBoard startState
           (mkState true true true true None 99 60)).
  repeat split.
Defined.

(** ** Checkmate and stalemate *)

Lemma hasMoveAt_true b c gs sq :
  hasMoveAt b c gs sq = Some true ↔
  ∃ piece m ms, getCell b sq = Some (Some piece) ∧ color piece = c ∧
                getPossibleMoves b sq gs = Some (m :: ms).
Proof.
  unfold hasMoveAt. destruct (getCell b sq) as [[piece|]|]; simpl.
  - destruct (Color_eqb (color piece) c) eqn:Hc.
    + apply Color_eqb_eq in Hc.
      destruct (getPossibleMoves b sq gs) as [[|m ms]|]; simpl.
      * split; [discriminate|]. intros (? & ? & ? & _ & _ & ?). discriminate.
      * split; [|reflexivity]. intros _. exists piece, m, ms. auto.
      * split; [discriminate|]. intros (? & ? & ? & _ & _ & ?). discriminate.
    + split; [discriminate|]. intros (p & m & ms & [= <-] & Hc' & _).
      apply Color_eqb_eq in Hc'. congruence.
  - split; [discriminate|]. intros (? & ? & ? & ? & _). discriminate.
  - split; [discriminate|]. intros (? & ? & ? & ? & _). discriminate.
Qed.

(** The double loop shared by the two tests finds no move exactly when no
    piece of the colour has one. *)
Lemma scan_finds_no_move b c gs :
  eightRows b →
  ∃ any, anyM (hasMoveAt b c gs) allSquares = Some any ∧
         (any = false ↔ noMoves b c gs).
Proof.
  intros Hb.
  destruct (anyM_true (hasMoveAt b c gs) allSquares) as (any & Hany & Hiff).
  { intros sq Hsq. apply hasMoveAt_defined; [exact Hb|apply allSquares_valid; exact Hsq]. }
  exists any. split; [exact Hany|]. rewrite <- not_true_iff_false, Hiff. split.
  - intros Hno sq piece Hv Hp Hc.
    apply valid_cases in Hv as Hv'.
    destruct (getPossibleMoves_defined b sq gs Hb (proj1 Hv')) as [[|m ms] Hms];
      [exact Hms|].
    contradiction Hno. exists sq. split; [apply allSquares_In; exact Hv|].
    apply hasMoveAt_true. exists piece, m, ms. auto.
  - intros Hno (sq & Hsq & Hh). apply hasMoveAt_true in Hh.
    destruct Hh as (piece & m & ms & Hp & Hc & Hms).
    rewrite (Hno sq piece (allSquares_valid _ Hsq) Hp Hc) in Hms. discriminate.
Qed.

(** X17. On a board of eight rows [isCheckmate] and [isStalemate] return,
    and [isCheckmate] returns true exactly when the king of the colour is
    reported in check and no piece of the colour has a legal move,
    [isStalemate] exactly when the king is not reported in check and no
    piece of the colour has a legal move; they are never both true. *)
Theorem game_end_exact :
  ∀ (b : Board) (c : Color) (gs : GameState),
    eightRows b →
    ∃ mate stale,
      isCheckmate b c gs = Some mate ∧ isStalemate b c gs = Some stale ∧
      (mate = true ↔ isKingInCheck b c gs = Some true ∧ noMoves b c gs) ∧
      (stale = true ↔ isKingInCheck b c gs = Some false ∧ noMoves b c gs) ∧
      ¬ (mate = true ∧ stale = true).
Proof.
  intros b c gs Hb.
  destruct (isKingInCheck_defined b c gs Hb) as [chk Hchk].
  destruct (scan_finds_no_move b c gs Hb) as (any & Hany & Hno).
  unfold isCheckmate, isStalemate. rewrite Hchk, !bind_Some.
  destruct chk; simpl negb; cbv iota; rewrite Hany, !bind_Some.
  - exists (negb any), false. repeat split; try discriminate.
    + apply Hno. destruct any; [discriminate|reflexivity].
    + intros [_ Hn]. apply Hno in Hn. rewrite Hn. reflexivity.
    + intros [? _]. discriminate.
    + intros [_ ?]. discriminate.
  - exists false, (negb any). repeat split; try discriminate.
    + intros [? _]. discriminate.
    + apply Hno. destruct any; [discriminate|reflexivity].
    + intros [_ Hn]. apply Hno in Hn. rewrite Hn. reflexivity.
    + intros [? _]. discriminate.
Qed.

Lemma game_end_exact_witness :
  ∃ mate stale,
    isCheckmate initialBoard white startState = Some mate ∧
    isStalemate initialBoard white startState = Some stale ∧
    (mate = true ↔ isKingInCheck initialBoard white startState = Some true
                   ∧ noMoves initialBoard white startState) ∧
    (stale = true ↔ isKingInCheck initialBoard white startState = Some false
                    ∧ noMoves initialBoard white startState) ∧
    ¬ (mate = true ∧ stale = true).
Proof. exact (game_end_exact initialBoard white startState eq_refl). Defined.

(** ** The executor: rows, origin and destination of any move *)

Lemma pawnStep_rows nb piece from to gs0 gs promo nb1 gs1 piece1 :
  pawnStep nb piece from to gs0 gs promo = Some (nb1, gs1, piece1) →
  length nb1 = length nb.
Proof.
  unfold pawnStep. intros H. destruct (hitsEnPassant gs0 to).
  - bind_inv H. injection H as <- _ _. eapply setCell_length; eassumption.
  - simpl in H. injection H as <- _ _. reflexivity.
Qed.

Lemma kingStep_rows nb piece moved from to gs nb1 gs1 :
  kingStep nb piece moved from to gs = Some (nb1, gs1) → length nb1 = length nb.
Proof.
  unfold kingStep. intros H. destruct (_ =? 2).
  - repeat bind_inv H. injection H as <- _.
    match goal with
    | E1 : setCell nb _ _ = Some ?x, E2 : setCell ?x _ _ = Some ?y |- length ?y = _ =>
        rewrite (setCell_length _ _ _ _ E2); exact (setCell_length _ _ _ _ E1)
    end.
  - injection H as <- _. reflexivity.
Qed.

Lemma pawnStep_cells nb piece from to gs0 gs promo nb1 gs1 piece1 q x :
  pawnStep nb piece from to gs0 gs promo = Some (nb1, gs1, piece1) →
  getCell nb1 q = Some (Some x) → getCell nb q = Some (Some x).
Proof.
  unfold pawnStep. intros H. destruct (hitsEnPassant gs0 to).
  - bind_inv H. injection H as <- _ _. rewrite (getCell_setCell _ _ _ _ q E).
    destruct (_ && _); [discriminate|auto].
  - simpl in H. injection H as <- _ _. auto.
Qed.

Lemma kingStep_cells nb piece moved from to gs nb1 gs1 q x :
  kingStep nb piece moved from to gs = Some (nb1, gs1) →
  getCell nb1 q = Some (Some x) →
  x = moved ∨ ∃ q', getCell nb q' = Some (Some x).
Proof.
  unfold kingStep. intros H. destruct (_ =? 2).
  - destruct (getCell nb (mkPos (row from) (if col from <? col to then 7 else 0)))
      as [rk|] eqn:Erk; [|discriminate H].
    rewrite bind_Some in H. repeat bind_inv H. injection H as <- _.
    match goal with
    | E1 : setCell nb _ _ = Some ?y, E2 : setCell ?y _ _ = Some ?z |- _ =>
        rewrite (getCell_setCell _ _ _ _ q E2), (getCell_setCell _ _ _ _ q E1)
    end.
    destruct (_ && _); [discriminate|].
    destruct (_ && _); [|eauto].
    destruct (col from =? _); intros [= Hx]; [left; congruence|].
    right. subst rk. eauto.
  - injection H as <- _. eauto.
Qed.

(** The last two assignments of the executor decide origin and destination,
    whatever the move did before. *)
Lemma movePiece_final b from to gs promo piece r :
  getCell b from = Some (Some piece) →
  movePiece b from to gs promo = Some r →
  length (newBoard r) = length b ∧
  ∃ nb2, length nb2 = length b ∧
         (∀ q x, getCell nb2 q = Some (Some x) →
                 x = arrivingPiece piece to promo ∨ ∃ q', getCell b q' = Some (Some x)) ∧
         ∀ q, getCell (newBoard r) q =
              if (row q =? row from) && (col q =? col from) then Some None
              else if (row q =? row to) && (col q =? col to) && (0 <=? col to)
                   then Some (Some (arrivingPiece piece to promo))
              else getCell nb2 q.
Proof.
  intros Hp H. pose proof (occupied_col _ _ _ Hp) as Hcf.
  rewrite (movePiece_occupied _ _ _ _ _ _ Hp) in H.
  destruct (getCell b to) as [captured|]; [|discriminate H]. rewrite bind_Some in H.
  cbv zeta in H.
  set (gsB := if Color_eqb (color piece) black then _ else _) in H. clearbody gsB.
  match type of H with (?m ≫= _) = _ =>
    destruct m as [[[nb1 gsC] piece1]|] eqn:E1 end; [|discriminate H].
  rewrite bind_Some in H. cbv beta iota in H.
  match type of H with (?m ≫= _) = _ =>
    destruct m as [[nb2 gsD]|] eqn:E2 end; [|discriminate H].
  rewrite bind_Some in H. cbv beta iota in H.
  destruct (setCell nb2 to (Some (setHasMoved piece1))) as [nb3|] eqn:E3;
    [|discriminate H].
  rewrite bind_Some in H.
  destruct (setCell nb3 from None) as [nb4|] eqn:E4; [|discriminate H].
  rewrite bind_Some in H. injection H as <-. simpl newBoard.
  assert (L1 : length nb1 = length b ∧
               piece1 = (if promotes piece to then setType piece (default queen promo)
                         else piece)).
  { unfold promotes. destruct (PieceType_eqb (type piece) pawn).
    - split; [exact (pawnStep_rows _ _ _ _ _ _ _ _ _ _ E1)|].
      exact (proj2 (pawnStep_state _ _ _ _ _ _ _ _ _ _ E1)).
    - injection E1 as <- _ <-. auto. }
  destruct L1 as [L1 Hpiece1].
  assert (L2 : length nb2 = length nb1).
  { destruct (PieceType_eqb (type piece1) king).
    - exact (kingStep_rows _ _ _ _ _ _ _ _ E2).
    - injection E2 as <- _. reflexivity. }
  split.
  - rewrite (setCell_length _ _ _ _ E4), (setCell_length _ _ _ _ E3). congruence.
  - exists nb2. split; [congruence|]. split.
    + intros q x Hx.
      assert (H1 : ∀ q' y, getCell nb1 q' = Some (Some y) → getCell b q' = Some (Some y)).
      { intros q' y Hy. destruct (PieceType_eqb (type piece) pawn).
        - exact (pawnStep_cells _ _ _ _ _ _ _ _ _ _ _ _ E1 Hy).
        - injection E1 as <- _ _. exact Hy. }
      destruct (PieceType_eqb (type piece1) king).
      * destruct (kingStep_cells _ _ _ _ _ _ _ _ _ _ E2 Hx) as [->|(q' & Hq')].
        -- left. unfold arrivingPiece. rewrite Hpiece1. reflexivity.
        -- right. exists q'. apply H1. exact Hq'.
      * injection E2 as <- _. right. exists q. apply H1. exact Hx.
    + intros q.
      rewrite (getCell_setCell _ _ _ _ q E4), (getCell_setCell _ _ _ _ q E3).
      destruct (Z.leb_spec 0 (col from)); [|lia]. rewrite andb_true_r.
      unfold arrivingPiece. rewrite <- Hpiece1. reflexivity.
Qed.

Lemma movePiece_rows b from to gs promo r :
  eightRows b → movePiece b from to gs promo = Some r → eightRows (newBoard r).
Proof.
  intros Hb H. destruct (getCell b from) as [[piece|]|] eqn:Hp.
  - unfold eightRows in *. rewrite (proj1 (movePiece_final _ _ _ _ _ _ _ Hp H)). exact Hb.
  - rewrite (movePiece_empty _ _ _ _ _ Hp) in H. injection H as <-. exact Hb.
  - unfold movePiece in H. rewrite cloneBoard_id, Hp in H. discriminate H.
Qed.

Lemma movePiece_destination b from to gs promo piece r :
  getCell b from = Some (Some piece) → 0 ≤ col to → to ≠ from →
  movePiece b from to gs promo = Some r →
  getCell (newBoard r) to = Some (Some (arrivingPiece piece to promo)) ∧
  getCell (newBoard r) from = Some None.
Proof.
  intros Hp Hc Hne H.
  destruct (movePiece_final _ _ _ _ _ _ _ Hp H) as (_ & nb2 & _ & _ & Hq). split.
  - rewrite Hq. destruct ((row to =? row from) && (col to =? col from)) eqn:E.
    + apply andb_true_iff in E. rewrite !Z.eqb_eq in E. contradiction Hne.
      destruct to, from. simpl in *. f_equal; tauto.
    + rewrite !Z.eqb_refl. destruct (Z.leb_spec 0 (col to)); [reflexivity|lia].
  - rewrite Hq, !Z.eqb_refl. reflexivity.
Qed.

(** A move the legal-move query lists is executed by [movePiece], and the
    king of the mover is not reported in check afterwards. *)
Lemma legal_move_executes b position gs piece ms m :
  getCell b position = Some (Some piece) →
  getPossibleMoves b position gs = Some ms → In m ms →
  ∃ r, movePiece b position m gs None = Some r ∧
       isKingInCheck (newBoard r) (color piece) gs = Some false.
Proof.
  intros Hp H Hin. pose proof H as H0. unfold getPossibleMoves in H0.
  rewrite Hp, bind_Some in H0.
  destruct (pseudoMoves b position gs piece) as [pseudo|] eqn:Hps; [|discriminate H0].
  apply (getPossibleMoves_spec _ _ _ _ _ _ m Hp Hps H) in Hin.
  apply keepsKingSafe_true. exact (proj2 Hin).
Qed.

(** ** The board component: what a click can do *)

Lemma isValidMove_In s r c : isValidMove s r c = true ↔ In (mkPos r c) (possibleMoves s).
Proof.
  unfold isValidMove. rewrite existsb_exists. split.
  - intros (m & Hm & Heq). apply andb_true_iff in Heq. rewrite !Z.eqb_eq in Heq.
    destruct m as [r' c']. simpl in Heq. destruct Heq as [<- <-]. exact Hm.
  - intros H. exists (mkPos r c). split; [exact H|]. simpl. rewrite !Z.eqb_refl.
    reflexivity.
Qed.

Lemma gameOver_defined s : eightRows (board s) → ∃ over, gameOver s = Some over.
Proof.
  intros Hb. unfold gameOver.
  destruct (isCheckmate_defined (board s) (currentPlayer s) (gameState s) Hb) as [m ->].
  rewrite bind_Some. destruct m; [eauto|]. apply isStalemate_defined. exact Hb.
Qed.

Lemma same_square p : mkPos (row p) (col p) = p.
Proof. destruct p; reflexivity. Qed.

Lemma samePosition_refl s : samePosition s s.
Proof. unfold samePosition. auto. Qed.

(** The selecting branch of the click handler, shared by its two cases. *)
Lemma click_selects s r c (other : ChessBoardState) :
  eightRows (board s) → isValidPosition (mkPos r c) = true →
  board other = board s → gameState other = gameState s →
  currentPlayer other = currentPlayer s → moveHistory other = moveHistory s →
  selectionCoherent other →
  ∃ s',
    (clicked ← getCell (board s) (mkPos r c);
     match clicked with
     | Some clickedPiece =>
         if Color_eqb (color clickedPiece) (currentPlayer s) then
           moves ← getPossibleMoves (board s) (mkPos r c) (gameState s);
           Some (withSelection s (Some (mkPos r c)) moves)
         else Some other
     | None => Some other
     end) = Some s' ∧
    board s' = board s ∧ selectionCoherent s' ∧ samePosition s s'.
Proof.
  intros Hb Hv Ob Og Oc Oh Oco.
  destruct (getCell_valid (board s) (mkPos r c) Hb Hv) as [clicked Hcl].
  rewrite Hcl, bind_Some.
  assert (Hother : board other = board s ∧ selectionCoherent other ∧ samePosition s other)
    by (split; [exact Ob|split; [exact Oco|unfold samePosition; auto]]).
  destruct clicked as [p|]; [|eauto].
  destruct (Color_eqb (color p) (currentPlayer s)) eqn:Hc; [|eauto].
  apply Color_eqb_eq in Hc. apply valid_cases in Hv as [Hr _].
  destruct (getPossibleMoves_defined (board s) (mkPos r c) (gameState s) Hb Hr) as [ms Hms].
  rewrite Hms, bind_Some. eexists. split; [reflexivity|].
  split; [reflexivity|]. split; [|unfold samePosition; simpl; auto].
  intros sel [= <-]. simpl. split; [exists p; auto|exact Hms].
Qed.

(** X18. A click changes the position only by a legal move of the side
    to move.  For a component whose board has eight rows and whose
    selection is coherent, [handleSquareClick] on a square of the board
    returns, keeps both properties, and either leaves board, game state,
    player to move and history as they are (always so once the game is
    over), or, the clicked square being one of the legal moves of the
    selected piece, plays that move with [movePiece]: the turn passes, one
    entry is added to the history, and the king of the player who moved is
    not reported in check on the new board. *)
Theorem click_plays_only_legal_moves :
  ∀ (s : ChessBoardState) (r c : Z),
    eightRows (board s) → selectionCoherent s → isValidPosition (mkPos r c) = true →
    ∃ s',
      handleSquareClick s r c = Some s' ∧
      eightRows (board s') ∧ selectionCoherent s' ∧
      (gameOver s = Some true → s' = s) ∧
      (samePosition s s' ∨
       ∃ sel, selectedPiece s = Some sel ∧ In (mkPos r c) (possibleMoves s) ∧
              played s s' sel (mkPos r c) None ∧
              isKingInCheck (board s') (currentPlayer s) (gameState s') = Some false).
Proof.
  intros s r c Hb Hco Hv. unfold handleSquareClick.
  destruct (gameOver_defined s Hb) as [over Hover]. rewrite Hover, bind_Some.
  destruct over.
  { exists s. split; [reflexivity|]. split; [exact Hb|]. split; [exact Hco|].
    split; [auto|]. left. apply samePosition_refl. }
  assert (Hnot : Some false = Some true → ∀ s' : ChessBoardState, s' = s) by discriminate.
  destruct (selectedPiece s) as [sel|] eqn:Hsel.
  - destruct (Hco sel Hsel) as [(p & Hp & Hcol) Hms].
    destruct (isValidMove s r c) eqn:Hvm.
    + apply isValidMove_In in Hvm. rewrite Hp, bind_Some. cbv zeta.
      destruct (PieceType_eqb (type p) pawn && _) eqn:Hpromo.
      * exists (withPromotionPending s (mkPos r c)).
        split; [reflexivity|]. split; [exact Hb|]. split; [|split; [auto|]].
        -- intros sel' Hsel'. simpl in *. apply Hco. exact Hsel'.
        -- left. unfold samePosition. simpl. auto.
      * rewrite same_square.
        destruct (legal_move_executes _ _ _ _ _ _ Hp Hms Hvm) as (res & Hres & Hsafe).
        rewrite Hres, bind_Some.
        pose proof (movePiece_rows _ _ _ _ _ _ Hb Hres) as Hb'.
        destruct (generateNotation_defined (board s) p sel (mkPos r c) (capturedPiece res)
                    (newBoard res) (newGameState res) None Hb Hb') as [text Htext].
        rewrite Htext, bind_Some. eexists. split; [reflexivity|]. simpl.
        split; [exact Hb'|]. split; [intros sel' Hsel'; discriminate Hsel'|].
        split; [auto|]. right. exists sel. split; [reflexivity|]. split; [exact Hvm|].
        split.
        -- exists p, res, (mkMoveHistory p sel (mkPos r c) (capturedPiece res) None text).
           simpl. repeat split; auto.
        -- rewrite <- Hcol.
           rewrite (isKingInCheck_any_state _ _ (newGameState res) (gameState s)).
           exact Hsafe.
    + destruct (click_selects s r c (withSelection s None []) Hb Hv) as (s' & -> & Hb' & Hco' & Hsame);
        try reflexivity.
      { intros sel' Hsel'. discriminate Hsel'. }
      exists s'. rewrite Hb'. auto 6.
  - destruct (click_selects s r c s Hb Hv) as (s' & -> & Hb' & Hco' & Hsame);
      try reflexivity; [exact Hco|].
    exists s'. rewrite Hb'. auto 6.
Qed.

Lemma click_plays_only_legal_moves_witness :
  let s := withSelection initialComponent (Some (mkPos 6 4)) [mkPos 5 4; mkPos 4 4] in
  ∃ s',
    handleSquareClick s 4 4 = Some s' ∧
    eightRows (board s') ∧ selectionCoherent s' ∧
    (gameOver s = Some true → s' = s) ∧
    (samePosition s s' ∨
     ∃ sel, selectedPiece s = Some sel ∧ In (mkPos 4 4) (possibleMoves s) ∧
            played s s' sel (mkPos 4 4) None ∧
            isKingInCheck (board s') (currentPlayer s) (gameState s') = Some false).
Proof.
  apply (click_plays_only_legal_moves
           (withSelection initialComponent (Some (mkPos 6 4)) [mkPos 5 4; mkPos 4 4]) 4 4).
  - reflexivity.
  - intros sel [= <-]. split.
    + exists (mkPiece pawn white None). split; reflexivity.
    + vm_compute. reflexivity.
  - reflexivity.
Defined.

(** ** The board component: promoting a pawn *)

Lemma legal_pawn_move_leaves b position gs piece ms m :
  getCell b position = Some (Some piece) → type piece = pawn →
  getPossibleMoves b position gs = Some ms → In m ms → m ≠ position.
Proof.
  intros Hp Ht H Hin. unfold getPossibleMoves in H. rewrite Hp, bind_Some in H.
  destruct (pseudoMoves b position gs piece) as [pseudo|] eqn:Hps; [|discriminate H].
  rewrite bind_Some in H. destruct (filterM_In _ _ _ _ H Hin) as [Hin' _].
  unfold pseudoMoves in Hps. rewrite Ht in Hps.
  apply (getPawnMoves_spec _ _ _ _ _ m Hp Ht Hps) in Hin'.
  assert (Hd : pawnDirection (color piece) = 1 ∨ pawnDirection (color piece) = -1)
    by (destruct (color piece); simpl; auto).
  destruct Hin' as [(-> & _)|[(-> & _)|(Hr & _)]].
  - destruct position; simpl in *; intros [= ?]; lia.
  - destruct position; simpl in *; intros [= ?]; lia.
  - intros ->. lia.
Qed.

Lemma promotionChoices_not_king t : In t promotionChoices → Some t ≠ Some king.
Proof. intros [<-|[<-|[<-|[<-|[]]]]]; discriminate. Qed.

(** X19. Promotion by way of the dialog.  In a component whose board
    has eight rows and whose selection is coherent, with the game not over,
    a click on a legal destination of the selected pawn that lies on the
    pawn's far row plays nothing: it records the square and opens the
    dialog.  Choosing then any of the four kinds the dialog offers plays the
    move with that promotion: the turn passes, the dialog closes, the
    destination holds a piece of the chosen kind and of the pawn's colour,
    marked as moved, and the king of the player who moved is not reported
    in check on the new board. *)
Theorem promotion_by_dialog :
  ∀ (s : ChessBoardState) (sel : Position) (piece : ChessPiece) (r c : Z)
    (t : PieceType),
    eightRows (board s) → selectionCoherent s → gameOver s = Some false →
    selectedPiece s = Some sel → getCell (board s) sel = Some (Some piece) →
    promotes piece (mkPos r c) = true →
    In (mkPos r c) (possibleMoves s) → isValidPosition (mkPos r c) = true →
    In t promotionChoices →
    handleSquareClick s r c = Some (withPromotionPending s (mkPos r c)) ∧
    ∃ s2,
      handlePromotion (withPromotionPending s (mkPos r c)) t = Some s2 ∧
      played s s2 sel (mkPos r c) (Some t) ∧
      showPromotionModal s2 = false ∧ promotionPosition s2 = None ∧
      getCell (board s2) (mkPos r c) = Some (Some (mkPiece t (color piece) (Some true))) ∧
      isKingInCheck (board s2) (currentPlayer s) (gameState s2) = Some false.
Proof.
  intros s sel piece r c t Hb Hco Hover Hsel Hp Hpromo Hin Hv Ht.
  destruct (Hco sel Hsel) as [(p' & Hp' & Hcol) Hms].
  assert (p' = piece) by congruence. subst p'.
  split.
  - unfold handleSquareClick. rewrite Hover, bind_Some, Hsel.
    rewrite (proj2 (isValidMove_In s r c) Hin), Hp, bind_Some. cbv zeta.
    unfold promotes in Hpromo. simpl in Hpromo. rewrite Hpromo. reflexivity.
  - assert (Hpawn : type piece = pawn).
    { unfold promotes in Hpromo. apply andb_true_iff in Hpromo.
      apply PieceType_eqb_eq. exact (proj1 Hpromo). }
    destruct (legal_move_executes _ _ _ _ _ _ Hp Hms Hin) as (res0 & Hres0 & Hsafe).
    destruct (movePiece_promotion_agree _ _ _ _ (Some t) _ _ Hp
                (promotionChoices_not_king t Ht) Hres0) as (res & Hres & Hag).
    pose proof (movePiece_rows _ _ _ _ _ _ Hb Hres) as Hb'.
    destruct (generateNotation_defined (board s) piece sel (mkPos r c) (capturedPiece res)
                (newBoard res) (newGameState res) (Some t) Hb Hb') as [text Htext].
    unfold handlePromotion. simpl selectedPiece. simpl promotionPosition. simpl board.
    simpl gameState. rewrite Hsel, Hp, bind_Some. cbv zeta. rewrite same_square.
    rewrite Hres, bind_Some, Htext, bind_Some.
    eexists. split; [reflexivity|]. simpl.
    split; [|split; [reflexivity|split; [reflexivity|split]]].
    + exists piece, res,
        (mkMoveHistory piece sel (mkPos r c) (capturedPiece res) (Some t) text).
      simpl. repeat split; auto.
    + apply valid_cases in Hv as [_ Hc].
      destruct (movePiece_destination _ _ _ _ _ _ _ Hp (proj1 Hc)
                  (legal_pawn_move_leaves _ _ _ _ _ _ Hp Hpawn Hms Hin) Hres) as [Hto _].
      rewrite Hto. unfold arrivingPiece. rewrite Hpromo. reflexivity.
    + rewrite <- Hcol.
      rewrite <- (isKingInCheck_agree (color piece) _ _ (newGameState res) Hag).
      rewrite (isKingInCheck_any_state _ _ (newGameState res) (gameState s)).
      exact Hsafe.
Qed.

Lemma promotion_by_dialog_witness :
  handleSquareClick promotionReady 0 0
  = Some (withPromotionPending promotionReady (mkPos 0 0)) ∧
  ∃ s2,
    handlePromotion (withPromotionPending promotionReady (mkPos 0 0)) knight = Some s2 ∧
    played promotionReady s2 (mkPos 1 0) (mkPos 0 0) (Some knight) ∧
    showPromotionModal s2 = false ∧ promotionPosition s2 = None ∧
    getCell (board s2) (mkPos 0 0) = Some (Some (mkPiece knight white (Some true))) ∧
    isKingInCheck (board s2) white (gameState s2) = Some false.
Proof.
  apply (promotion_by_dialog promotionReady (mkPos 1 0)
           (mkPiece pawn white (Some true)) 0 0 knight).
  - reflexivity.
  - intros sel [= <-]. split.
    + exists (mkPiece pawn white (Some true)). split; reflexivity.
    + vm_compute. reflexivity.
  - vm_compute. reflexivity.
  - reflexivity.
  - reflexivity.
  - reflexivity.
  - left. reflexivity.
  - reflexivity.
  - simpl. tauto.
Defined.

(** ** The notation of an en-passant capture *)

Lemma append_empty_r (s : string) : s +:+ "" = s.
Proof.
  induction s as [|a s IH]; [reflexivity|].
  change (String a (s +:+ "") = String a s). f_equal. exact IH.
Qed.

Lemma checkSuffix_defined nb c gs :
  eightRows nb → ∃ suffix, checkSuffix nb c gs = Some suffix ∧
                           (suffix = "#" ∨ suffix = "+" ∨ suffix = "")%string.
Proof.
  intros Hb. unfold checkSuffix.
  destruct (isCheckmate_defined nb c gs Hb) as [mate ->]. rewrite bind_Some.
  destruct mate; [eauto|].
  destruct (isKingInCheck_defined nb c gs Hb) as [chk ->]. rewrite bind_Some.
  destruct chk; eauto.
Qed.

(** No other pawn of the capturing side reaches the en-passant target once
    the target has been cleared from the state: the square behind it is
    held by the pawn being taken. *)
Lemma no_rival_en_passant b gs' piece from to v :
  eightRows b → type piece = pawn →
  getCell b to = Some None → enPassantTarget gs' = None →
  getCell b (squareBehind (color piece) to) = Some (Some v) → color v ≠ color piece →
  findAmbiguousPieces b piece from to gs' = Some [].
Proof.
  intros Hb Ht Hto Hep Hv Hcv.
  destruct (findAmbiguousPieces_defined b piece from to gs' Hb) as [amb Hamb].
  rewrite Hamb. f_equal. destruct amb as [|sq amb]; [reflexivity|]. exfalso.
  destruct (proj1 (findAmbiguousPieces_spec _ _ _ _ _ _ sq Hamb) (or_introl eq_refl))
    as (_ & _ & cur & ms & Hcur & Hk & Hc & Hms & Hin).
  rewrite Ht in Hk. unfold getPossibleMoves in Hms. rewrite Hcur, bind_Some in Hms.
  destruct (pseudoMoves b sq gs' cur) as [pseudo|] eqn:Hps; [|discriminate Hms].
  rewrite bind_Some in Hms. destruct (filterM_In _ _ _ _ Hms Hin) as [Hin' _].
  unfold pseudoMoves in Hps. rewrite Hk in Hps.
  apply (getPawnMoves_spec _ _ _ _ _ to Hcur Hk Hps) in Hin'.
  unfold squareBehind in Hv. rewrite <- Hc in Hv.
  destruct Hin' as [(Heq & _)|[(Heq & _ & _ & Hone & _)|(_ & _ & _ & [(t & Ht' & _)|[_ Hep']])]].
  - rewrite Heq in Hv. simpl in Hv.
    replace (row sq + pawnDirection (color cur) - pawnDirection (color cur)) with (row sq)
      in Hv by lia.
    rewrite same_square, Hcur in Hv. injection Hv as <-. congruence.
  - rewrite Heq in Hv. simpl in Hv.
    replace (row sq + 2 * pawnDirection (color cur) - pawnDirection (color cur))
      with (row sq + pawnDirection (color cur)) in Hv by lia.
    congruence.
  - congruence.
  - congruence.
Qed.

(** X21. An en-passant capture is written like a plain pawn step.  On
    a board of eight rows, when a pawn captures en passant (it steps
    diagonally onto the empty en-passant target, a pawn of the other colour
    standing behind that square), then for the result of [movePiece] the
    call of [generateNotation] made by the click handler gives the file
    letter and rank digit of the destination followed by the check mark, if
    any: neither the origin file nor the capture sign appears, and no rival
    pawn is ever found. *)
Theorem en_passant_notation :
  ∀ (b : Board) (gs : GameState) (piece : ChessPiece) (from to : Position)
    (v : ChessPiece),
    eightRows b → isEnPassantCapture b gs piece from to →
    isValidPosition to = true →
    getCell b (squareBehind (color piece) to) = Some (Some v) →
    color v ≠ color piece →
    ∃ res suffix,
      movePiece b from to gs None = Some res ∧ capturedPiece res = None ∧
      (suffix = "#" ∨ suffix = "+" ∨ suffix = "")%string ∧
      generateNotation b piece from to (capturedPiece res) (newBoard res)
        (newGameState res) None
      = Some (fileLetter to +:+ rankDigit to +:+ suffix).
Proof.
  intros b gs piece from to v Hb (Hp & Ht & Hep & Hto & Hrow & Hcol) Hv Hbehind Hcv.
  pose proof (valid_cases _ Hv) as [Hr Hc].
  destruct (movePiece_defined b from to gs None piece Hb Hp Hr) as (res & Hres & Hb').
  { intros _ _. exact (occupied_row _ _ _ Hb Hbehind). }
  exists res.
  assert (Hcap : capturedPiece res = None).
  { pose proof (movePiece_captured _ _ _ _ _ _ _ Hp Hres) as H. congruence. }
  assert (Hep' : enPassantTarget (newGameState res) = None).
  { rewrite (movePiece_enPassant _ _ _ _ _ _ _ Hp Hres).
    destruct (Z.eqb_spec (Z.abs (row from - row to)) 2) as [E|E];
      [|rewrite andb_false_r; reflexivity].
    destruct (color piece); simpl in Hrow; lia. }
  destruct (checkSuffix_defined (newBoard res) (opponent (color piece))
              (newGameState res) Hb') as (suffix & Hsuffix & Hkind).
  exists suffix. split; [exact Hres|]. split; [exact Hcap|]. split; [exact Hkind|].
  unfold generateNotation. rewrite Ht. simpl andb. cbv iota.
  rewrite (no_rival_en_passant b (newGameState res) piece from to v Hb Ht Hto Hep'
             Hbehind Hcv), bind_Some, Hsuffix, bind_Some.
  rewrite Hcap. unfold notationHead, notationMove, disambiguation. rewrite Ht.
  simpl. rewrite (arrayAt_files to Hc), (arrayAt_ranks to Hr). simpl.
  rewrite append_empty_r. unfold fileLetter, rankDigit. reflexivity.
Qed.

Lemma en_passant_notation_witness :
  ∃ res suffix,
    movePiece enPassantBoard (mkPos 3 4) (mkPos 2 5) enPassantState None = Some res ∧
    capturedPiece res = None ∧
    (suffix = "#" ∨ suffix = "+" ∨ suffix = "")%string ∧
    generateNotation enPassantBoard (mkPiece pawn white (Some true)) (mkPos 3 4)
      (mkPos 2 5) (capturedPiece res) (newBoard res) (newGameState res) None
    = Some (fileLetter (mkPos 2 5) +:+ rankDigit (mkPos 2 5) +:+ suffix).
Proof.
  apply (en_passant_notation enPassantBoard enPassantState
           (mkPiece pawn white (Some true)) (mkPos 3 4) (mkPos 2 5)
           (mkPiece pawn black (Some true))).
  - reflexivity.
  - repeat split.
  - reflexivity.
  - reflexivity.
  - discriminate.
Defined.

(** ** The status line *)

(** The three queries of the status effect and what ties them: a side in
    check is never stalemated, a side not in check never checkmated. *)
Lemma end_queries b player gs :
  eightRows b →
  ∃ mate stale chk,
    isCheckmate b player gs = Some mate ∧ isStalemate b player gs = Some stale ∧
    isKingInCheck b player gs = Some chk ∧
    (chk = true → stale = false) ∧ (chk = false → mate = false).
Proof.
  intros Hb.
  destruct (isCheckmate_defined b player gs Hb) as [mate Hm].
  destruct (isStalemate_defined b player gs Hb) as [stale Hs].
  destruct (isKingInCheck_defined b player gs Hb) as [chk Hc].
  exists mate, stale, chk. repeat split; try assumption.
  - intros ->. unfold isStalemate in Hs. rewrite Hc, bind_Some in Hs. congruence.
  - intros ->. unfold isCheckmate in Hm. rewrite Hc, bind_Some in Hm. simpl in Hm.
    congruence.
Qed.

(** X22. The status line tells the four situations apart.  On a board
    of eight rows the text computed by the status effect is defined, and it
    is the checkmate announcement, naming the other colour as winner,
    exactly when [isCheckmate] holds for the player to move; the stalemate
    announcement exactly when [isStalemate] holds; the check warning exactly
    when the player is in check without being checkmated; and the plain
    turn indication exactly when the player is neither in check nor
    stalemated.  Testing checkmate first hides no stalemate. *)
Theorem status_text_faithful :
  ∀ (b : Board) (player : Color) (gs : GameState),
    eightRows b →
    ∃ text,
      statusText b player gs = Some text ∧
      (text = "Checkmate! " +:+ capitalized (opponent player) +:+ " wins!"
       ↔ isCheckmate b player gs = Some true) ∧
      (text = "Stalemate! The game is a draw."%string
       ↔ isStalemate b player gs = Some true) ∧
      (text = capitalized player +:+ " is in check!"
       ↔ isKingInCheck b player gs = Some true ∧ isCheckmate b player gs = Some false) ∧
      (text = capitalized player +:+ "'s turn"
       ↔ isKingInCheck b player gs = Some false ∧ isStalemate b player gs = Some false).
Proof.
  intros b player gs Hb.
  destruct (end_queries b player gs Hb) as (mate & stale & chk & Hm & Hs & Hc & H1 & H2).
  unfold statusText. rewrite Hm, Hs, Hc, bind_Some.
  destruct mate.
  - eexists. split; [reflexivity|].
    assert (chk = true) as -> by (destruct chk; [reflexivity|discriminate (H2 eq_refl)]).
    rewrite (H1 eq_refl).
    destruct player; cbn; repeat split; intros; try discriminate; try reflexivity;
      try (destruct H; discriminate).
  - rewrite bind_Some. destruct stale.
    + eexists. split; [reflexivity|].
      assert (chk = false) as -> by (destruct chk; [discriminate (H1 eq_refl)|reflexivity]).
      destruct player; cbn; repeat split; intros; try discriminate; try reflexivity;
        try (destruct H; discriminate).
    + rewrite bind_Some. destruct chk; (eexists; split; [reflexivity|]);
        destruct player; cbn; repeat split; intros; try discriminate; try reflexivity;
          try (destruct H; discriminate).
Qed.

Lemma status_text_faithful_witness :
  ∃ text,
    statusText initialBoard white startState = Some text ∧
    (text = "Checkmate! " +:+ capitalized (opponent white) +:+ " wins!"
     ↔ isCheckmate initialBoard white startState = Some true) ∧
    (text = "Stalemate! The game is a draw."%string
     ↔ isStalemate initialBoard white startState = Some true) ∧
    (text = capitalized white +:+ " is in check!"
     ↔ isKingInCheck initialBoard white startState = Some true
       ∧ isCheckmate initialBoard white startState = Some false) ∧
    (text = capitalized white +:+ "'s turn"
     ↔ isKingInCheck initialBoard white startState = Some false
       ∧ isStalemate initialBoard white startState = Some false).
Proof. exact (status_text_faithful initialBoard white startState eq_refl). Defined.

(** ** The executor creates no piece *)

(** X11. [movePiece] creates no piece: every piece standing on the
    returned board is the piece that moved, as it arrives (marked as moved,
    promoted if a pawn reached its far row), or a piece that stood somewhere
    on the input board, unchanged; the number of rows is kept and the origin
    square is empty. *)
Theorem move_creates_no_piece :
  ∀ (b : Board) (from to : Position) (gs : GameState) (promo : option PieceType)
    (piece : ChessPiece) (r : MoveResult),
    getCell b from = Some (Some piece) →
    movePiece b from to gs promo = Some r →
    length (newBoard r) = length b ∧
    getCell (newBoard r) from = Some None ∧
    ∀ q x, getCell (newBoard r) q = Some (Some x) →
           x = arrivingPiece piece to promo ∨ ∃ q', getCell b q' = Some (Some x).
Proof.
  intros b from to gs promo piece r Hp H.
  destruct (movePiece_final _ _ _ _ _ _ _ Hp H) as (Hlen & nb2 & _ & Hsrc & Hq).
  split; [exact Hlen|]. split.
  - rewrite Hq, !Z.eqb_refl. reflexivity.
  - intros q x Hx. rewrite Hq in Hx.
    destruct ((row q =? row from) && (col q =? col from)); [discriminate Hx|].
    destruct ((row q =? row to) && (col q =? col to) && (0 <=? col to)).
    + left. congruence.
    + exact (Hsrc q x Hx).
Qed.

Lemma move_creates_no_piece_witness :
  ∃ r, movePiece castleBoard (mkPos 7 4) (mkPos 7 6) startState None = Some r ∧
       length (newBoard r) = length castleBoard ∧
       getCell (newBoard r) (mkPos 7 4) = Some None ∧
       ∀ q x, getCell (newBoard r) q = Some (Some x) →
              x = arrivingPiece (mkPiece king white None) (mkPos 7 6) None
              ∨ ∃ q', getCell castleBoard q' = Some (Some x).
Proof.
  destruct (movePiece castleBoard (mkPos 7 4) (mkPos 7 6) startState None) as [r|] eqn:H;
    [|vm_compute in H; discriminate H].
  exists r. split; [reflexivity|].
  exact (move_creates_no_piece castleBoard (mkPos 7 4) (mkPos 7 6) startState None
           (mkPiece king white None) r eq_refl H).
Defined.

(** ** Where the engine raises *)

Lemma getCell_no_row (b : Board) p :
  ¬ (0 ≤ row p < Z.of_nat (length b)) → getCell b p = None.
Proof.
  intros H. unfold getCell, rowAt. destruct (Z.leb_spec 0 (row p)); [|reflexivity].
  rewrite (proj2 (lookup_ge_None b (Z.to_nat (row p)))) by lia. reflexivity.
Qed.

Lemma setCell_no_row (b : Board) p v :
  ¬ (0 ≤ row p < Z.of_nat (length b)) → setCell b p v = None.
Proof.
  intros H. unfold setCell, rowAt. destruct (Z.leb_spec 0 (row p)); [|reflexivity].
  rewrite (proj2 (lookup_ge_None b (Z.to_nat (row p)))) by lia. reflexivity.
Qed.

Lemma getCell_off (b : Board) p :
  eightRows b → ¬ (0 ≤ row p < 8) → getCell b p = None.
Proof. intros Hb H. apply getCell_no_row. unfold eightRows in Hb. rewrite Hb. simpl. lia. Qed.

Lemma setCell_off (b : Board) p v :
  eightRows b → ¬ (0 ≤ row p < 8) → setCell b p v = None.
Proof. intros Hb H. apply setCell_no_row. unfold eightRows in Hb. rewrite Hb. simpl. lia. Qed.

(** X15. Where the engine raises on a board of eight rows.  The attack
    and end-of-game queries never raise, whatever square, colour and state
    they are given.  [getPossibleMoves] raises exactly when the row of the
    square is not one of 0..7, whatever its column.  [movePiece] raises when the origin row is not one of 0..7;
    with a piece on the origin it raises exactly when the destination row
    is not one of 0..7, or when a pawn lands on the en-passant target and
    the row behind the target is not one of 0..7. *)
Theorem engine_raises_exactly :
  ∀ (b : Board),
    eightRows b →
    (∀ p c gs, isPositionUnderAttack b p c gs ≠ None) ∧
    (∀ c gs, isKingInCheck b c gs ≠ None ∧ isCheckmate b c gs ≠ None
             ∧ isStalemate b c gs ≠ None) ∧
    (∀ p gs, getPossibleMoves b p gs = None ↔ ¬ (0 ≤ row p < 8)) ∧
    (∀ from to gs promo, ¬ (0 ≤ row from < 8) → movePiece b from to gs promo = None) ∧
    (∀ from to gs promo piece,
       getCell b from = Some (Some piece) →
       (movePiece b from to gs promo = None ↔
        ¬ (0 ≤ row to < 8)
        ∨ (type piece = pawn ∧ hitsEnPassant gs to = true
           ∧ ¬ (0 ≤ row to - pawnDirection (color piece) < 8)))).
Proof.
  intros b Hb. pose proof Hb as Hlen. unfold eightRows in Hlen.
  split; [|split; [|split; [|split]]].
  - intros p c gs. destruct (isPositionUnderAttack_defined b p c gs Hb) as [r ->].
    discriminate.
  - intros c gs.
    destruct (isKingInCheck_defined b c gs Hb) as [r1 ->].
    destruct (isCheckmate_defined b c gs Hb) as [r2 ->].
    destruct (isStalemate_defined b c gs Hb) as [r3 ->].
    repeat split; discriminate.
  - intros p gs. split.
    + intros H Hr. destruct (getPossibleMoves_defined b p gs Hb Hr) as [ms Hms].
      congruence.
    + intros Hr. unfold getPossibleMoves. rewrite (getCell_off b p Hb Hr). reflexivity.
  - intros from to gs promo Hr. unfold movePiece.
    rewrite cloneBoard_id, (getCell_off b from Hb Hr). reflexivity.
  - intros from to gs promo piece Hp. split.
    + intros H.
      destruct (Z_le_dec 0 (row to)) as [H0|H0]; [|left; lia].
      destruct (Z_lt_dec (row to) 8) as [H8|H8]; [|left; lia].
      right.
      destruct (PieceType_eqb (type piece) pawn) eqn:Et.
      2:{ destruct (movePiece_defined b from to gs promo piece Hb Hp (conj H0 H8))
            as (r & Hr & _); [|congruence].
          intros Ht. apply PieceType_eqb_eq in Ht. congruence. }
      apply PieceType_eqb_eq in Et.
      destruct (hitsEnPassant gs to) eqn:Eh.
      2:{ destruct (movePiece_defined b from to gs promo piece Hb Hp (conj H0 H8))
            as (r & Hr & _); [|congruence]. intros _ Hh. congruence. }
      split; [exact Et|]. split; [reflexivity|]. intros Hcap.
      destruct (movePiece_defined b from to gs promo piece Hb Hp (conj H0 H8))
        as (r & Hr & _); [|congruence]. intros _ _. exact Hcap.
    + intros Hcond. rewrite (movePiece_occupied _ _ _ _ _ _ Hp).
      destruct Hcond as [Hr|(Ht & Hh & Hcap)].
      * rewrite (getCell_off b to Hb Hr). reflexivity.
      * destruct (getCell b to) as [captured|]; [|reflexivity].
        rewrite bind_Some. cbv zeta. rewrite Ht. simpl PieceType_eqb. cbv iota.
        unfold pawnStep. rewrite Hh, captureRow_behind.
        rewrite (setCell_off b (squareBehind (color piece) to) None Hb Hcap).
        reflexivity.
Qed.

Lemma engine_raises_exactly_witness :
  getPossibleMoves initialBoard (mkPos 8 0) startState = None ∧
  getPossibleMoves initialBoard (mkPos 0 8) startState ≠ None.
Proof.
  destruct (engine_raises_exactly initialBoard eq_refl) as (_ & _ & H & _).
  split.
  - apply H. simpl. lia.
  - intros Hn. apply H in Hn. apply Hn. simpl. lia.
Defined.

(** ** The board component: what holds in every state it reaches *)

Lemma select_keeps s r c (other s' : ChessBoardState) :
  (clicked ← getCell (board s) (mkPos r c);
   match clicked with
   | Some clickedPiece =>
       if Color_eqb (color clickedPiece) (currentPlayer s) then
         moves ← getPossibleMoves (board s) (mkPos r c) (gameState s);
         Some (withSelection s (Some (mkPos r c)) moves)
       else Some other
   | None => Some other
   end) = Some s' →
  board other = board s → selectionCoherent other →
  board s' = board s ∧ selectionCoherent s'.
Proof.
  intros H Ob Oco.
  destruct (getCell (board s) (mkPos r c)) as [[p|]|] eqn:Hcl; [| |discriminate H].
  - rewrite bind_Some in H.
    destruct (Color_eqb (color p) (currentPlayer s)) eqn:Hc.
    + apply Color_eqb_eq in Hc.
      destruct (getPossibleMoves (board s) (mkPos r c) (gameState s)) as [ms|] eqn:Hms;
        [|discriminate H].
      rewrite bind_Some in H. injection H as <-. split; [reflexivity|].
      intros sel [= <-]. simpl. split; [exists p; auto|exact Hms].
    + injection H as <-. auto.
  - rewrite bind_Some in H. injection H as <-. auto.
Qed.

Lemma click_keeps s r c s' :
  handleSquareClick s r c = Some s' →
  eightRows (board s) → selectionCoherent s →
  eightRows (board s') ∧ selectionCoherent s'.
Proof.
  unfold handleSquareClick. intros H Hb Hco.
  destruct (gameOver s) as [[|]|]; [| |discriminate H].
  { injection H as <-. auto. }
  rewrite bind_Some in H.
  destruct (selectedPiece s) as [sel|] eqn:Hsel.
  - destruct (isValidMove s r c).
    + destruct (getCell (board s) sel) as [[p|]|] eqn:Hp; [| |discriminate H].
      * rewrite bind_Some in H. cbv zeta in H.
        destruct (PieceType_eqb (type p) pawn && _).
        -- injection H as <-. split; [exact Hb|].
           intros sel' Hsel'. simpl in *. apply Hco. exact Hsel'.
        -- destruct (movePiece (board s) _ (mkPos r c) (gameState s) None) as [res|] eqn:Hres;
             [|discriminate H].
           rewrite bind_Some in H.
           destruct (generateNotation _ _ _ _ _ _ _ _) as [text|]; [|discriminate H].
           rewrite bind_Some in H. injection H as <-. simpl.
           split; [exact (movePiece_rows _ _ _ _ _ _ Hb Hres)|].
           intros sel' Hsel'. discriminate Hsel'.
      * rewrite bind_Some in H. injection H as <-. auto.
    + destruct (select_keeps s r c (withSelection s None []) s' H eq_refl) as [Hb' Hco'].
      { intros sel' Hsel'. discriminate Hsel'. }
      rewrite Hb'. auto.
  - destruct (select_keeps s r c s s' H eq_refl Hco) as [Hb' Hco'].
    rewrite Hb'. auto.
Qed.

Lemma promotion_keeps s t s' :
  handlePromotion s t = Some s' →
  eightRows (board s) → selectionCoherent s →
  eightRows (board s') ∧ selectionCoherent s'.
Proof.
  unfold handlePromotion. intros H Hb Hco.
  destruct (selectedPiece s) as [sel|]; [|injection H as <-; auto].
  destruct (promotionPosition s) as [pos|]; [|injection H as <-; auto].
  destruct (getCell (board s) sel) as [[p|]|]; [| |discriminate H].
  - rewrite bind_Some in H. cbv zeta in H.
    destruct (movePiece (board s) _ pos (gameState s) (Some t)) as [res|] eqn:Hres;
      [|discriminate H].
    rewrite bind_Some in H.
    destruct (generateNotation _ _ _ _ _ _ _ _) as [text|]; [|discriminate H].
    rewrite bind_Some in H. injection H as <-. simpl.
    split; [exact (movePiece_rows _ _ _ _ _ _ Hb Hres)|].
    intros sel' Hsel'. discriminate Hsel'.
  - rewrite bind_Some in H. injection H as <-. auto.
Qed.

(** X20. In every state the component reaches from its first render, by
    clicks on the squares it renders, choices in the promotion dialog,
    resets and runs of the status effect, the board has eight rows and the
    selection is coherent: a selected square holds a piece of the player to
    move, and the moves kept with it are exactly the legal moves of that
    piece in the current position. *)
Theorem component_invariant :
  ∀ s : ChessBoardState,
    reachable s → eightRows (board s) ∧ selectionCoherent s.
Proof.
  intros s Hreach. induction Hreach as [|s s' _ [Hb Hco] Hstep].
  { split; [reflexivity|]. intros sel Hsel. discriminate Hsel. }
  destruct Hstep as [(r & c & _ & H)|[(t & H)|[->|H]]].
  - exact (click_keeps _ _ _ _ H Hb Hco).
  - exact (promotion_keeps _ _ _ H Hb Hco).
  - split; [reflexivity|]. intros sel Hsel. discriminate Hsel.
  - unfold statusEffect in H.
    destruct (statusText _ _ _) as [text|]; [|discriminate H].
    rewrite bind_Some in H. injection H as <-. split; [exact Hb|].
    intros sel Hsel. simpl in *. apply Hco. exact Hsel.
Qed.

Lemma component_invariant_witness :
  eightRows (board (resetGame initialComponent))
  ∧ selectionCoherent (resetGame initialComponent).
Proof.
  apply component_invariant.
  apply (reach_step initialComponent); [apply reach_init|].
  right; right; left. reflexivity.
Defined.

(** ** Piece glyphs *)

(** X23. The glyph of a piece determines its kind and colour: two
    pieces drawn alike by the piece component are of the same kind and
    colour.  For each of the kinds it offers, the promotion dialog shows the
    glyph the piece component draws for a piece of that kind and of the
    dialog's colour; for the other kinds it shows nothing. *)
Theorem glyphs_tell_pieces_apart :
  (∀ p q : ChessPiece,
     getPieceSymbol p = getPieceSymbol q → type p = type q ∧ color p = color q) ∧
  (∀ (c : Color) (t : PieceType) (h : option bool),
     In t promotionChoices → dialogPieceSymbol c t = getPieceSymbol (mkPiece t c h)) ∧
  (∀ (c : Color) (t : PieceType),
     ¬ In t promotionChoices → dialogPieceSymbol c t = ""%string).
Proof.
  split; [|split].
  - intros [tp cp hp] [tq cq hq]. unfold getPieceSymbol. simpl.
    destruct tp, cp, tq, cq; simpl; intros H; try discriminate H; auto.
  - intros c t h Hin. simpl in Hin.
    destruct Hin as [<-|[<-|[<-|[<-|[]]]]]; destruct c; reflexivity.
  - intros c t Hn. destruct t; try reflexivity; contradiction Hn; simpl; tauto.
Qed.

Lemma glyphs_tell_pieces_apart_witness :
  In queen promotionChoices
  ∧ dialogPieceSymbol black queen = getPieceSymbol (mkPiece queen black None).
Proof.
  split; [simpl; auto|].
  apply (proj1 (proj2 glyphs_tell_pieces_apart)). simpl; auto.
Defined.

(** ** Worked positions *)

(** Opening moves of the e-pawn and of the queen's knight. *)
Example initial_pawn_moves :
  getPossibleMoves initialBoard (mkPos 6 4) startState = Some [mkPos 5 4; mkPos 4 4].
Proof. vm_compute. reflexivity. Qed.

Example initial_knight_moves :
  getPossibleMoves initialBoard (mkPos 7 1) startState = Some [mkPos 5 0; mkPos 5 2].
Proof. vm_compute. reflexivity. Qed.

(** 1.f3 e5 2.g4 Qh4: white is checkmated, not stalemated, and no white piece
    has a move. *)
Example fools_mate :
  (r1 ← movePiece initialBoard (mkPos 6 5) (mkPos 5 5) startState None;
   r2 ← movePiece (newBoard r1) (mkPos 1 4) (mkPos 3 4) (newGameState r1) None;
   r3 ← movePiece (newBoard r2) (mkPos 6 6) (mkPos 4 6) (newGameState r2) None;
   r4 ← movePiece (newBoard r3) (mkPos 0 3) (mkPos 4 7) (newGameState r3) None;
   inCheck ← isKingInCheck (newBoard r4) white (newGameState r4);
   mate ← isCheckmate (newBoard r4) white (newGameState r4);
   stale ← isStalemate (newBoard r4) white (newGameState r4);
   Some (inCheck, mate, stale, fullMoveNumber (newGameState r4)))
  = Some (true, true, false, 3).
Proof. vm_compute. reflexivity. Qed.

(** A pawn reaching the last rank becomes a queen unless a choice is made. *)
Example promotion_default_and_choice :
  let b := boardWith [(mkPos 1 0, mkPiece pawn white (Some true))] in
  (newBoard <$> movePiece b (mkPos 1 0) (mkPos 0 0) quietState None)
    = Some (boardWith [(mkPos 0 0, mkPiece queen white (Some true))]) ∧
  (newBoard <$> movePiece b (mkPos 1 0) (mkPos 0 0) quietState (Some knight))
    = Some (boardWith [(mkPos 0 0, mkPiece knight white (Some true))]).
Proof. split; vm_compute; reflexivity. Qed.

(** Castling relocates the rook and forfeits both rights of the colour. *)
Example castling_moves_the_rook :
  movePiece castleBoard (mkPos 7 4) (mkPos 7 6) startState None
  = Some (mkResult
            (boardWith [(mkPos 7 6, mkPiece king white (Some true));
                        (mkPos 7 5, mkPiece rook white None);
                        (mkPos 0 4, mkPiece king black None)])
            (mkState false false true true None 1 1)
            None).
Proof. vm_compute. reflexivity. Qed.
